(** * Typed Eva: the static typechecker, embedded in Rocq

    A shallow embedding of [src/Type.js], [src/TypeEnvironment.js] and
    [src/EvaTC.js].  JavaScript objects that are compared by reference carry
    an object identifier; the static properties of the [Type] class (the
    registry of named types) and the [TypeEnvironment] objects live in an
    explicit store that is threaded through the checker. *)

From Stdlib Require Import ZArith String Ascii List Lia Bool.
From stdpp Require Import base option list gmap strings pretty.

Set Warnings "-register-all".
Open Scope string_scope.

(** ** JavaScript data: expression trees and string helpers *)

Module Js.

(** The expression tree handed to the checker: atoms and nested arrays.
    [SUndef] is JavaScript's [undefined], which is what reading past the end
    of an array or a string yields.  Numeric literals are integers below
    10^21 in absolute value, which [String] renders in decimal notation.
    A character of a string is a UTF-16 code unit below 256 (the Latin-1
    range): [s[i]], [s.length] and [s.slice] count such units. *)
Inductive sexp : Type :=
| SUndef
| SNum (n : Z)
| SStr (s : string)
| SBool (b : bool)
| SList (l : list sexp).

(** [String(x)]: the coercion applied by [RegExp.prototype.test/exec], by
    property keys and by template literals.  [Array.prototype.join] renders
    an [undefined] element as the empty string. *)
Fixpoint toString (e : sexp) : string :=
  match e with
  | SUndef => "undefined"
  | SNum n => pretty n
  | SStr s => s
  | SBool b => if b then "true" else "false"
  | SList l =>
      (fix join (l : list sexp) : string :=
         match l with
         | [] => ""
         | x :: l' =>
             let sx := match x with SUndef => "" | _ => toString x end in
             match l' with
             | [] => sx
             | _ => sx ++ "," ++ join l'
             end
         end) l
  end.

(** [s[i]] on a string: the one-character string at [i], or [undefined]. *)
Definition charAt (s : string) (i : nat) : sexp :=
  match String.get i s with
  | Some c => SStr (String c EmptyString)
  | None => SUndef
  end.

(** [exp[i]] where [exp] is known not to be [undefined]: element of an
    array, character of a string, [undefined] on numbers and booleans. *)
Definition idx (e : sexp) (i : nat) : sexp :=
  match e with
  | SList l => nth i l SUndef
  | SStr s => charAt s i
  | _ => SUndef
  end.

(** [exp.length] for strings and arrays. *)
Definition len (e : sexp) : nat :=
  match e with
  | SList l => List.length l
  | SStr s => String.length s
  | _ => 0
  end.

Definition isArray (e : sexp) : bool :=
  match e with SList _ => true | _ => false end.

(** [x === 'tag'] against a string literal of the source. *)
Definition is_str (e : sexp) (tag : string) : bool :=
  match e with SStr s => String.eqb s tag | _ => false end.

(** The string made of one double quote character. *)
Definition dquote : string := String "034"%char EmptyString.

(** [s.slice(1, -1)] on a string. *)
Definition str_slice_1_m1 (s : string) : string :=
  substring 1 (String.length s - 2) s.

(** [a.slice(1, -1)] on an array. *)
Definition list_slice_1_m1 {A} (l : list A) : list A :=
  firstn (List.length l - 2) (skipn 1 l).

(** [s.slice(-1)]: the last character, empty on the empty string. *)
Definition str_last (s : string) : string :=
  substring (String.length s - 1) 1 s.

(** [s.includes(t)]. *)
Fixpoint includes (t s : string) : bool :=
  if String.prefix t s then true
  else match s with
       | EmptyString => false
       | String _ s' => includes t s'
       end.

(** Character classes of the regular expressions of the sources. *)
Definition in_range (lo hi c : ascii) : bool :=
  Nat.leb (nat_of_ascii lo) (nat_of_ascii c)
  && Nat.leb (nat_of_ascii c) (nat_of_ascii hi).

Definition is_lower (c : ascii) : bool := in_range "a" "z" c.
Definition is_upper (c : ascii) : bool := in_range "A" "Z" c.
Definition is_digit (c : ascii) : bool := in_range "0" "9" c.

(** [\w] *)
Definition is_word (c : ascii) : bool :=
  is_lower c || is_upper c || is_digit c || Ascii.eqb c "_".

(** [\s], on the code units below 256: tab, line feed, vertical tab,
    form feed, carriage return, space, and the no-break space U+00A0. *)
Definition is_space (c : ascii) : bool :=
  let n := nat_of_ascii c in
  (Nat.leb 9 n && Nat.leb n 13) || Nat.eqb n 32 || Nat.eqb n 160.

(** [[a-z,\s]] *)
Definition is_param_char (c : ascii) : bool :=
  is_lower c || Ascii.eqb c "," || is_space c.

(** [[+\-*/<>=a-zA-Z0-9_:]] *)
Definition is_name_char (c : ascii) : bool :=
  existsb (Ascii.eqb c) ["+"; "-"; "*"; "/"; "<"; ">"; "="; "_"; ":"]%char
  || is_lower c || is_upper c || is_digit c.

Fixpoint str_forall (p : ascii -> bool) (s : string) : bool :=
  match s with
  | EmptyString => true
  | String c s' => p c && str_forall p s'
  end.

(** Longest prefix of [s] made of characters in [p], and the rest. *)
Fixpoint span (p : ascii -> bool) (s : string) : string * string :=
  match s with
  | EmptyString => (EmptyString, EmptyString)
  | String c s' =>
      if p c then let '(a, b) := span p s' in (String c a, b)
      else (EmptyString, s)
  end.

(** [/^[+\-*/]$/.test(s)] *)
Definition re_binary_op (s : string) : bool :=
  existsb (String.eqb s) ["+"; "-"; "*"; "/"].

(** [/^[+\-*/<>=a-zA-Z0-9_:]+$/.test(s)] *)
Definition re_variable_name (s : string) : bool :=
  negb (String.eqb s "") && str_forall is_name_char s.

(** [/^<([^>]+)>$/.exec(s)]: the captured group, if the string matches. *)
Definition re_angle (s : string) : option string :=
  match s with
  | String "<" rest =>
      let '(inner, tail) := span (fun c => negb (Ascii.eqb c ">")) rest in
      if negb (String.eqb inner "") && String.eqb tail ">" then Some inner
      else None
  | _ => None
  end.

(** [/^Fn<(\w+)<([a-z,\s]+)>>$/.exec(s)]: the two captured groups. *)
Definition re_fn_params (s : string) : option (string * string) :=
  match s with
  | String "F" (String "n" (String "<" rest)) =>
      let '(ret, tail) := span is_word rest in
      match tail with
      | String "<" rest2 =>
          let '(ps, tail2) := span is_param_char rest2 in
          if negb (String.eqb ret "") && negb (String.eqb ps "")
             && String.eqb tail2 ">>"
          then Some (ret, ps) else None
      | _ => None
      end
  | _ => None
  end.

(** [/^Fn<(\w+)>$/.exec(s)] *)
Definition re_fn_noparams (s : string) : option string :=
  match s with
  | String "F" (String "n" (String "<" rest)) =>
      let '(ret, tail) := span is_word rest in
      if negb (String.eqb ret "") && String.eqb tail ">" then Some ret
      else None
  | _ => None
  end.

(** [s.split(',')] *)
Fixpoint split_comma (s : string) : list string :=
  match s with
  | EmptyString => [EmptyString]
  | String c s' =>
      match split_comma s' with
      | hd :: tl =>
          if Ascii.eqb c "," then EmptyString :: hd :: tl
          else String c hd :: tl
      | [] => [String c EmptyString]
      end
  end.

(** [s.split(/,\s*/g)]: a separator is a comma with the white space that
    follows it.  [drop] is set right after a comma, while the white space
    of the separator is being consumed. *)
Fixpoint split_comma_ws_aux (drop : bool) (s : string) : list string :=
  match s with
  | EmptyString => [EmptyString]
  | String c s' =>
      if Ascii.eqb c "," then EmptyString :: split_comma_ws_aux true s'
      else if drop && is_space c then split_comma_ws_aux true s'
      else match split_comma_ws_aux false s' with
           | hd :: tl => String c hd :: tl
           | [] => [String c EmptyString]
           end
  end.

Definition split_comma_ws (s : string) : list string :=
  split_comma_ws_aux false s.

End Js.

Export Js.


(** ** Outcomes of a JavaScript computation *)

(** What the sources can throw.  The checker throws template strings, told
    apart here by the place that throws them; the runtime itself throws
    [TypeError] and [ReferenceError] objects. *)
Inductive error : Type :=
| UndefinedName (name : string)
    (* TypeEnvironment.lookup: new ReferenceError(...), the variable
       <name> is not defined *)
| JsTypeError
    (* the runtime's TypeError: property read on [undefined], call of
       something that is not a function, destructuring of a non-iterable,
       conversion of an object to a primitive *)
| JsReferenceError (ident : string)
    (* the runtime's ReferenceError: an identifier of the source that is
       bound nowhere *)
| UnknownType (typeStr : string)          (* Type.fromString *)
| FunctionUnknownType (typeStr : string)  (* Type.Function.fromString *)
| DuplicateTypeDeclaration (name : string)
    (* tc, type branch: `Type <name> is already defined ...` *)
| UnknownBaseType (base : string)
    (* tc, type branch: `Type <base> is not defined.` *)
| OperatorArity                           (* _checkArity *)
| ArityMismatch                           (* _checkFunctionCall *)
| TypeMismatch                            (* _throw *)
| ReturnTypeMismatch                      (* _tcFunction *)
| MissingGenericActualTypes               (* _extractActulCallTypes *)
| UnknownExpression.                      (* last statement of tc *)

(** [Ret]: normal completion.  [Throw]: abrupt completion.  [OutOfModel]:
    the program went on with a JavaScript value that this embedding does
    not represent (a built-in property of the [Type] constructor used as a
    type, a name that is not a string used as a type name).  [OutOfFuel]:
    the recursion bound of the embedding was reached. *)
Inductive res (A : Type) : Type :=
| Ret (a : A)
| Throw (e : error)
| OutOfModel
| OutOfFuel.

Arguments Ret {A} a.
Arguments Throw {A} e.
Arguments OutOfModel {A}.
Arguments OutOfFuel {A}.

Definition res_bind {A B} (m : res A) (k : A -> res B) : res B :=
  match m with
  | Ret a => k a
  | Throw e => Throw e
  | OutOfModel => OutOfModel
  | OutOfFuel => OutOfFuel
  end.

#[global] Instance res_ret : MRet res := @Ret.
#[global] Instance res_mbind : MBind res := fun A B k m => res_bind m k.

(** ** Type.js *)

Module Types.

(** Instances of [Type] and of its subclasses.  [oid] is the identity of
    the object ([===] on two types compares it).  The fields are those the
    constructors assign; no method of the sources writes to them afterwards.

    - [TPrim]: [new Type(name)].
    - [TFunction]: [name] is [null] unless the type was parsed from a string
      (see [new_Function]).
    - [TClass]: [env] is the address of the class's own [TypeEnvironment].
    - [TGenericFunction]: the class body is empty in [Type.js], so the
      constructor is the inherited [Type] constructor and its single
      argument, the options object built by [_createGenericFunctionType],
      is stored as [name]; the fields listed here are those of that
      object. *)
Inductive Ty : Type :=
| TPrim (oid : nat) (name : string)
| TFunction (oid : nat) (name : option string)
            (paramTypes : list Ty) (returnType : Ty)
| TAlias (oid : nat) (name : string) (parent : Ty)
| TClass (oid : nat) (name : string) (superClass : Ty) (env : nat)
| TUnion (oid : nat) (name : string) (optionTypes : list Ty)
| TGenericFunction (oid : nat)
                   (genericTypesStr params body returnType : sexp) (env : nat).

(** A value where the checker expects a type: [tc] and [lookup] can also
    yield [undefined]. *)
Inductive tval : Type :=
| VType (t : Ty)
| VUndefined.

Definition oid_of (t : Ty) : nat :=
  match t with
  | TPrim o _ | TFunction o _ _ _ | TAlias o _ _ | TClass o _ _ _
  | TUnion o _ _ | TGenericFunction o _ _ _ _ _ => o
  end.

(** [a === b] on two type objects. *)
Definition same_object (a b : Ty) : bool := Nat.eqb (oid_of a) (oid_of b).

(** [a === v], and [a == v], where [a] is a type object and [v] may be
    [undefined]. *)
Definition same_value (a : Ty) (v : tval) : bool :=
  match v with
  | VType b => same_object a b
  | VUndefined => false
  end.

(** The value of the [name] field. *)
Inductive jsname : Type :=
| NameStr (s : string)
| NameNull
| NameObject (oid : nat).

Definition name_of (t : Ty) : jsname :=
  match t with
  | TPrim _ n | TAlias _ n _ | TClass _ n _ _ | TUnion _ n _ => NameStr n
  | TFunction _ (Some n) _ _ => NameStr n
  | TFunction _ None _ _ => NameNull
  | TGenericFunction o _ _ _ _ _ => NameObject o
  end.

(** [a === b] on two names. *)
Definition name_eq (a b : jsname) : bool :=
  match a, b with
  | NameStr x, NameStr y => String.eqb x y
  | NameNull, NameNull => true
  | NameObject x, NameObject y => Nat.eqb x y
  | _, _ => false
  end.

(** [getName()]: [Type.prototype.getName] returns the field.  The override
    in [Type.Function] assembles [Fn<...>] in a local array when the field
    is [null] and then returns the field all the same. *)
Definition getName (t : Ty) : jsname := name_of t.

(** [new Type.Function({name = null, paramTypes, returnType})]:
    [this.name = this.getName()] leaves a [null] name [null]. *)
Definition new_Function (oid : nat) (name : option string)
    (paramTypes : list Ty) (returnType : Ty) : Ty :=
  TFunction oid name paramTypes returnType.

Definition isAlias (t : Ty) : bool :=
  match t with TAlias _ _ _ => true | _ => false end.

Definition isUnion (t : Ty) : bool :=
  match t with TUnion _ _ _ => true | _ => false end.

Definition isGenericFunction (t : Ty) : bool :=
  match t with TGenericFunction _ _ _ _ _ _ => true | _ => false end.

(** [l.some(f)] where [f] may throw. *)
Fixpoint some {A} (f : A -> res bool) (l : list A) : res bool :=
  match l with
  | [] => Ret false
  | x :: l' => b ← f x; if b : bool then Ret true else some f l'
  end.

(** [for (const x of l) { if (!f(x)) return false; } return true] *)
Fixpoint every {A} (f : A -> res bool) (l : list A) : res bool :=
  match l with
  | [] => Ret true
  | x :: l' => b ← f x; if b : bool then every f l' else Ret false
  end.

(** The loop of [Type.Function.equals] over two lists of equal length. *)
Fixpoint pairwise {A} (f : A -> A -> res bool) (l1 l2 : list A) : res bool :=
  match l1, l2 with
  | x :: l1', y :: l2' =>
      b ← f x y; if b : bool then pairwise f l1' l2' else Ret false
  | _, _ => Ret true
  end.

Section Equality.

(** The value currently stored in [Type.null], which [Type.Class.equals]
    reads when it runs. *)
Variable Tnull : tval.

Section Methods.

(** The dynamically dispatched calls [x.equals(y)] made by the
    methods. *)
Variable equals : Ty -> Ty -> res bool.

(** [Type.prototype.equals], inherited by [Type.GenericFunction] *)
Definition Type_equals (this other : Ty) : res bool :=
  if isAlias other then equals other this
  else if isUnion other then equals other this
  else Ret (name_eq (name_of this) (name_of other)).

(** [Type.Function.prototype.equals]: [other.paramTypes] is
    [undefined] unless [other] is a [Type.Function], and its [length]
    is read first. *)
Definition Function_equals (paramTypes : list Ty) (returnType : Ty)
    (other : Ty) : res bool :=
  match other with
  | TFunction _ _ otherParamTypes otherReturnType =>
      if negb (Nat.eqb (List.length paramTypes)
                       (List.length otherParamTypes))
      then Ret false
      else
        b ← pairwise equals paramTypes otherParamTypes;
        if negb b then Ret false
        else
          b' ← equals returnType otherReturnType;
          if negb b' then Ret false else Ret true
  | _ => Throw JsTypeError
  end.

(** [Type.Alias.prototype.equals] *)
Definition Alias_equals (name : string) (parent : Ty) (other : Ty)
    : res bool :=
  if name_eq (NameStr name) (name_of other) then Ret true
  else equals parent other.

(** [Type.Class.prototype.equals] *)
Definition Class_equals (this superClass other : Ty) : res bool :=
  if same_object this other then Ret true
  else if isAlias other then equals other this
  else if negb (same_value superClass Tnull) then equals superClass other
  else Ret false.

(** [Type.Union.prototype.includesAll] *)
Definition Union_includesAll (this : Ty) (optionTypes types : list Ty)
    : res bool :=
  if negb (Nat.eqb (List.length types) (List.length optionTypes))
  then Ret false
  else every (equals this) types.

(** [Type.Union.prototype.equals] *)
Definition Union_equals (this : Ty) (optionTypes : list Ty) (other : Ty)
    : res bool :=
  if same_object this other then Ret true
  else if isAlias other then equals other this
  else
    match other with
    | TUnion _ _ types => Union_includesAll this optionTypes types
    | _ => some (fun t => equals t other) optionTypes
    end.

(** [this.equals(other)]: the method of the class of [this]. *)
Definition dispatch (this other : Ty) : res bool :=
  match this with
  | TPrim _ _ | TGenericFunction _ _ _ _ _ _ => Type_equals this other
  | TFunction _ _ ps r => Function_equals ps r other
  | TAlias _ n p => Alias_equals n p other
  | TClass _ _ s _ => Class_equals this s other
  | TUnion _ _ opts => Union_equals this opts other
  end.

End Methods.

(** The calls are not structural (the receiver and the argument trade
    places), so the definition counts them down. *)
Fixpoint equalsF (fuel : nat) (this other : Ty) {struct fuel} : res bool :=
  match fuel with
  | 0 => OutOfFuel
  | S fuel => dispatch (equalsF fuel) this other
  end.

(** [this.equals(undefined)]: [undefined instanceof C] is false, and
    reading a property of [undefined] throws. *)
Fixpoint equals_undefined (this : Ty) : res bool :=
  match this with
  | TPrim _ _ | TGenericFunction _ _ _ _ _ _ => Throw JsTypeError
  | TFunction _ _ _ _ => Throw JsTypeError
  | TAlias _ _ _ => Throw JsTypeError
  | TClass _ _ super _ =>
      if negb (same_value super Tnull) then equals_undefined super
      else Ret false
  | TUnion _ _ opts =>
      (fix go (l : list Ty) : res bool :=
         match l with
         | [] => Ret false
         | t :: l' =>
             match equals_undefined t with
             | Ret true => Ret true
             | Ret false => go l'
             | r => r
             end
         end) opts
  end.

(** Number of nodes of a type. *)
Fixpoint ty_size (t : Ty) : nat :=
  match t with
  | TPrim _ _ | TGenericFunction _ _ _ _ _ _ => 1
  | TFunction _ _ ps r =>
      S ((fix sum (l : list Ty) : nat :=
            match l with [] => 0 | x :: l' => ty_size x + sum l' end) ps
         + ty_size r)
  | TAlias _ _ p => S (ty_size p)
  | TClass _ _ s _ => S (ty_size s)
  | TUnion _ _ opts =>
      S ((fix sum (l : list Ty) : nat :=
            match l with [] => 0 | x :: l' => ty_size x + sum l' end) opts)
  end.

(** Whether [this.equals(other)] starts by handing over to
    [other.equals(this)]. *)
Definition swaps (this other : Ty) : bool :=
  match this with
  | TPrim _ _ | TGenericFunction _ _ _ _ _ _ => isAlias other || isUnion other
  | TClass _ _ _ _ | TUnion _ _ _ => isAlias other
  | _ => false
  end.

(** A bound on the depth of the calls of [this.equals(other)]. *)
Definition rank (this other : Ty) : nat :=
  2 * (ty_size this + ty_size other) + (if swaps this other then 1 else 0).

Definition fuel_for (this other : Ty) : nat := S (rank this other).

(** [this.equals(other)] *)
Definition equals (this other : Ty) : res bool :=
  equalsF (fuel_for this other) this other.

(** [this.includesAll(types)] *)
Definition includesAll (this : Ty) (types : list Ty) : res bool :=
  match this with
  | TUnion _ _ opts => Union_includesAll equals this opts types
  | _ => Throw JsTypeError
  end.

(** [this.equals(other)] where [other] may be [undefined]. *)
Definition equals_val (this : Ty) (other : tval) : res bool :=
  match other with
  | VType o => equals this o
  | VUndefined => equals_undefined this
  end.

End Equality.

End Types.

Export Types.

(** ** The store: the static properties of [Type] and the environments *)

(** A [TypeEnvironment] object.  [record] holds the own properties of the
    record object; [parent] is [None] for [null]. *)
Record frame : Type := Frame {
  record : gmap string tval;
  parent : option nat
}.

(** [types]: the own properties of the [Type] constructor that were
    assigned a type ([Type.number], ..., and what [tc] and
    [Type.Function.fromString] register).  [envs]: every
    [TypeEnvironment] allocated so far; an environment is referred to by
    its position.  [next_oid]: the identity of the next type object. *)
Record store : Type := Store {
  types : gmap string Ty;
  envs : list frame;
  next_oid : nat
}.

(** A computation of the checker: it reads and writes the store, and
    completes normally or abruptly. *)
Definition M (A : Type) : Type := store -> res A * store.

Definition ret {A} (a : A) : M A := fun st => (Ret a, st).

Definition throw {A} (e : error) : M A := fun st => (Throw e, st).

Definition out_of_model {A} : M A := fun st => (OutOfModel, st).

Definition out_of_fuel {A} : M A := fun st => (OutOfFuel, st).

Definition bind {A B} (m : M A) (k : A -> M B) : M B :=
  fun st =>
    match m st with
    | (Ret a, st') => k a st'
    | (Throw e, st') => (Throw e, st')
    | (OutOfModel, st') => (OutOfModel, st')
    | (OutOfFuel, st') => (OutOfFuel, st')
    end.

Definition lift {A} (r : res A) : M A := fun st => (r, st).

Definition get : M store := fun st => (Ret st, st).

Declare Scope eva_scope.
Delimit Scope eva_scope with eva.
Notation "x <- c ;; k" := (bind c (fun x => k))
  (at level 100, c at next level, right associativity) : eva_scope.
Notation "c ;; k" := (bind c (fun _ => k))
  (at level 100, right associativity) : eva_scope.
Open Scope eva_scope.

(** [l.map(f)] and [l.forEach(f)] where [f] runs in the store. *)
Fixpoint mapM {A B} (f : A -> M B) (l : list A) : M (list B) :=
  match l with
  | [] => ret []
  | x :: l' => y <- f x ;; ys <- mapM f l' ;; ret (y :: ys)
  end.

Definition fresh_oid : M nat :=
  fun st => (Ret (next_oid st),
             Store (types st) (envs st) (S (next_oid st))).

(** *** The registry *)

Module Registry.

(** Own properties of the class constructor [Type] that are not types:
    those of every class, the static method, and the subclasses. *)
Definition native_own : list string :=
  ["length"; "name"; "prototype"; "fromString";
   "Function"; "Alias"; "Class"; "Union"; "GenericFunction"].

(** String-keyed properties that [Type] inherits from [Function.prototype]
    and [Object.prototype]. *)
Definition native_inherited : list string :=
  ["arguments"; "caller"; "constructor"; "apply"; "bind"; "call";
   "toString"; "hasOwnProperty"; "isPrototypeOf"; "propertyIsEnumerable";
   "toLocaleString"; "valueOf"; "__proto__"; "__defineGetter__";
   "__defineSetter__"; "__lookupGetter__"; "__lookupSetter__"].

Definition is_native (k : string) : bool :=
  existsb (String.eqb k) (native_own ++ native_inherited).

(** [Type.hasOwnProperty(k)] *)
Definition hasOwnProperty (st : store) (k : string) : bool :=
  match types st !! k with
  | Some _ => true
  | None => existsb (String.eqb k) native_own
  end.

(** [Type[k]]: a registered type, [undefined], or a value that is not a
    type and that the embedding does not follow. *)
Definition read (k : string) : M tval :=
  fun st =>
    match types st !! k with
    | Some t => (Ret (VType t), st)
    | None => if is_native k then (OutOfModel, st) else (Ret VUndefined, st)
    end.

(** [Type[k] = t].  Overwriting a built-in property of the constructor is
    not followed. *)
Definition write (k : string) (t : Ty) : M unit :=
  fun st =>
    if is_native k then (OutOfModel, st)
    else (Ret tt, Store (<[k := t]> (types st)) (envs st) (next_oid st)).

(** The value of [Type.null], as [Type.Class.equals] reads it. *)
Definition Tnull (st : store) : tval :=
  match types st !! "null" with
  | Some t => VType t
  | None => VUndefined
  end.

End Registry.

(** *** TypeEnvironment.js *)

Module TypeEnvironment.

(** [new TypeEnvironment(record, parent)] *)
Definition new (record : gmap string tval) (parent : option nat) : M nat :=
  fun st =>
    (Ret (List.length (envs st)),
     Store (types st) (envs st ++ [Frame record parent]) (next_oid st)).

(** [obj[key] = v] on a record object created by an object literal: the
    key [__proto__] reaches the setter inherited from [Object.prototype]
    and creates no own property. *)
Definition assign (key : string) (v : tval) (record : gmap string tval)
    : gmap string tval :=
  if String.eqb key "__proto__" then record else <[key := v]> record.

(** [define(name, type_)]: writes the local record, returns [type_]. *)
Definition define (env : nat) (name : string) (type_ : tval) : M tval :=
  fun st =>
    match envs st !! env with
    | Some fr =>
        (Ret type_,
         Store (types st)
               (<[env := Frame (assign name type_ (record fr)) (parent fr)]>
                  (envs st))
               (next_oid st))
    | None => (OutOfModel, st)
    end.

(** [lookup(name)]: [this.record.hasOwnProperty(name)] decides; the
    [parent] field is not read.  The method [hasOwnProperty] is itself
    looked up on the record, so a variable of that name makes the call
    fail. *)
Definition lookup (env : nat) (name : string) : M tval :=
  fun st =>
    match envs st !! env with
    | Some fr =>
        match record fr !! "hasOwnProperty" with
        | Some _ => (Throw JsTypeError, st)
        | None =>
            match record fr !! name with
            | Some v => (Ret v, st)
            | None => (Throw (UndefinedName name), st)
            end
        end
    | None => (OutOfModel, st)
    end.

(** [resolve(name)]: the body is empty, the call returns [undefined]. *)
Definition resolve (env : nat) (name : string) : M (option nat) :=
  ret None.

End TypeEnvironment.


(** *** Type.fromString and Type.Function.fromString *)

(** [Type.Function.fromString(typeStr)], given the method that its calls
    [Type.fromString(...)] reach. *)
Definition Function_fromString (fromString : sexp -> M Ty) (typeStr : sexp)
    : M Ty :=
  let key := toString typeStr in
  st <- get ;;
  if Registry.hasOwnProperty st key then
    v <- Registry.read key ;;
    match v with VType t => ret t | VUndefined => out_of_model end
  else
    match re_fn_params key with
    | Some (returnTypeStr, paramsString) =>
        paramTypes <-
          mapM (fun param => fromString (SStr param))
               (split_comma_ws paramsString) ;;
        returnType <- fromString (SStr returnTypeStr) ;;
        match typeStr with
        | SStr name =>
            oid <- fresh_oid ;;
            let t := new_Function oid (Some name) paramTypes returnType in
            Registry.write key t ;; ret t
        | _ => out_of_model
        end
    | None =>
        match re_fn_noparams key with
        | Some returnTypeStr =>
            returnType <- fromString (SStr returnTypeStr) ;;
            match typeStr with
            | SStr name =>
                oid <- fresh_oid ;;
                let t := new_Function oid (Some name) [] returnType in
                Registry.write key t ;; ret t
            | _ => out_of_model
            end
        | None => throw (FunctionUnknownType key)
        end
    end.

(** [Type.fromString(typeStr)], given the method that its call
    [Type.Function.fromString(typeStr)] reaches. *)
Definition Type_fromString (Function_fromString : sexp -> M Ty)
    (typeStr : sexp) : M Ty :=
  let key := toString typeStr in
  st <- get ;;
  if Registry.hasOwnProperty st key then
    v <- Registry.read key ;;
    match v with VType t => ret t | VUndefined => out_of_model end
  else
    match typeStr with
    | SStr s =>
        if includes "Fn<" s then Function_fromString typeStr
        else throw (UnknownType key)
    | SList l =>
        (* Array.prototype.includes *)
        if existsb (fun x => is_str x "Fn<") l
        then Function_fromString typeStr
        else throw (UnknownType key)
    | _ =>
        (* typeStr.includes is not a function, or typeStr is undefined *)
        throw JsTypeError
    end.

(** The two static methods call each other.  [Type.Function.fromString]
    only passes on the pieces that its regular expressions captured, none
    of which contains [Fn<], so two levels are enough (see
    [fromString_no_fuel]). *)
Fixpoint fromStringF (fuel : nat) (typeStr : sexp) : M Ty :=
  match fuel with
  | 0 => out_of_fuel
  | S fuel => Type_fromString (Function_fromString (fromStringF fuel)) typeStr
  end.

Definition fromString (typeStr : sexp) : M Ty := fromStringF 2 typeStr.

(** The store once [Type.js] is loaded. *)
Definition Type_number : Ty := TPrim 0 "number".
Definition Type_string : Ty := TPrim 1 "string".
Definition Type_boolean : Ty := TPrim 2 "boolean".
Definition Type_null : Ty := TPrim 3 "null".
Definition Type_any : Ty := TPrim 4 "any".

Definition initial_store : store :=
  Store (<["number" := Type_number]>
         (<["string" := Type_string]>
          (<["boolean" := Type_boolean]>
           (<["null" := Type_null]>
            (<["any" := Type_any]> ∅)))))
        []
        5.


(** ** EvaTC.js *)

Module EvaTC.

(** *** Destructuring *)

Definition chars (s : string) : list sexp :=
  map (fun c => SStr (String c EmptyString)) (list_ascii_of_string s).

(** The elements that [[x0, ..., ...rest] = e] iterates over: arrays and
    strings are iterable, nothing else in an expression tree is. *)
Definition elements (e : sexp) : res (list sexp) :=
  match e with
  | SList l => Ret l
  | SStr s => Ret (chars s)
  | _ => Throw JsTypeError
  end.

(** [[a, b] = e] *)
Definition destructure2 (e : sexp) : res (sexp * sexp) :=
  l ← elements e; Ret (nth 0 l SUndef, nth 1 l SUndef).

(** *** Predicates on expressions *)

Definition _isNumber (exp : sexp) : bool :=
  match exp with SNum _ => true | _ => false end.

Definition _isString (exp : sexp) : bool :=
  match exp with
  | SStr s => is_str (charAt s 0) dquote && String.eqb (str_last s) dquote
  | _ => false
  end.

Definition _isBoolean (exp : sexp) : bool :=
  match exp with
  | SBool _ => true
  | _ => is_str exp "true" || is_str exp "false"
  end.

Definition _isBinary (exp : sexp) : bool :=
  re_binary_op (toString (idx exp 0)).

Definition _isBooleanBinary (exp : sexp) : bool :=
  let op := idx exp 0 in
  is_str op "==" || is_str op "!=" || is_str op ">=" || is_str op "<="
  || is_str op ">" || is_str op "<".

Definition _isVariableName (exp : sexp) : bool :=
  match exp with SStr s => re_variable_name s | _ => false end.

Definition _isGenericLambdaFunction (exp : sexp) : bool :=
  Nat.eqb (len exp) 6 && bool_decide (is_Some (re_angle (toString (idx exp 1)))).

Definition _isGenericDefFunction (exp : sexp) : bool :=
  Nat.eqb (len exp) 7 && bool_decide (is_Some (re_angle (toString (idx exp 2)))).

Definition _transformDefToVarLambda (exp : sexp) : sexp :=
  if _isGenericDefFunction exp then
    SList [SStr "var"; idx exp 1;
           SList [SStr "lambda"; idx exp 2; idx exp 3; idx exp 4;
                  idx exp 5; idx exp 6]]
  else
    SList [SStr "var"; idx exp 1;
           SList [SStr "lambda"; idx exp 2; idx exp 3; idx exp 4; idx exp 5]].

(** [const [op, lhs] = condition; return op === '==' && lhs[0] === 'typeof'] *)
Definition _isTypeCastCondition (condition : sexp) : res bool :=
  '(op, lhs) ← destructure2 condition;
  if is_str op "==" then
    match lhs with
    | SUndef => Throw JsTypeError
    | _ => Ret (is_str (idx lhs 0) "typeof")
    end
  else Ret false.

(** [x.slice(1, -1)] on an element of the expression tree. *)
Definition slice_1_m1 (x : sexp) : res sexp :=
  match x with
  | SStr s => Ret (SStr (str_slice_1_m1 s))
  | SList l => Ret (SList (list_slice_1_m1 l))
  | _ => Throw JsTypeError
  end.

(** [const [_op, [_typeof, name], specificType] = condition;
     return [name, specificType.slice(1, -1)]] *)
Definition _getSpecifiedType (condition : sexp) : res (sexp * sexp) :=
  '(_, lhs) ← destructure2 condition;
  '(_, name) ← destructure2 lhs;
  l ← elements condition;
  specificType ← slice_1_m1 (nth 2 l SUndef);
  Ret (name, specificType).

(** *** Reading the singletons *)

(** [Type.number], [Type.string], [Type.boolean], [Type.any]: property
    reads on the constructor, at the time of the call. *)
Definition Type_static (k : string) : M tval :=
  fun st =>
    (Ret (match types st !! k with
          | Some t => VType t
          | None => VUndefined
          end), st).

(** *** Errors and expectations *)

Definition is_generic (v : tval) : bool :=
  match v with VType t => isGenericFunction t | VUndefined => false end.

(** [_throw]: the message interpolates both types.  The [toString] of a
    generic function returns its [name], an object, which cannot be made a
    string. *)
Definition _throw {A} (actualType expectedType : tval) : M A :=
  if is_generic expectedType || is_generic actualType then throw JsTypeError
  else throw TypeMismatch.

Definition _expect (actualType expectedType : tval) : M tval :=
  match actualType with
  | VUndefined => throw JsTypeError
  | VType a =>
      st <- get ;;
      b <- lift (equals_val (Registry.Tnull st) a expectedType) ;;
      if b : bool then ret actualType else _throw actualType expectedType
  end.

Definition _checkArity (exp : sexp) (arity : nat) : M unit :=
  if negb (Nat.eqb (len exp - 1) arity) then throw OperatorArity else ret tt.

(** *** Operand types of the operators *)

(** [_getOperandTypesForOperator(operator)]: the operand types allowed
    for an operator, read off the registry when the call is made.
    [None] is the default case of the [switch], which throws the message
    [Unknown operator: ...]. *)
Definition _getOperandTypesForOperator (operator : sexp)
    : option (M (list tval)) :=
  if is_str operator "+" then
    Some (string <- Type_static "string" ;;
          number <- Type_static "number" ;;
          ret [string; number])
  else if is_str operator "-" then
    Some (number <- Type_static "number" ;; ret [number])
  else if is_str operator "/" then
    Some (number <- Type_static "number" ;; ret [number])
  else if is_str operator "*" then
    Some (number <- Type_static "number" ;; ret [number])
  else None.

(** [allowedTypes.some(t => t.equals(type_))] *)
Definition some_allowed (Tnull : tval) (type_ : tval)
    (allowedTypes : list tval) : res bool :=
  some (fun t => match t with
                 | VType t' => equals_val Tnull t' type_
                 | VUndefined => Throw JsTypeError
                 end) allowedTypes.

(** [_expectOperatorType(type_, allowedTypes, exp)].  The message of the
    [throw] interpolates [type], an identifier that is bound nowhere, so
    what is thrown is the runtime's [ReferenceError]. *)
Definition _expectOperatorType (type_ : tval) (allowedTypes : list tval)
    : M unit :=
  st <- get ;;
  let Tnull := Registry.Tnull st in
  done <- lift (match type_ with
                | VType (TUnion _ _ optionTypes as u) =>
                    (* type_.includesAll(allowedTypes) *)
                    if negb (Nat.eqb (List.length allowedTypes)
                                     (List.length optionTypes))
                    then Ret false
                    else every (equals_val Tnull u) allowedTypes
                | _ => some_allowed Tnull type_ allowedTypes
                end) ;;
  if done : bool then ret tt
  else
    b <- lift (some_allowed Tnull type_ allowedTypes) ;;
    if negb b then throw (JsReferenceError "type") else ret tt.

(** *** Function calls *)

(** The body of the [forEach] of [_checkFunctionCall], over the arguments
    and the parameters at the same index. *)
Fixpoint check_arguments (argTypes : list tval) (paramTypes : list Ty)
    : M unit :=
  match argTypes, paramTypes with
  | argType :: args, paramType :: params =>
      any <- Type_static "any" ;;
      (if same_value paramType any then ret VUndefined
       else _expect argType (VType paramType)) ;;
      check_arguments args params
  | _, _ => ret tt
  end.

Definition _checkFunctionCall (fn : tval) (argTypes : list tval) : M tval :=
  match fn with
  | VType (TFunction _ _ paramTypes returnType) =>
      if negb (Nat.eqb (List.length paramTypes) (List.length argTypes))
      then throw ArityMismatch
      else check_arguments argTypes paramTypes ;; ret (VType returnType)
  | _ =>
      (* fn.paramTypes is undefined, or fn is *)
      throw JsTypeError
  end.

(** [classType.getField(name)]: only [Type.Class] has the method. *)
Definition getField (instanceType : tval) (name : sexp) : M tval :=
  match instanceType with
  | VType (TClass _ _ _ env) => TypeEnvironment.lookup env (toString name)
  | _ => throw JsTypeError
  end.

(** *** Generic functions *)

(** [fn.genericTypes], [fn.params], [fn.returnType], [fn.body], [fn.env]
    on an instance of [Type.GenericFunction]: the class declares no
    constructor, so the instance has none of these fields. *)
Definition generic_genericTypes (fn : Ty) : option (list string) := None.
Definition generic_params (fn : Ty) : sexp := SUndef.
Definition generic_returnType (fn : Ty) : sexp := SUndef.
Definition generic_body (fn : Ty) : sexp := SUndef.
Definition generic_env (fn : Ty) : option nat := None.

Definition _extractActulCallTypes (exp : sexp) : res (list string) :=
  match re_angle (toString (idx exp 1)) with
  | None => Throw MissingGenericActualTypes
  | Some data => Ret (split_comma data)
  end.

(** The [Map] from generic names to actual types; a missing actual type
    is [undefined]. *)
Fixpoint bind_generic (genericTypes actualType : list string)
    (boundTypes : gmap string sexp) : gmap string sexp :=
  match genericTypes with
  | [] => boundTypes
  | g :: gs =>
      bind_generic gs (tail actualType)
        (<[g := match actualType with a :: _ => SStr a | [] => SUndef end]>
           boundTypes)
  end.

Definition _getGenericTypesMap (genericTypes : option (list string))
    (actualType : list string) : res (gmap string sexp) :=
  match genericTypes with
  | None => Throw JsTypeError       (* genericTypes.length *)
  | Some gs => Ret (bind_generic gs actualType ∅)
  end.

(** [genericTypesMap.has(x) ? genericTypesMap.get(x) : x] *)
Definition bound (genericTypesMap : gmap string sexp) (x : sexp) : sexp :=
  match x with
  | SStr s => match genericTypesMap !! s with Some a => a | None => x end
  | _ => x
  end.

Definition _bindFunctionTypes (params returnType : sexp)
    (genericTypesMap : gmap string sexp) : res (sexp * sexp) :=
  match params with
  | SUndef => Throw JsTypeError     (* params.length *)
  | _ =>
      actualParams ←
        (fix go (i n : nat) : res (list sexp) :=
           match n with
           | 0 => Ret []
           | S n =>
               '(paramName, paramType) ← destructure2 (idx params i);
               rest ← go (S i) n;
               Ret (SList [paramName; bound genericTypesMap paramType] :: rest)
           end) 0 (len params);
      Ret (SList actualParams, bound genericTypesMap returnType)
  end.

(** *** The checker *)

Section Checker.

(** The recursive calls [this.tc(exp, env)]. *)
Variable tc : sexp -> nat -> M tval.

Definition _tcBlock (block : sexp) (env : nat) : M tval :=
  l <- lift (elements block) ;;
  (fix forEach (expressions : list sexp) (result : tval) : M tval :=
     match expressions with
     | [] => ret result
     | exp :: rest => r <- tc exp env ;; forEach rest r
     end) (skipn 1 l) VUndefined.

Definition _tcBody (body : sexp) (env : nat) : M tval :=
  match body with
  | SUndef => throw JsTypeError   (* body[0] *)
  | _ =>
      if is_str (idx body 0) "begin" then _tcBlock body env
      else tc body env
  end.

(** The [forEach] of [_tcFunction]: fills the record of the parameters
    and the list of their types. *)
Fixpoint bind_params (params : list sexp) (paramsRecord : gmap string tval)
    (paramTypes : list Ty) : M (gmap string tval * list Ty) :=
  match params with
  | [] => ret (paramsRecord, paramTypes)
  | p :: rest =>
      d <- lift (destructure2 p) ;;
      paramType <- fromString (snd d) ;;
      bind_params rest
        (TypeEnvironment.assign (toString (fst d)) (VType paramType)
                                paramsRecord)
        (paramTypes ++ [paramType])
  end.

Definition _tcFunction (params returnTypeStr body : sexp) (env : option nat)
    : M tval :=
  returnType <- fromString returnTypeStr ;;
  match params with
  | SList ps =>
      pr <- bind_params ps ∅ [] ;;
      fnEnv <- TypeEnvironment.new (fst pr) env ;;
      actualReturnType <- _tcBody body fnEnv ;;
      st <- get ;;
      b <- lift (equals_val (Registry.Tnull st) returnType actualReturnType) ;;
      if b : bool then
        oid <- fresh_oid ;;
        ret (VType (new_Function oid None (snd pr) returnType))
      else if is_generic actualReturnType then throw JsTypeError
      else throw ReturnTypeMismatch
  | _ => throw JsTypeError        (* params.forEach *)
  end.

Definition _createSimpleFunctionType (exp : sexp) (env : nat) : M tval :=
  _tcFunction (idx exp 1) (idx exp 3) (idx exp 4) (Some env).

Definition _createGenericFunctionType (exp : sexp) (env : nat) : M tval :=
  genericTypesStr <- lift (slice_1_m1 (idx exp 1)) ;;
  oid <- fresh_oid ;;
  ret (VType (TGenericFunction oid genericTypesStr (idx exp 2) (idx exp 5)
                               (idx exp 4) env)).

Definition _binary (exp : sexp) (env : nat) : M tval :=
  _checkArity exp 2 ;;
  t1 <- tc (idx exp 1) env ;;
  t2 <- tc (idx exp 2) env ;;
  _expect t2 t1.

Definition _booleanBinary (exp : sexp) (env : nat) : M tval :=
  _checkArity exp 2 ;;
  t1 <- tc (idx exp 1) env ;;
  t2 <- tc (idx exp 2) env ;;
  _expect t2 t1 ;;
  Type_static "boolean".

(** [new Type.Class({name, superClass = Type.null})] *)
Definition new_Class (name : sexp) (superClass : tval) : M Ty :=
  null <- Type_static "null" ;;
  match (match superClass with VUndefined => null | _ => superClass end) with
  | VUndefined => out_of_model
  | VType super =>
      env <- TypeEnvironment.new ∅
               (if negb (same_value super null)
                then match super with
                     | TClass _ _ _ e => Some e
                     | _ => None
                     end
                else None) ;;
      match name with
      | SStr n => oid <- fresh_oid ;; ret (TClass oid n super env)
      | _ => out_of_model
      end
  end.

(** (type <name> <base>) *)
Definition tc_type (exp : sexp) : M tval :=
  let name := idx exp 1 in
  let base := idx exp 2 in
  match base with
  | SUndef => throw JsTypeError   (* base[0] *)
  | _ =>
      if is_str (idx base 0) "or" then
        optionTypes <- mapM fromString
                         (match base with SList l => skipn 1 l | _ => [] end) ;;
        match name with
        | SStr n =>
            oid <- fresh_oid ;;
            let t := TUnion oid n optionTypes in
            Registry.write n t ;; ret (VType t)
        | _ => out_of_model
        end
      else
        st <- get ;;
        if Registry.hasOwnProperty st (toString name)
        then
          (* the message interpolates Type[name] *)
          match types st !! toString name with
          | Some t =>
              if isGenericFunction t then throw JsTypeError
              else throw (DuplicateTypeDeclaration (toString name))
          | None => throw (DuplicateTypeDeclaration (toString name))
          end
        else if negb (Registry.hasOwnProperty st (toString base))
        then throw (UnknownBaseType (toString base))
        else
          parent <- Registry.read (toString base) ;;
          match name, parent with
          | SStr n, VType p =>
              oid <- fresh_oid ;;
              let t := TAlias oid n p in
              Registry.write n t ;; ret (VType t)
          | _, _ => out_of_model
          end
  end.

(** (class <Name> <Super> <Body>) *)
Definition tc_class (exp : sexp) (env : nat) : M tval :=
  let name := idx exp 1 in
  superClass <- Registry.read (toString (idx exp 2)) ;;
  classType <- new_Class name superClass ;;
  TypeEnvironment.define env (toString name) (VType classType) ;;
  Registry.write (toString name) classType ;;
  _tcBody (idx exp 3)
          (match classType with TClass _ _ _ e => e | _ => 0 end) ;;
  ret (VType classType).

(** (new <Class> <Arguments>...) *)
Definition tc_new (exp : sexp) (env : nat) : M tval :=
  classType <- Registry.read (toString (idx exp 1)) ;;
  match classType with
  | VUndefined => throw (JsReferenceError "name")
  | VType _ =>
      argTypes <- mapM (fun arg => tc arg env)
                    (match exp with SList l => skipn 2 l | _ => [] end) ;;
      constructor <- getField classType (SStr "constructor") ;;
      _checkFunctionCall constructor (classType :: argTypes)
  end.

(** (super <ClassName>) *)
Definition tc_super (exp : sexp) : M tval :=
  classType <- Registry.read (toString (idx exp 1)) ;;
  match classType with
  | VUndefined => throw (JsReferenceError "name")
  | VType (TClass _ _ superClass _) => ret (VType superClass)
  | VType _ => ret VUndefined
  end.

(** (prop <instance> <name>) *)
Definition tc_prop (exp : sexp) (env : nat) : M tval :=
  instanceType <- tc (idx exp 1) env ;;
  getField instanceType (idx exp 2).

(** (var <name> <value>), (var (<name> <type>) <value>) *)
Definition tc_var (exp : sexp) (env : nat) : M tval :=
  let name := idx exp 1 in
  valueType <- tc (idx exp 2) env ;;
  match name with
  | SList l =>
      expectedType <- fromString (nth 1 l SUndef) ;;
      _expect valueType (VType expectedType) ;;
      TypeEnvironment.define env (toString (nth 0 l SUndef))
                             (VType expectedType)
  | _ => TypeEnvironment.define env (toString name) valueType
  end.

(** (set <ref> <value>) *)
Definition tc_set (exp : sexp) (env : nat) : M tval :=
  let ref := idx exp 1 in
  let value := idx exp 2 in
  match ref with
  | SUndef => throw JsTypeError   (* ref[0] *)
  | _ =>
      if is_str (idx ref 0) "prop" then
        instanceType <- tc (idx ref 1) env ;;
        valueType <- tc value env ;;
        propType <- getField instanceType (idx ref 2) ;;
        _expect valueType propType
      else
        valueType <- tc value env ;;
        varType <- tc ref env ;;
        _expect valueType varType
  end.

(** (begin <expressions>...) *)
Definition tc_begin (exp : sexp) (env : nat) : M tval :=
  blockEnv <- TypeEnvironment.new ∅ (Some env) ;;
  _tcBlock exp blockEnv.

(** The environment of the consequent part of an if-expression. *)
Definition consequent_env (condition : sexp) (env : nat) : M nat :=
  cast <- lift (_isTypeCastCondition condition) ;;
  if cast : bool then
    ns <- lift (_getSpecifiedType condition) ;;
    t <- fromString (snd ns) ;;
    TypeEnvironment.new {[ toString (fst ns) := VType t ]} (Some env)
  else ret env.

(** (if <condition> <consequent> <alternate>) *)
Definition tc_if (exp : sexp) (env : nat) : M tval :=
  let condition := idx exp 1 in
  t1 <- tc condition env ;;
  boolean <- Type_static "boolean" ;;
  _expect t1 boolean ;;
  consequentEnv <- consequent_env condition env ;;
  t2 <- tc (idx exp 2) consequentEnv ;;
  t3 <- tc (idx exp 3) env ;;
  _expect t3 t2.

(** (while <condition> <body>) *)
Definition tc_while (exp : sexp) (env : nat) : M tval :=
  t1 <- tc (idx exp 1) env ;;
  boolean <- Type_static "boolean" ;;
  _expect t1 boolean ;;
  tc (idx exp 2) env.

(** (def <name> <params> -> <returnType> <body>), and its generic form *)
Definition tc_def (exp : sexp) (env : nat) : M tval :=
  let varExp := _transformDefToVarLambda exp in
  (if negb (_isGenericDefFunction exp) then
     match idx exp 2 with
     | SList params =>
         paramTypes <-
           mapM (fun p => d <- lift (destructure2 p) ;; fromString (snd d))
                params ;;
         returnType <- fromString (idx exp 4) ;;
         oid <- fresh_oid ;;
         TypeEnvironment.define env (toString (idx exp 1))
           (VType (new_Function oid None paramTypes returnType))
     | _ => throw JsTypeError     (* params.map *)
     end
   else ret VUndefined) ;;
  tc varExp env.

(** (lambda <params> -> <returnType> <body>), and its generic form *)
Definition tc_lambda (exp : sexp) (env : nat) : M tval :=
  if _isGenericLambdaFunction exp then _createGenericFunctionType exp env
  else _createSimpleFunctionType exp env.

(** (<fn> <args>...) *)
Definition tc_call (exp : sexp) (env : nat) : M tval :=
  fn <- tc (idx exp 0) env ;;
  let args (n : nat) := match exp with SList l => skipn n l | _ => [] end in
  if is_generic fn then
    let g := match fn with VType t => t | VUndefined => Type_null end in
    actualTypes <- lift (_extractActulCallTypes exp) ;;
    genericTypesMap <-
      lift (_getGenericTypesMap (generic_genericTypes g) actualTypes) ;;
    b <- lift (_bindFunctionTypes (generic_params g) (generic_returnType g)
                                  genericTypesMap) ;;
    actualFn <- _tcFunction (fst b) (snd b) (generic_body g) (generic_env g) ;;
    argTypes <- mapM (fun arg => tc arg env) (args 2) ;;
    _checkFunctionCall actualFn argTypes
  else
    argTypes <- mapM (fun arg => tc arg env) (args 1) ;;
    _checkFunctionCall fn argTypes.

(** The body of [tc(exp, env)]. *)
Definition tc_body (exp : sexp) (env : nat) : M tval :=
  if _isNumber exp then Type_static "number"
  else if _isString exp then Type_static "string"
  else if _isBoolean exp then Type_static "boolean"
  else
    match exp with
    | SUndef => throw JsTypeError (* exp[0] *)
    | _ =>
        let tag := idx exp 0 in
        if _isBinary exp then _binary exp env
        else if _isBooleanBinary exp then _booleanBinary exp env
        else if is_str tag "type" then tc_type exp
        else if is_str tag "class" then tc_class exp env
        else if is_str tag "new" then tc_new exp env
        else if is_str tag "super" then tc_super exp
        else if is_str tag "prop" then tc_prop exp env
        else if is_str tag "var" then tc_var exp env
        else if _isVariableName exp
             then TypeEnvironment.lookup env (toString exp)
        else if is_str tag "set" then tc_set exp env
        else if is_str tag "begin" then tc_begin exp env
        else if is_str tag "if" then tc_if exp env
        else if is_str tag "while" then tc_while exp env
        else if is_str tag "def" then tc_def exp env
        else if is_str tag "lambda" then tc_lambda exp env
        else if isArray exp then tc_call exp env
        else throw UnknownExpression
    end.

End Checker.

(** [tc(exp, env)]: the recursion is bounded by [fuel]. *)
Fixpoint tc (fuel : nat) (exp : sexp) (env : nat) : M tval :=
  match fuel with
  | 0 => out_of_fuel
  | S fuel => tc_body (tc fuel) exp env
  end.

(** [_createGlobal()] *)
Definition _createGlobal : M nat :=
  VERSION <- Type_static "string" ;;
  sum <- fromString (SStr "Fn<number<number,number>>") ;;
  square <- fromString (SStr "Fn<number<number>>") ;;
  typeof <- fromString (SStr "Fn<string<any>>") ;;
  TypeEnvironment.new
    (<["VERSION" := VERSION]>
       (<["sum" := VType sum]>
          (<["square" := VType square]>
             (<["typeof" := VType typeof]> ∅))))
    None.

(** [new EvaTC()]: the address of [this.global]. *)
Definition constructor : M nat := _createGlobal.

(** [tcGlobal(exp)] on a checker whose global environment is [global]. *)
Definition tcGlobal (fuel : nat) (global : nat) (exp : sexp) : M tval :=
  _tcBody (tc fuel) exp global.

(** A fresh process: [Type.js] is loaded, one checker is created and
    [tcGlobal(exp)] is called on it. *)
Definition exec (fuel : nat) (exp : sexp) : res tval * store :=
  (global <- constructor ;; tcGlobal fuel global exp) initial_store.

Definition run (fuel : nat) (exp : sexp) : res tval := fst (exec fuel exp).

End EvaTC.


(** ** Auxiliary definitions for the statements *)

(** Sum of the sizes of a list of types, as [ty_size] computes it. *)
Definition sizes : list Ty -> nat :=
  fix sum (l : list Ty) : nat :=
    match l with [] => 0 | x :: l' => ty_size x + sum l' end.

(** [m2] agrees with [m1] wherever [m1] completes within its recursion
    bound. *)
Definition refines {A} (m1 m2 : M A) : Prop :=
  forall st, fst (m1 st) <> OutOfFuel -> m2 st = m1 st.

(** *** Programs used in the statements *)

Module Programs.

#[local] Coercion SStr : string >-> sexp.
#[local] Coercion SNum : Z >-> sexp.

(** An array of the expression tree. *)
Notation "'sx[' x ; .. ; y ]" :=
  (SList (@cons sexp x .. (@cons sexp y (@nil sexp)) ..))
  (at level 0, format "sx[ x ;  .. ;  y ]").

(** A string literal of the language: the atom keeps its quotes. *)
Definition quoted (s : string) : sexp := SStr (dquote ++ s ++ dquote).

(** (def fact ((n number)) -> number
      (if (== n 0) 1 ( * n (fact (- n 1))))) *)
Definition fact_def : sexp :=
  sx["def"; "fact"; sx[sx["n"; "number"]]; "->"; "number";
     sx["if"; sx["=="; "n"; 0%Z]; 1%Z;
        sx["*"; "n"; sx["fact"; sx["-"; "n"; 1%Z]]]]].

(** (def id <T> ((x T)) -> T x) *)
Definition id_def : sexp :=
  sx["def"; "id"; "<T>"; sx[sx["x"; "T"]]; "->"; "T"; "x"].

(** (begin (def id ...) (id <number> 5)) *)
Definition id_number : sexp :=
  sx["begin"; id_def; sx["id"; "<number>"; 5%Z]].

(** (begin (def id ...) (id <string> "a")) *)
Definition id_string : sexp :=
  sx["begin"; id_def; sx["id"; "<string>"; quoted "a"]].

(** (begin (def id ...) (id 5)) *)
Definition id_bare : sexp :=
  sx["begin"; id_def; sx["id"; 5%Z]].

(** (begin (var x 1) (begin x)) *)
Definition nested_block : sexp :=
  sx["begin"; sx["var"; "x"; 1%Z]; sx["begin"; "x"]].

(** (var (f number) square) *)
Definition function_as_number : sexp :=
  sx["var"; sx["f"; "number"]; "square"].

(** (begin (type NumOrStr (or number string))
           (type NumNum (or number number))) *)
Definition declare_unions : sexp :=
  sx["begin";
     sx["type"; "NumOrStr"; sx["or"; "number"; "string"]];
     sx["type"; "NumNum"; sx["or"; "number"; "number"]]].

(** (begin (class Point null (begin))
           (type PointOrNum (or Point number))) *)
Definition declare_class_union : sexp :=
  sx["begin";
     sx["class"; "Point"; "null"; sx["begin"]];
     sx["type"; "PointOrNum"; sx["or"; "Point"; "number"]]].

(** (type Callback (or Fn<number> number)) *)
Definition declare_callback : sexp :=
  sx["type"; "Callback"; sx["or"; "Fn<number>"; "number"]].

(** (begin (type Callback (or Fn<number> number)) (var (x Callback) 5)) *)
Definition number_as_callback : sexp :=
  sx["begin"; declare_callback; sx["var"; sx["x"; "Callback"]; 5%Z]].

(** (type int number) *)
Definition declare_int : sexp := sx["type"; "int"; "number"].

(** (begin (type int number) (var (x int) 5) (square x)) *)
Definition int_where_number : sexp :=
  sx["begin"; declare_int; sx["var"; sx["x"; "int"]; 5%Z];
     sx["square"; "x"]].

(** (begin (type int number) (def inc ((n int)) -> number n) (inc 5)) *)
Definition number_where_int : sexp :=
  sx["begin"; declare_int;
     sx["def"; "inc"; sx[sx["n"; "int"]]; "->"; "number"; "n"];
     sx["inc"; 5%Z]].

(** (== (typeof <name>) "<T>"): the shape of a narrowing condition *)
Definition typeof_condition (name T : string) : sexp :=
  sx["=="; sx["typeof"; name]; quoted T].

(** (if <condition> <consequent> <alternate>) *)
Definition if_exp (condition consequent alternate : sexp) : sexp :=
  sx["if"; condition; consequent; alternate].

(** (begin (var x "hello") (var qnumberq "s")) *)
Definition declare_x_and_q : sexp :=
  sx["begin"; sx["var"; "x"; quoted "hello"];
     sx["var"; "qnumberq"; quoted "s"]].

(** (== (typeof x) qnumberq): the third element is a variable *)
Definition loose_condition : sexp :=
  sx["=="; sx["typeof"; "x"]; "qnumberq"].

(** (+ x 1) *)
Definition x_plus_1 : sexp := sx["+"; "x"; 1%Z].

(** (begin (var x "hello") (var qnumberq "s")
           (if (== (typeof x) qnumberq) (+ x 1) 2)) *)
Definition loose_narrowing : sexp :=
  sx["begin"; sx["var"; "x"; quoted "hello"];
     sx["var"; "qnumberq"; quoted "s"];
     if_exp loose_condition x_plus_1 2%Z].

(** (begin (type NumOrStr (or number string)) (var (x NumOrStr) 5)
           (if (== (typeof x) "string") (+ x "a") "b")) *)
Definition union_narrowing : sexp :=
  sx["begin";
     sx["type"; "NumOrStr"; sx["or"; "number"; "string"]];
     sx["var"; sx["x"; "NumOrStr"]; 5%Z];
     if_exp (typeof_condition "x" "string")
            sx["+"; "x"; quoted "a"] (quoted "b")].

(** (type number (or string boolean)) *)
Definition redeclare_number_as_union : sexp :=
  sx["type"; "number"; sx["or"; "string"; "boolean"]].

(** (class string null (begin)) *)
Definition redeclare_string_as_class : sexp :=
  sx["class"; "string"; "null"; sx["begin"]].

(** (type number string) *)
Definition redeclare_number_as_alias : sexp :=
  sx["type"; "number"; "string"].

(** (typeof 5) *)
Definition typeof_5 : sexp := sx["typeof"; 5%Z].

(** (square "a") *)
Definition square_of_string : sexp := sx["square"; quoted "a"].

(** (square 1 2) *)
Definition square_of_two : sexp := sx["square"; 1%Z; 2%Z].

(** (type any (or number string)) *)
Definition redeclare_any_as_union : sexp :=
  sx["type"; "any"; sx["or"; "number"; "string"]].

(** (begin (type any (or number string)) (typeof 5)) *)
Definition typeof_after_redeclaration : sexp :=
  sx["begin"; redeclare_any_as_union; typeof_5].

(** (begin (var x "a") (var y "b")) *)
Definition declare_x_and_y : sexp :=
  sx["begin"; sx["var"; "x"; quoted "a"]; sx["var"; "y"; quoted "b"]].

(** (== (typeof x) y): the result of [typeof] compared with a variable *)
Definition typeof_x_is_y : sexp := sx["=="; sx["typeof"; "x"]; "y"].

(** (begin (var x "a") (var y "b") (if (== (typeof x) y) 1 2)) *)
Definition compare_typeof_with_variable : sexp :=
  sx["begin"; sx["var"; "x"; quoted "a"]; sx["var"; "y"; quoted "b"];
     if_exp typeof_x_is_y 1%Z 2%Z].

End Programs.

(** The store of a fresh checker, whose global environment is at address
    0. *)
Definition fresh_store : store := snd (EvaTC.constructor initial_store).

(** An environment chain built with the constructor of
    [TypeEnvironment]: a scope that binds [x], and an empty child scope. *)
Definition lookup_in_child (name : string) : M tval :=
  outer <- TypeEnvironment.new {[ "x" := VType Type_number ]} None ;;
  inner <- TypeEnvironment.new ∅ (Some outer) ;;
  TypeEnvironment.lookup inner name.

Definition lookup_in_parent (name : string) : M tval :=
  outer <- TypeEnvironment.new {[ "x" := VType Type_number ]} None ;;
  inner <- TypeEnvironment.new ∅ (Some outer) ;;
  TypeEnvironment.lookup outer name.

(** [Type['Fn<number<number>>']], the type of [square] in the global
    environment of a fresh checker. *)
Definition Fn_number_number : Ty :=
  TFunction 6 (Some "Fn<number<number>>") [Type_number] Type_number.

(** The unions declared by [Programs.declare_unions]. *)
Definition NumOrStr : Ty := TUnion 8 "NumOrStr" [Type_number; Type_string].
Definition NumNum : Ty := TUnion 9 "NumNum" [Type_number; Type_number].

(** The class and the union declared by [Programs.declare_class_union]. *)
Definition Point : Ty := TClass 8 "Point" Type_null 1.
Definition PointOrNum : Ty := TUnion 9 "PointOrNum" [Point; Type_number].

(** [Type['Fn<string<any>>']], the type of [typeof] in the global
    environment of a fresh checker. *)
Definition Fn_string_any : Ty :=
  TFunction 7 (Some "Fn<string<any>>") [Type_any] Type_string.

(** The function type and the union declared by
    [Programs.declare_callback]. *)
Definition Fn_number : Ty := TFunction 8 (Some "Fn<number>") [] Type_number.
Definition Callback : Ty := TUnion 9 "Callback" [Fn_number; Type_number].

(** Instances of [Type] itself and of [Type.GenericFunction]: the classes
    that use [Type.prototype.equals]. *)
Definition isPlain (t : Ty) : bool :=
  match t with
  | TPrim _ _ | TGenericFunction _ _ _ _ _ _ => true
  | _ => false
  end.

Definition isClass (t : Ty) : bool :=
  match t with TClass _ _ _ _ => true | _ => false end.

(** Nesting depth of an expression: the characters of a string count as
    its elements. *)
Fixpoint height (e : sexp) : nat :=
  match e with
  | SList l =>
      S ((fix mx (l : list sexp) : nat :=
            match l with [] => 0 | x :: l' => Nat.max (height x) (mx l') end) l)
  | SStr s => if Nat.leb (String.length s) 1 then 1 else 2
  | _ => 0
  end.

Definition heights : list sexp -> nat :=
  fix mx (l : list sexp) : nat :=
    match l with [] => 0 | x :: l' => Nat.max (height x) (mx l') end.

Definition enough_fuel (e : sexp) : nat := 3 * height e + 1.

(** A computation that does not reach the recursion bound. *)
Definition completes {A} (m : M A) : Prop :=
  forall st, fst (m st) <> OutOfFuel.

(** Characters other than [<]. *)
Definition no_angle (c : ascii) : bool := negb (Ascii.eqb c "<").

(** A result that is neither a return nor an exception. *)
Definition abnormal (bad : res bool) : Prop :=
  (forall b, Ret b <> bad) /\ (forall e, Throw e <> bad).

(** A chain of aliases over [base]: the head of the list is the outermost
    alias. *)
Definition alias_chain (l : list (nat * string)) (base : Ty) : Ty :=
  fold_right (fun '(o, n) t => TAlias o n t) base l.

(** The value of [Type.any], as [_checkFunctionCall] reads it. *)
Definition Tany (st : store) : tval :=
  match types st !! "any" with
  | Some t => VType t
  | None => VUndefined
  end.

(** What [_checkFunctionCall] asks of an argument type against the
    parameter type at the same position: the parameter is the object
    [Type.any], or the argument type answers [true] to
    [equals(parameter)]. *)
Definition accepts (st : store) (argType : tval) (paramType : Ty) : Prop :=
  same_value paramType (Tany st) = true
  \/ exists a, argType = VType a
               /\ equals (Registry.Tnull st) a paramType = Ret true.

(** The store after [(type int number)]: the alias is a new object,
    registered under its name. *)
Definition int_alias (st : store) : Ty :=
  TAlias (next_oid st) "int" Type_number.

Definition with_int (st : store) : store :=
  Store (<["int" := int_alias st]> (types st)) (envs st) (S (next_oid st)).

(** The rule of [if] with both branches in the environment [env]. *)
Definition tc_if_plain (tc : sexp -> nat -> M tval)
    (condition consequent alternate : sexp) (env : nat) : M tval :=
  t1 <- tc condition env ;;
  boolean <- EvaTC.Type_static "boolean" ;;
  EvaTC._expect t1 boolean ;;
  t2 <- tc consequent env ;;
  t3 <- tc alternate env ;;
  EvaTC._expect t3 t2.

(** The rule of [if] with narrowing: the consequent part is checked in a
    new environment whose record binds [name] to the type that
    [Type.fromString] returns for [typeStr], and whose parent is [env];
    the alternate part is checked in [env]. *)
Definition tc_if_narrowed (tc : sexp -> nat -> M tval)
    (condition consequent alternate : sexp) (env : nat)
    (name : string) (typeStr : sexp) : M tval :=
  t1 <- tc condition env ;;
  boolean <- EvaTC.Type_static "boolean" ;;
  EvaTC._expect t1 boolean ;;
  consequentEnv <- (t <- fromString typeStr ;;
                    TypeEnvironment.new {[ name := VType t ]} (Some env)) ;;
  t2 <- tc consequent consequentEnv ;;
  t3 <- tc alternate env ;;
  EvaTC._expect t3 t2.

(** The store after [x] and [qnumberq] were declared as strings on a fresh
    checker. *)
Definition store_x_and_q : store :=
  snd (EvaTC.exec 2 Programs.declare_x_and_q).

(** The store after [x] and [y] were declared as strings on a fresh
    checker. *)
Definition store_x_and_y : store :=
  snd (EvaTC.exec 2 Programs.declare_x_and_y).

(** What the two redeclarations of [Programs] leave in the registry. *)
Definition number_union : Ty := TUnion 8 "number" [Type_string; Type_boolean].
Definition string_class : Ty := TClass 8 "string" Type_null 1.

(** What [Programs.redeclare_any_as_union] leaves in [Type.any]. *)
Definition any_union : Ty := TUnion 8 "any" [Type_number; Type_string].

(** *** Definitions for the further properties *)

(** **** Equality *)

(** A type with no instance of [Type.Function] in it. *)
Fixpoint function_free (t : Ty) : bool :=
  match t with
  | TPrim _ _ | TGenericFunction _ _ _ _ _ _ => true
  | TFunction _ _ _ _ => false
  | TAlias _ _ p => function_free p
  | TClass _ _ s _ => function_free s
  | TUnion _ _ opts => forallb function_free opts
  end.

(** A result of [equals] that is not an exception other than the
    runtime's [TypeError]. *)
Definition boolean_or_TypeError (r : res bool) : Prop :=
  match r with
  | Throw e => e = JsTypeError
  | _ => True
  end.

(** A result of [equals] that is a boolean, if the call was not cut
    short. *)
Definition boolean_if_any (r : res bool) : Prop :=
  match r with
  | Throw _ | OutOfModel => False
  | _ => True
  end.

(** What the parts of a type are: those that [equals] can call. *)
Definition parts_closed (Q : Ty -> Prop) : Prop :=
  (forall o n ps r, Q (TFunction o n ps r) ->
                    (forall p, In p ps -> Q p) /\ Q r)
  /\ (forall o n p, Q (TAlias o n p) -> Q p)
  /\ (forall o n s e, Q (TClass o n s e) -> Q s)
  /\ (forall o n opts, Q (TUnion o n opts) -> forall x, In x opts -> Q x).

(** **** Classes and unions *)

(** A chain of classes over [base]: the head of the list is the most
    derived class; each entry gives the identity, the name and the
    environment of a class whose superclass is the rest of the chain. *)
Definition class_chain (l : list (nat * string * nat)) (base : Ty) : Ty :=
  fold_right (fun '(o, n, e) s => TClass o n s e) base l.

(** Instances of [Type] itself, given by identity and name. *)
Definition prim (x : nat * string) : Ty := TPrim (fst x) (snd x).

(** Whether a primitive named [n] is among [l]. *)
Definition has_name (l : list (nat * string)) (n : string) : bool :=
  existsb (fun x => String.eqb (snd x) n) l.

(** **** Type.fromString *)

(** The store after [Type[key] = t] for a type [t] that was just
    created. *)
Definition registered (key : string) (t : Ty) (st : store) : store :=
  Store (<[key := t]> (types st)) (envs st) (S (next_oid st)).

(** What [Type.fromString] may change: the registry entry of [key], and
    the count of the objects created. *)
Definition registers_at_most (key : string) (st st' : store) : Prop :=
  envs st' = envs st
  /\ (forall k, k <> key -> types st' !! k = types st !! k)
  /\ next_oid st <= next_oid st'.

(** The part of [Type.Function.fromString] that follows the registry
    check. *)
Definition parse_Fn (typeStr : sexp) : M Ty :=
  let key := toString typeStr in
  match re_fn_params key with
  | Some (returnTypeStr, paramsString) =>
      paramTypes <-
        mapM (fun param => fromStringF 1 (SStr param))
             (split_comma_ws paramsString) ;;
      returnType <- fromStringF 1 (SStr returnTypeStr) ;;
      match typeStr with
      | SStr name =>
          oid <- fresh_oid ;;
          let t := new_Function oid (Some name) paramTypes returnType in
          Registry.write key t ;; ret t
      | _ => out_of_model
      end
  | None =>
      match re_fn_noparams key with
      | Some returnTypeStr =>
          returnType <- fromStringF 1 (SStr returnTypeStr) ;;
          match typeStr with
          | SStr name =>
              oid <- fresh_oid ;;
              let t := new_Function oid (Some name) [] returnType in
              Registry.write key t ;; ret t
          | _ => out_of_model
          end
      | None => throw (FunctionUnknownType key)
      end
  end.

(** The ways [Type.Function.fromString] ends once the string is known
    not to be registered: nothing changes and no type is returned, or a
    new function type named by the string is registered under it. *)
Definition parse_Fn_outcome (typeStr : sexp) (st : store)
    (out : res Ty * store) : Prop :=
  match out with
  | (Ret t, st') =>
      exists ps rt,
        t = TFunction (next_oid st) (Some (toString typeStr)) ps rt
        /\ st' = registered (toString typeStr) t st
  | (_, st') => st' = st
  end.

(** **** Function type strings *)

(** The return type name and the parameter type names that
    [Type.Function.fromString] reads off a string: the groups captured by
    its two regular expressions, the parameters split at [/,\s*/]. *)
Definition signature_of (s : string) : option (string * list string) :=
  match re_fn_params s with
  | Some (returnTypeStr, paramsString) =>
      Some (returnTypeStr, split_comma_ws paramsString)
  | None =>
      match re_fn_noparams s with
      | Some returnTypeStr => Some (returnTypeStr, [])
      | None => None
      end
  end.

(** The characters left in a parameter type name: [[a-z\s]]. *)
Definition is_piece_char (c : ascii) : bool := is_lower c || is_space c.

(** **** References *)

(** A string that [tc] takes for a variable reference: it matches the
    pattern of [_isVariableName], it is not a boolean literal, and its
    first character does not make it an operator expression. *)
Definition is_reference (x : string) : bool :=
  re_variable_name x
  && negb (String.eqb x "true") && negb (String.eqb x "false")
  && match x with
     | String c _ =>
         negb (existsb (Ascii.eqb c) ["+"; "-"; "*"; "/"; "<"; ">"]%char)
     | EmptyString => false
     end.

(** **** The global environment *)

(** The global environment of a fresh checker. *)
Definition global_frame : frame :=
  Frame (<["VERSION" := VType Type_string]>
           (<["sum" := VType (TFunction 5 (Some "Fn<number<number,number>>")
                                [Type_number; Type_number] Type_number)]>
              (<["square" := VType Fn_number_number]>
                 (<["typeof" := VType Fn_string_any]> ∅))))
        None.

(** **** Operators *)

(** The operators of [_isBinary] and of [_isBooleanBinary]. *)
Definition arithmetic_operators : list string := ["+"; "-"; "*"; "/"].

Definition comparison_operators : list string :=
  ["=="; "!="; ">="; "<="; ">"; "<"].

(** **** Generic parameters *)

(** A parameter [(name type)] of a function declaration. *)
Definition param (p : sexp * sexp) : sexp := SList [fst p; snd p].

(** The parameter with its type looked up among the bound generic
    types. *)
Definition bound_param (m : gmap string sexp) (p : sexp * sexp) : sexp :=
  SList [fst p; EvaTC.bound m (snd p)].

(** The actual type at position [i], as [actualType[i]] reads it. *)
Definition actual_at (actualType : list string) (i : nat) : sexp :=
  match actualType !! i with
  | Some a => SStr a
  | None => SUndef
  end.

(** The loop of [_bindFunctionTypes], from index [i], for [n] more
    parameters. *)
Fixpoint bind_from (params : sexp) (m : gmap string sexp) (i n : nat)
    : res (list sexp) :=
  match n with
  | 0 => Ret []
  | S n =>
      '(paramName, paramType) ← EvaTC.destructure2 (idx params i);
      rest ← bind_from params m (S i) n;
      Ret (SList [paramName; EvaTC.bound m paramType] :: rest)
  end.

(** **** What a check may change *)

(** An environment after more definitions: the parent is the same and no
    name has gone. *)
Definition frame_grows (fr fr' : frame) : Prop :=
  parent fr' = parent fr
  /\ forall k, is_Some (record fr !! k) -> is_Some (record fr' !! k).

(** What checking an expression in the environment [env] may do to the
    store, [n0] being a number of environments that existed before:
    every environment is still there, with the same parent and at least
    the same names; those among the first [n0] other than [env] are
    exactly as they were; every registered type name is still
    registered. *)
Definition extends (n0 env : nat) (st st' : store) : Prop :=
  (forall e fr, envs st !! e = Some fr ->
     exists fr', envs st' !! e = Some fr' /\ frame_grows fr fr')
  /\ (forall e, e < n0 -> e <> env -> envs st' !! e = envs st !! e)
  /\ (forall k, is_Some (types st !! k) -> is_Some (types st' !! k)).

Definition modifies (n0 env : nat) {A} (m : M A) : Prop :=
  forall st, n0 <= List.length (envs st) -> extends n0 env st (snd (m st)).

(** A computation that leaves the store as it is. *)
Definition pure {A} (m : M A) : Prop := forall st, snd (m st) = st.

(** The induction hypothesis on [tc]. *)
Definition scoped (f : sexp -> nat -> M tval) : Prop :=
  forall exp env st,
    extends (List.length (envs st)) env st (snd (f exp env st)).

(** The environment of a class. *)
Definition class_env (t : Ty) : nat :=
  match t with TClass _ _ _ e => e | _ => 0 end.

(** A store with the global environment and one nested scope. *)
Definition two_scopes : store :=
  snd (TypeEnvironment.new ∅ (Some 0) fresh_store).

(** * Theorems *)

(** ** Termination of the equality protocol *)

Section EqualityFacts.

Variable Tnull : tval.

Lemma some_ext {A} (f g : A -> res bool) (l : list A) :
  (forall x, In x l -> f x = g x) -> some f l = some g l.
Proof.
  induction l as [|x l IH]; intros H; simpl; [reflexivity|].
  rewrite (H x (or_introl eq_refl)).
  destruct (g x) as [[|]| | |]; simpl; try reflexivity.
  apply IH. intros y Hy. apply H. now right.
Qed.

Lemma every_ext {A} (f g : A -> res bool) (l : list A) :
  (forall x, In x l -> f x = g x) -> every f l = every g l.
Proof.
  induction l as [|x l IH]; intros H; simpl; [reflexivity|].
  rewrite (H x (or_introl eq_refl)).
  destruct (g x) as [[|]| | |]; simpl; try reflexivity.
  apply IH. intros y Hy. apply H. now right.
Qed.

Lemma pairwise_ext {A} (f g : A -> A -> res bool) (l1 l2 : list A) :
  (forall x y, In x l1 -> In y l2 -> f x y = g x y) ->
  pairwise f l1 l2 = pairwise g l1 l2.
Proof.
  revert l2. induction l1 as [|x l1 IH]; intros [|y l2] H; simpl;
    try reflexivity.
  rewrite (H x y (or_introl eq_refl) (or_introl eq_refl)).
  destruct (g x y) as [[|]| | |]; simpl; try reflexivity.
  apply IH. intros a b Ha Hb. apply H; now right.
Qed.

Lemma some_avoids {A} (bad : res bool) (f : A -> res bool) (l : list A) :
  abnormal bad ->
  (forall x, In x l -> f x <> bad) -> some f l <> bad.
Proof.
  intros [Hb He]. induction l as [|x l IH]; intros H; simpl; [apply Hb|].
  pose proof (H x (or_introl eq_refl)) as Hx.
  destruct (f x) as [[|]| | |]; simpl; try apply Hb; try apply He;
    try exact Hx.
  apply IH. intros y Hy. apply H. now right.
Qed.

Lemma every_avoids {A} (bad : res bool) (f : A -> res bool) (l : list A) :
  abnormal bad ->
  (forall x, In x l -> f x <> bad) -> every f l <> bad.
Proof.
  intros [Hb He]. induction l as [|x l IH]; intros H; simpl; [apply Hb|].
  pose proof (H x (or_introl eq_refl)) as Hx.
  destruct (f x) as [[|]| | |]; simpl; try apply Hb; try apply He;
    try exact Hx.
  apply IH. intros y Hy. apply H. now right.
Qed.

Lemma pairwise_avoids {A} (bad : res bool) (f : A -> A -> res bool)
    (l1 l2 : list A) :
  abnormal bad ->
  (forall x y, In x l1 -> In y l2 -> f x y <> bad) ->
  pairwise f l1 l2 <> bad.
Proof.
  intros [Hb He]. revert l2.
  induction l1 as [|x l1 IH]; intros [|y l2] H; simpl; try apply Hb.
  pose proof (H x y (or_introl eq_refl) (or_introl eq_refl)) as Hx.
  destruct (f x y) as [[|]| | |]; simpl; try apply Hb; try apply He;
    try exact Hx.
  apply IH. intros a b Ha Hb'. apply H; now right.
Qed.

Lemma ty_size_pos (t : Ty) : 1 <= ty_size t.
Proof. destruct t; simpl; lia. Qed.

Lemma sizes_In (x : Ty) (l : list Ty) : In x l -> ty_size x <= sizes l.
Proof.
  induction l as [|y l IH]; simpl; [tauto|].
  intros [->|H]; [lia|]. specialize (IH H). lia.
Qed.

Lemma ty_size_Function o n ps r :
  ty_size (TFunction o n ps r) = S (sizes ps + ty_size r).
Proof. reflexivity. Qed.

Lemma ty_size_Union o n opts : ty_size (TUnion o n opts) = S (sizes opts).
Proof. reflexivity. Qed.

Lemma rank_le (t o : Ty) : rank t o <= 2 * (ty_size t + ty_size o) + 1.
Proof. unfold rank. destruct (swaps t o); lia. Qed.

Lemma rank_ge (t o : Ty) : 2 * (ty_size t + ty_size o) <= rank t o.
Proof. unfold rank. lia. Qed.

(** Every call made by a method is on a pair of smaller rank. *)
Lemma dispatch_ext (f g : Ty -> Ty -> res bool) (t o : Ty) :
  (forall t' o', rank t' o' < rank t o -> f t' o' = g t' o') ->
  dispatch Tnull f t o = dispatch Tnull g t o.
Proof.
  intros H.
  assert (Hswap : swaps t o = true -> swaps o t = false ->
                  f o t = g o t).
  { intros H1 H2. apply H. unfold rank. rewrite H1, H2. lia. }
  assert (Hsub : forall t' o', ty_size t' + ty_size o' < ty_size t + ty_size o ->
                          f t' o' = g t' o').
  { intros t' o' Hlt. apply H.
    pose proof (rank_le t' o'). pose proof (rank_ge t o). lia. }
  destruct t as [oid n|oid n ps r|oid n p|oid n s e|oid n opts|oid a b c d e];
    simpl.
  - unfold Type_equals.
    destruct o; simpl in *; try reflexivity; apply Hswap; reflexivity.
  - unfold Function_equals. destruct o as [| o' n' ops oret | | | |];
      try reflexivity.
    destruct (negb _); [reflexivity|].
    rewrite (pairwise_ext f g ps ops).
    + destruct (pairwise g ps ops) as [[|]| | |]; simpl; try reflexivity.
      rewrite Hsub; [reflexivity|].
      rewrite !ty_size_Function. lia.
    + intros x y Hx Hy. apply Hsub. rewrite !ty_size_Function.
      pose proof (sizes_In _ _ Hx). pose proof (sizes_In _ _ Hy). lia.
  - unfold Alias_equals. destruct (name_eq _ _); [reflexivity|].
    apply Hsub. simpl. lia.
  - unfold Class_equals. destruct (same_object _ _); [reflexivity|].
    destruct (isAlias o) eqn:Ho.
    + apply Hswap; [exact Ho|]. destruct o; simpl in *; congruence.
    + destruct (negb _); [|reflexivity]. apply Hsub. simpl. lia.
  - unfold Union_equals. destruct (same_object _ _); [reflexivity|].
    destruct (isAlias o) eqn:Ho.
    + apply Hswap; [exact Ho|]. destruct o; simpl in *; congruence.
    + destruct o as [| | | |o' n' types|]; simpl in Ho; try discriminate;
        try (apply some_ext; intros x Hx; apply Hsub;
             rewrite ty_size_Union; pose proof (sizes_In _ _ Hx); lia).
      unfold Union_includesAll. destruct (negb _); [reflexivity|].
      apply every_ext. intros x Hx. apply Hsub.
      rewrite !ty_size_Union. pose proof (sizes_In _ _ Hx). lia.
  - unfold Type_equals.
    destruct o; simpl in *; try reflexivity; apply Hswap; reflexivity.
Qed.

Lemma dispatch_avoids (bad : res bool) (f : Ty -> Ty -> res bool)
    (t o : Ty) :
  abnormal bad ->
  (forall t' o', rank t' o' < rank t o -> f t' o' <> bad) ->
  dispatch Tnull f t o <> bad.
Proof.
  intros Hbad H. pose proof Hbad as [Hb He].
  assert (Hswap : swaps t o = true -> swaps o t = false -> f o t <> bad).
  { intros H1 H2. apply H. unfold rank. rewrite H1, H2. lia. }
  assert (Hsub : forall t' o', ty_size t' + ty_size o' < ty_size t + ty_size o ->
                          f t' o' <> bad).
  { intros t' o' Hlt. apply H.
    pose proof (rank_le t' o'). pose proof (rank_ge t o). lia. }
  destruct t as [oid n|oid n ps r|oid n p|oid n s e|oid n opts|oid a b c d e];
    simpl.
  - unfold Type_equals.
    destruct o; simpl in *; try apply Hb; apply Hswap; reflexivity.
  - unfold Function_equals. destruct o as [| o' n' ops oret | | | |];
      try apply He.
    destruct (negb _); [apply Hb|].
    assert (Hp : pairwise f ps ops <> bad).
    { apply pairwise_avoids; [exact Hbad|]. intros x y Hx Hy. apply Hsub.
      rewrite !ty_size_Function.
      pose proof (sizes_In _ _ Hx). pose proof (sizes_In _ _ Hy). lia. }
    destruct (pairwise f ps ops) as [[|]| | |]; simpl; try apply Hb;
      try apply He; try exact Hp.
    assert (Hr : f r oret <> bad).
    { apply Hsub. rewrite !ty_size_Function. lia. }
    destruct (f r oret) as [[|]| | |]; simpl; try apply Hb; try apply He;
      exact Hr.
  - unfold Alias_equals. destruct (name_eq _ _); [apply Hb|].
    apply Hsub. simpl. lia.
  - unfold Class_equals. destruct (same_object _ _); [apply Hb|].
    destruct (isAlias o) eqn:Ho.
    + apply Hswap; [exact Ho|]. destruct o; simpl in *; congruence.
    + destruct (negb _); [|apply Hb]. apply Hsub. simpl. lia.
  - unfold Union_equals. destruct (same_object _ _); [apply Hb|].
    destruct (isAlias o) eqn:Ho.
    + apply Hswap; [exact Ho|]. destruct o; simpl in *; congruence.
    + destruct o as [| | | |o' n' types|]; simpl in Ho; try discriminate;
        try (apply some_avoids; [exact Hbad|]; intros x Hx; apply Hsub;
             rewrite ty_size_Union; pose proof (sizes_In _ _ Hx); lia).
      unfold Union_includesAll. destruct (negb _); [apply Hb|].
      apply every_avoids; [exact Hbad|]. intros x Hx. apply Hsub.
      rewrite !ty_size_Union. pose proof (sizes_In _ _ Hx). lia.
  - unfold Type_equals.
    destruct o; simpl in *; try apply Hb; apply Hswap; reflexivity.
Qed.

Lemma abnormal_OutOfFuel : abnormal OutOfFuel.
Proof. split; discriminate. Qed.

Lemma abnormal_OutOfModel : abnormal OutOfModel.
Proof. split; discriminate. Qed.

(** With more calls than the rank, the count does not matter. *)
Lemma equalsF_stable (n m : nat) (t o : Ty) :
  rank t o < n -> rank t o < m ->
  equalsF Tnull n t o = equalsF Tnull m t o.
Proof.
  revert m t o. induction n as [|n IH]; intros m t o Hn Hm; [lia|].
  destruct m as [|m]; [lia|]. simpl.
  apply dispatch_ext. intros t' o' Hlt. apply IH; lia.
Qed.

Lemma equalsF_enough (n : nat) (t o : Ty) :
  rank t o < n -> equalsF Tnull n t o <> OutOfFuel.
Proof.
  revert t o. induction n as [|n IH]; intros t o Hn; [lia|]. simpl.
  apply dispatch_avoids; [apply abnormal_OutOfFuel|].
  intros t' o' Hlt. apply IH. lia.
Qed.

Lemma equalsF_modelled (n : nat) (t o : Ty) :
  equalsF Tnull n t o <> OutOfModel.
Proof.
  revert t o. induction n as [|n IH]; intros t o; [discriminate|]. simpl.
  apply dispatch_avoids; [apply abnormal_OutOfModel|].
  intros t' o' _. apply IH.
Qed.

(** [this.equals(other)] always completes: it returns or it throws. *)
Lemma equals_terminates (t o : Ty) : equals Tnull t o <> OutOfFuel.
Proof. apply equalsF_enough. unfold fuel_for. lia. Qed.

(** More precisely, it returns a boolean or throws. *)
Lemma equals_completes (t o : Ty) :
  (exists b, equals Tnull t o = Ret b)
  \/ (exists e, equals Tnull t o = Throw e).
Proof.
  pose proof (equals_terminates t o) as Hf.
  pose proof (equalsF_modelled (fuel_for t o) t o) as Hm.
  fold (equals Tnull t o) in Hm.
  destruct (equals Tnull t o) as [b|e| |]; [left|right| |]; eauto;
    congruence.
Qed.

(** [equals] is the method of the receiver, applied to [equals]. *)
Lemma equals_unfold (t o : Ty) :
  equals Tnull t o = dispatch Tnull (equals Tnull) t o.
Proof.
  unfold equals at 1, fuel_for. simpl.
  apply dispatch_ext. intros t' o' Hlt.
  apply equalsF_stable; unfold fuel_for; lia.
Qed.

End EqualityFacts.


(** ** The recursion bound of the checker

    A result obtained within some bound is the result for every larger
    bound. *)

Section Fuel.

Import EvaTC.

Lemma refines_refl {A} (m : M A) : refines m m.
Proof. intros st _. reflexivity. Qed.

Lemma refines_bind {A B} (m1 m2 : M A) (k1 k2 : A -> M B) :
  refines m1 m2 -> (forall a, refines (k1 a) (k2 a)) ->
  refines (bind m1 k1) (bind m2 k2).
Proof.
  intros Hm Hk st Hfin. unfold bind in *.
  assert (Hm1 : fst (m1 st) <> OutOfFuel).
  { destruct (m1 st) as [[a| e| |] st']; simpl in *; congruence. }
  rewrite (Hm st Hm1).
  destruct (m1 st) as [[a| e| |] st']; try reflexivity.
  apply Hk. exact Hfin.
Qed.

Lemma refines_mapM {A B} (f g : A -> M B) (l : list A) :
  (forall x, refines (f x) (g x)) -> refines (mapM f l) (mapM g l).
Proof.
  intros H. induction l as [|x l IH]; simpl; [apply refines_refl|].
  apply refines_bind; [apply H|]. intros y.
  apply refines_bind; [apply IH|]. intros ys. apply refines_refl.
Qed.

Section Body.

Variables f g : sexp -> nat -> M tval.
Hypothesis Hfg : forall e env, refines (f e env) (g e env).

Lemma _tcBlock_refines block env :
  refines (_tcBlock f block env) (_tcBlock g block env).
Proof.
  unfold _tcBlock. apply refines_bind; [apply refines_refl|]. intros l.
  generalize VUndefined. generalize (skipn 1 l). clear l.
  intros l. induction l as [|e l IH]; intros r; [apply refines_refl|].
  apply refines_bind; [apply Hfg|]. intros r'. apply IH.
Qed.

Lemma _tcBody_refines body env :
  refines (_tcBody f body env) (_tcBody g body env).
Proof.
  unfold _tcBody. destruct body; try apply refines_refl;
    (destruct (is_str _ _); [apply _tcBlock_refines | apply Hfg]).
Qed.

Lemma _tcFunction_refines params ret body env :
  refines (_tcFunction f params ret body env)
          (_tcFunction g params ret body env).
Proof.
  unfold _tcFunction.
  apply refines_bind; [apply refines_refl|]. intros rt.
  destruct params; try apply refines_refl.
  apply refines_bind; [apply refines_refl|]. intros pr.
  apply refines_bind; [apply refines_refl|]. intros fnEnv.
  apply refines_bind; [apply _tcBody_refines|]. intros t.
  apply refines_refl.
Qed.

Ltac mono_step :=
  first
    [ apply refines_refl
    | apply _tcBody_refines
    | apply _tcBlock_refines
    | apply _tcFunction_refines
    | apply Hfg
    | apply refines_bind; [|intros ?]
    | apply refines_mapM; intros ?
    | progress cbv beta zeta
    | match goal with
      | |- refines (match ?x with _ => _ end) (match ?x with _ => _ end) =>
          destruct x
      | |- refines (if ?b then _ else _) (if ?b then _ else _) =>
          destruct b
      end ].

Lemma tc_body_refines exp env :
  refines (tc_body f exp env) (tc_body g exp env).
Proof.
  unfold tc_body.
  destruct (_isNumber exp); [apply refines_refl|].
  destruct (_isString exp); [apply refines_refl|].
  destruct (_isBoolean exp); [apply refines_refl|].
  destruct exp as [|n|s|b|l]; try apply refines_refl;
    repeat match goal with
           | |- refines (if ?b then _ else _) (if ?b then _ else _) =>
               destruct b
           end;
    try apply refines_refl;
    cbv delta [_binary _booleanBinary tc_class tc_new tc_prop tc_var
               tc_set tc_begin tc_if tc_while tc_def tc_lambda tc_call
               _createGenericFunctionType _createSimpleFunctionType];
    cbv beta;
    repeat mono_step.
Qed.

End Body.

Lemma tc_S (n : nat) (exp : sexp) (env : nat) :
  refines (tc n exp env) (tc (S n) exp env).
Proof.
  revert exp env. induction n as [|n IH]; intros exp env.
  - intros st H. simpl in H. congruence.
  - change (refines (tc_body (tc n) exp env) (tc_body (tc (S n)) exp env)).
    apply tc_body_refines. exact IH.
Qed.

Lemma tc_mono (n m : nat) (exp : sexp) (env : nat) :
  n <= m -> refines (tc n exp env) (tc m exp env).
Proof.
  induction 1 as [|m Hle IH]; [apply refines_refl|].
  intros st H. rewrite <- (IH st H). apply tc_S. rewrite (IH st H). exact H.
Qed.

Lemma exec_mono (n m : nat) (exp : sexp) :
  n <= m -> fst (exec n exp) <> OutOfFuel -> exec m exp = exec n exp.
Proof.
  intros Hle. unfold exec.
  apply (refines_bind constructor constructor); [apply refines_refl|].
  intros global. unfold tcGlobal. apply _tcBody_refines.
  intros e env. apply tc_mono. exact Hle.
Qed.

Lemma run_mono (n m : nat) (exp : sexp) (r : res tval) :
  n <= m -> run n exp = r -> r <> OutOfFuel -> run m exp = r.
Proof.
  intros Hle Hr Hne. unfold run in *. rewrite (exec_mono n m exp Hle).
  - exact Hr.
  - rewrite Hr. exact Hne.
Qed.

End Fuel.




(** ** The bound of Type.fromString

    [Type.Function.fromString] passes to [Type.fromString] only pieces
    without [<], on which [Type.fromString] does not call back. *)

Section FromString.

Lemma prefix_Fn_angle (s : string) :
  String.prefix "Fn<" s = true ->
  exists rest, s = String "F" (String "n" (String "<" rest)).
Proof.
  destruct s as [|a [|b [|c rest]]]; cbn [String.prefix]; try discriminate;
    repeat match goal with
           | |- context [ascii_dec ?x ?y] =>
               destruct (ascii_dec x y); try discriminate; subst
           end; eauto.
Qed.

Lemma includes_Fn_no_angle (s : string) :
  str_forall no_angle s = true -> includes "Fn<" s = false.
Proof.
  induction s as [|c s IH]; intros H.
  - reflexivity.
  - cbn [includes].
    destruct (String.prefix "Fn<" (String c s)) eqn:Hp.
    + apply prefix_Fn_angle in Hp as [rest Hrest]. rewrite Hrest in H.
      simpl in H. discriminate H.
    + apply IH. simpl in H. apply andb_prop in H. tauto.
Qed.

Lemma span_forall (p : ascii -> bool) (s a b : string) :
  span p s = (a, b) -> str_forall p a = true.
Proof.
  revert a b. induction s as [|c s IH]; intros a b H; simpl in H.
  - injection H as <- <-. reflexivity.
  - destruct (p c) eqn:Hc.
    + destruct (span p s) as [a' b'] eqn:Hs. injection H as <- <-.
      simpl. rewrite Hc. apply (IH a' b'). reflexivity.
    + injection H as <- <-. reflexivity.
Qed.

Lemma str_forall_impl (p q : ascii -> bool) (s : string) :
  (forall c, p c = true -> q c = true) ->
  str_forall p s = true -> str_forall q s = true.
Proof.
  intros Hpq. induction s as [|c s IH]; simpl; [reflexivity|].
  intros H. apply andb_prop in H as [Hc Hs].
  rewrite (Hpq c Hc), (IH Hs). reflexivity.
Qed.

Lemma is_word_no_angle (c : ascii) : is_word c = true -> no_angle c = true.
Proof.
  unfold no_angle. destruct (Ascii.eqb_spec c "<") as [->|]; [|reflexivity].
  vm_compute. discriminate.
Qed.

Lemma is_param_char_no_angle (c : ascii) :
  is_param_char c = true -> no_angle c = true.
Proof.
  unfold no_angle. destruct (Ascii.eqb_spec c "<") as [->|]; [|reflexivity].
  vm_compute. discriminate.
Qed.

Lemma split_comma_ws_forall (p : ascii -> bool) (drop : bool) (s : string) :
  str_forall p s = true ->
  Forall (fun x => str_forall p x = true) (split_comma_ws_aux drop s).
Proof.
  revert drop. induction s as [|c s IH]; intros drop H; simpl.
  - constructor; [reflexivity | constructor].
  - simpl in H. apply andb_prop in H as [Hc Hs].
    destruct (Ascii.eqb c ",").
    + constructor; [reflexivity | apply IH, Hs].
    + destruct (drop && is_space c); [apply IH, Hs|].
      specialize (IH false Hs).
      destruct (split_comma_ws_aux false s) as [|hd tl].
      * constructor; [simpl; rewrite Hc; reflexivity | constructor].
      * inversion IH; subst. constructor; [|assumption].
        simpl. rewrite Hc. assumption.
Qed.

Ltac first_char c :=
  destruct c as [[] [] [] [] [] [] [] []]; try discriminate.

Lemma re_fn_params_no_angle (k ret ps : string) :
  re_fn_params k = Some (ret, ps) ->
  str_forall no_angle ret = true /\ str_forall no_angle ps = true.
Proof.
  unfold re_fn_params. intros H.
  destruct k as [|c1 k]; try discriminate. first_char c1.
  destruct k as [|c2 k]; try discriminate. first_char c2.
  destruct k as [|c3 k]; try discriminate. first_char c3.
  destruct (span is_word k) as [r tail] eqn:Hr.
  destruct tail as [|c4 rest2]; try discriminate. first_char c4.
  destruct (span is_param_char rest2) as [q tail2] eqn:Hq.
  destruct (_ && _); try discriminate. injection H as <- <-.
  split.
  - eapply str_forall_impl; [apply is_word_no_angle|].
    eapply span_forall; eassumption.
  - eapply str_forall_impl; [apply is_param_char_no_angle|].
    eapply span_forall; eassumption.
Qed.

Lemma re_fn_noparams_no_angle (k ret : string) :
  re_fn_noparams k = Some ret -> str_forall no_angle ret = true.
Proof.
  unfold re_fn_noparams. intros H.
  destruct k as [|c1 k]; try discriminate. first_char c1.
  destruct k as [|c2 k]; try discriminate. first_char c2.
  destruct k as [|c3 k]; try discriminate. first_char c3.
  destruct (span is_word k) as [r tail] eqn:Hr.
  destruct (_ && _); try discriminate. injection H as <-.
  eapply str_forall_impl; [apply is_word_no_angle|].
  eapply span_forall; eassumption.
Qed.

Lemma bind_completes {A B} (m : M A) (k : A -> M B) (st : store) :
  fst (m st) <> OutOfFuel ->
  (forall a st', fst (k a st') <> OutOfFuel) ->
  fst (bind m k st) <> OutOfFuel.
Proof.
  intros Hm Hk. unfold bind.
  destruct (m st) as [[a| e| |] st']; simpl in *;
    [apply Hk | discriminate | discriminate | congruence].
Qed.

Lemma mapM_completes {A B} (f : A -> M B) (l : list A) (st : store) :
  Forall (fun x => forall st', fst (f x st') <> OutOfFuel) l ->
  fst (mapM f l st) <> OutOfFuel.
Proof.
  revert st. induction l as [|x l IH]; intros st H; [discriminate|].
  inversion H as [|? ? Hx Hl]; subst. cbn [mapM].
  apply bind_completes; [apply Hx|]. intros y st1.
  apply bind_completes; [apply IH, Hl|]. intros ys st2. discriminate.
Qed.

Lemma registered_completes (key : string) (st : store) :
  fst ((v <- Registry.read key ;;
        match v with VType t => ret t | VUndefined => out_of_model end) st)
  <> OutOfFuel.
Proof.
  apply bind_completes.
  - unfold Registry.read. destruct (types st !! key); [discriminate|].
    destruct (Registry.is_native key); discriminate.
  - intros [t|] st'; discriminate.
Qed.

Lemma register_completes (key : string) (name : option string)
    (ps : list Ty) (r : Ty) (st : store) :
  fst ((oid <- fresh_oid ;;
        let t := new_Function oid name ps r in
        Registry.write key t ;; ret t) st) <> OutOfFuel.
Proof.
  apply bind_completes; [discriminate|]. intros oid st1. cbv zeta.
  apply bind_completes; [|discriminate].
  unfold Registry.write. destruct (Registry.is_native key); discriminate.
Qed.

(** [Type.fromString] completes when the calls to
    [Type.Function.fromString] that it can make do. *)
Lemma Type_fromString_completes (F : sexp -> M Ty) (typeStr : sexp)
    (st : store) :
  (forall st', (match typeStr with
                | SStr s => includes "Fn<" s = true
                | _ => True
                end) -> fst (F typeStr st') <> OutOfFuel) ->
  fst (Type_fromString F typeStr st) <> OutOfFuel.
Proof.
  intros HF. unfold Type_fromString. cbv zeta.
  apply bind_completes; [discriminate|]. intros st0 st'.
  destruct (Registry.hasOwnProperty st0 _); [apply registered_completes|].
  destruct typeStr as [|n|s|b|l]; try discriminate.
  - destruct (includes "Fn<" s) eqn:Hi; [apply HF; reflexivity | discriminate].
  - destruct (existsb _ l); [apply HF; exact I | discriminate].
Qed.

(** On a piece without [<], one level of [Type.fromString] is enough. *)
Lemma fromStringF_atom (s : string) (st : store) :
  str_forall no_angle s = true ->
  fst (fromStringF 1 (SStr s) st) <> OutOfFuel.
Proof.
  intros H. cbn [fromStringF]. apply Type_fromString_completes.
  cbn beta iota. rewrite (includes_Fn_no_angle s H). discriminate.
Qed.

Lemma Function_fromString_completes (typeStr : sexp) (st : store) :
  fst (Function_fromString (fromStringF 1) typeStr st) <> OutOfFuel.
Proof.
  unfold Function_fromString. cbv zeta.
  apply bind_completes; [discriminate|]. intros st0 st'.
  destruct (Registry.hasOwnProperty st0 _); [apply registered_completes|].
  destruct (re_fn_params _) as [[rs ps]|] eqn:Hre.
  - destruct (re_fn_params_no_angle _ rs ps Hre) as [Hrs Hps].
    apply bind_completes.
    + apply mapM_completes. unfold split_comma_ws.
      eapply Forall_impl;
        [apply (split_comma_ws_forall no_angle false ps Hps)|].
      intros x Hx st1. apply fromStringF_atom, Hx.
    + intros pts st1. apply bind_completes; [apply fromStringF_atom, Hrs|].
      intros rt st2. destruct typeStr; try discriminate.
      apply register_completes.
  - destruct (re_fn_noparams _) as [rs|] eqn:Hre2; [|discriminate].
    pose proof (re_fn_noparams_no_angle _ rs Hre2) as Hrs.
    apply bind_completes; [apply fromStringF_atom, Hrs|].
    intros rt st2. destruct typeStr; try discriminate.
    apply register_completes.
Qed.

(** [Type.fromString] never reaches the bound. *)
Lemma fromString_no_fuel (typeStr : sexp) (st : store) :
  fst (fromString typeStr st) <> OutOfFuel.
Proof.
  unfold fromString. cbn [fromStringF]. apply Type_fromString_completes.
  intros st' _. apply Function_fromString_completes.
Qed.

End FromString.

(** ** Termination of the checker

    [tc] completes on every expression, in every environment and store,
    once the bound exceeds three times the nesting depth. *)

Section CheckerTermination.

Import EvaTC.

Lemma height_SList l : height (SList l) = S (heights l).
Proof. reflexivity. Qed.

Lemma heights_In x l : In x l -> height x <= heights l.
Proof.
  induction l as [|y l IH]; simpl; [tauto|].
  intros [->|H]; [lia|]. specialize (IH H). lia.
Qed.

Lemma height_nth l i : height (nth i l SUndef) <= heights l.
Proof.
  revert i. induction l as [|y l IH]; intros [|i]; simpl; try lia.
  specialize (IH i). lia.
Qed.

Lemma height_charAt s i : height (charAt s i) <= 1.
Proof.
  unfold charAt. destruct (String.get i s); simpl; lia.
Qed.

Lemma get_S_length s i c : String.get (S i) s = Some c -> 2 <= String.length s.
Proof.
  destruct s as [|a [|b s]]; simpl; try discriminate; try lia.
Qed.

(** Reading an element never increases the height. *)
Lemma height_idx_le e i : height (idx e i) <= height e.
Proof.
  destruct e as [| | s | |l]; simpl; try lia.
  - unfold charAt. destruct (String.get i s) eqn:Hg; simpl; [|lia].
    destruct (String.length s <=? 1)%nat; lia.
  - pose proof (height_nth l i). fold heights. lia.
Qed.

(** Past the first position, it decreases it (on strings and arrays). *)
Lemma height_idx_S e i : 1 <= height e -> height (idx e (S i)) < height e.
Proof.
  destruct e as [| | s | |l]; simpl; try lia.
  - intros _. unfold charAt. destruct (String.get (S i) s) eqn:Hg; simpl.
    + apply get_S_length in Hg.
      destruct (Nat.leb_spec (String.length s) 1); lia.
    + destruct (String.length s <=? 1)%nat; lia.
  - intros _. pose proof (height_nth l (S i)). fold heights. lia.
Qed.

Lemma height_idx_list l i : height (idx (SList l) i) < height (SList l).
Proof. simpl. pose proof (height_nth l i). fold heights. lia. Qed.

(** *** Computations that do not reach the bound *)

Lemma completes_ret {A} (a : A) : completes (ret a).
Proof. intros st. discriminate. Qed.

Lemma completes_throw {A} (e : error) : completes (@throw A e).
Proof. intros st. discriminate. Qed.

Lemma completes_out_of_model {A} : completes (@out_of_model A).
Proof. intros st. discriminate. Qed.

Lemma completes_get : completes get.
Proof. intros st. discriminate. Qed.

Lemma completes_fresh_oid : completes fresh_oid.
Proof. intros st. discriminate. Qed.

Lemma completes_lift {A} (r : res A) : r <> OutOfFuel -> completes (lift r).
Proof. intros H st. exact H. Qed.

Lemma completes_bind {A B} (m : M A) (k : A -> M B) :
  completes m -> (forall a, completes (k a)) -> completes (bind m k).
Proof.
  intros Hm Hk st. apply bind_completes; [apply Hm|].
  intros a st'. apply Hk.
Qed.

Lemma completes_mapM {A B} (f : A -> M B) (l : list A) :
  (forall x, In x l -> completes (f x)) -> completes (mapM f l).
Proof.
  intros H st. apply mapM_completes.
  apply Forall_forall. intros x Hx. apply H.
  apply list_elem_of_In. exact Hx.
Qed.

Lemma completes_fromString (typeStr : sexp) : completes (fromString typeStr).
Proof. intros st. apply fromString_no_fuel. Qed.

Lemma completes_Type_static (k : string) : completes (Type_static k).
Proof. intros st. discriminate. Qed.

Lemma completes_read (k : string) : completes (Registry.read k).
Proof.
  intros st. unfold Registry.read. destruct (types st !! k); [discriminate|].
  destruct (Registry.is_native k); discriminate.
Qed.

Lemma completes_write (k : string) (t : Ty) : completes (Registry.write k t).
Proof.
  intros st. unfold Registry.write.
  destruct (Registry.is_native k); discriminate.
Qed.

Lemma completes_new (r : gmap string tval) (p : option nat) :
  completes (TypeEnvironment.new r p).
Proof. intros st. discriminate. Qed.

Lemma completes_define (env : nat) (name : string) (v : tval) :
  completes (TypeEnvironment.define env name v).
Proof.
  intros st. unfold TypeEnvironment.define.
  destruct (envs st !! env); discriminate.
Qed.

Lemma completes_lookup (env : nat) (name : string) :
  completes (TypeEnvironment.lookup env name).
Proof.
  intros st. unfold TypeEnvironment.lookup.
  destruct (envs st !! env) as [fr|]; [|discriminate].
  destruct (record fr !! "hasOwnProperty"); [discriminate|].
  destruct (record fr !! name); discriminate.
Qed.

Lemma res_bind_fuel {A B} (m : res A) (k : A -> res B) :
  m <> OutOfFuel -> (forall a, k a <> OutOfFuel) ->
  res_bind m k <> OutOfFuel.
Proof. intros Hm Hk. destruct m; simpl; auto; discriminate. Qed.

Lemma elements_fuel (e : sexp) : elements e <> OutOfFuel.
Proof. destruct e; discriminate. Qed.

Lemma destructure2_fuel (e : sexp) : destructure2 e <> OutOfFuel.
Proof.
  unfold destructure2. apply res_bind_fuel; [apply elements_fuel|].
  discriminate.
Qed.

Lemma slice_1_m1_fuel (e : sexp) : slice_1_m1 e <> OutOfFuel.
Proof. destruct e; discriminate. Qed.

Lemma _isTypeCastCondition_fuel (c : sexp) :
  _isTypeCastCondition c <> OutOfFuel.
Proof.
  unfold _isTypeCastCondition. apply res_bind_fuel; [apply destructure2_fuel|].
  intros [op lhs]. destruct (is_str op "=="); [|discriminate].
  destruct lhs; discriminate.
Qed.

Lemma _getSpecifiedType_fuel (c : sexp) : _getSpecifiedType c <> OutOfFuel.
Proof.
  unfold _getSpecifiedType.
  apply res_bind_fuel; [apply destructure2_fuel|]. intros [x lhs].
  apply res_bind_fuel; [apply destructure2_fuel|]. intros [y name].
  apply res_bind_fuel; [apply elements_fuel|]. intros l.
  apply res_bind_fuel; [apply slice_1_m1_fuel|]. discriminate.
Qed.

Lemma _extractActulCallTypes_fuel (e : sexp) :
  _extractActulCallTypes e <> OutOfFuel.
Proof. unfold _extractActulCallTypes. destruct (re_angle _); discriminate. Qed.

Lemma _getGenericTypesMap_fuel (g : option (list string)) (a : list string) :
  _getGenericTypesMap g a <> OutOfFuel.
Proof. destruct g; discriminate. Qed.

Lemma _bindFunctionTypes_fuel (params returnType : sexp)
    (m : gmap string sexp) :
  _bindFunctionTypes params returnType m <> OutOfFuel.
Proof.
  unfold _bindFunctionTypes.
  assert (H : forall n i,
             (fix go (i n : nat) : res (list sexp) :=
                match n with
                | 0 => Ret []
                | S n =>
                    '(paramName, paramType) ← destructure2 (idx params i);
                    rest ← go (S i) n;
                    Ret (SList [paramName; bound m paramType] :: rest)
                end) i n <> OutOfFuel).
  { induction n as [|n IH]; intros i; [discriminate|].
    apply res_bind_fuel; [apply destructure2_fuel|]. intros [a b].
    apply res_bind_fuel; [apply IH|]. discriminate. }
  destruct params; try discriminate;
    (apply res_bind_fuel; [apply H | discriminate]).
Qed.

Lemma equals_undefined_fuel (Tnull : tval) (t : Ty) :
  equals_undefined Tnull t <> OutOfFuel.
Proof.
  revert t. fix IH 1. intros [o n|o n ps r|o n p|o n s e|o n opts|o a b c d e];
    simpl; try discriminate.
  - destruct (negb _); [apply IH | discriminate].
  - induction opts as [|t opts IHo]; [discriminate|].
    pose proof (IH t) as Ht.
    destruct (equals_undefined Tnull t) as [[|]| | |]; try discriminate;
      congruence.
Qed.

Lemma equals_val_fuel (Tnull : tval) (t : Ty) (v : tval) :
  equals_val Tnull t v <> OutOfFuel.
Proof.
  destruct v; [apply equals_terminates | apply equals_undefined_fuel].
Qed.

Lemma completes__throw {A} (a e : tval) : completes (@_throw A a e).
Proof. unfold _throw. destruct (_ || _); apply completes_throw. Qed.

Lemma completes__expect (a e : tval) : completes (_expect a e).
Proof.
  unfold _expect. destruct a; [|apply completes_throw].
  apply completes_bind; [apply completes_get|]. intros st.
  apply completes_bind; [apply completes_lift, equals_val_fuel|].
  intros []; [apply completes_ret | apply completes__throw].
Qed.

Lemma completes__checkArity (exp : sexp) (n : nat) :
  completes (_checkArity exp n).
Proof.
  unfold _checkArity. destruct (negb _);
    [apply completes_throw | apply completes_ret].
Qed.

Lemma completes_check_arguments (args : list tval) (ps : list Ty) :
  completes (check_arguments args ps).
Proof.
  revert ps. induction args as [|a args IH]; intros [|p ps];
    try apply completes_ret.
  cbn [check_arguments].
  apply completes_bind; [apply completes_Type_static|]. intros any.
  apply completes_bind; [|intros _; apply IH].
  destruct (same_value p any); [apply completes_ret | apply completes__expect].
Qed.

Lemma completes__checkFunctionCall (fn : tval) (args : list tval) :
  completes (_checkFunctionCall fn args).
Proof.
  unfold _checkFunctionCall. destruct fn as [[]|]; try apply completes_throw.
  destruct (negb _); [apply completes_throw|].
  apply completes_bind; [apply completes_check_arguments|].
  intros _. apply completes_ret.
Qed.

Lemma completes_getField (t : tval) (name : sexp) : completes (getField t name).
Proof.
  unfold getField. destruct t as [[]|]; try apply completes_throw.
  apply completes_lookup.
Qed.

Lemma completes_bind_params (ps : list sexp) (r : gmap string tval)
    (ts : list Ty) :
  completes (bind_params ps r ts).
Proof.
  revert r ts. induction ps as [|p ps IH]; intros r ts;
    [apply completes_ret|].
  cbn [bind_params].
  apply completes_bind; [apply completes_lift, destructure2_fuel|]. intros d.
  apply completes_bind; [apply completes_fromString|]. intros t. apply IH.
Qed.

(** *** The checker *)

Lemma In_skipn {A} (k : nat) (l : list A) (x : A) :
  In x (skipn k l) -> In x l.
Proof.
  revert l. induction k as [|k IH]; intros [|a l] H; simpl in *; auto.
Qed.

Lemma height_chars (s : string) (x : sexp) : In x (chars s) -> height x = 1.
Proof.
  unfold chars. intros H. apply in_map_iff in H as (c & <- & _). reflexivity.
Qed.

Lemma chars_length (s : string) : List.length (chars s) = String.length s.
Proof.
  unfold chars. rewrite length_map.
  induction s as [|c s IH]; simpl; congruence.
Qed.

(** The expressions that a block or a destructuring goes through after
    the first one are lower than the whole. *)
Lemma elements_height (e : sexp) (l : list sexp) (x : sexp) :
  elements e = Ret l -> In x (skipn 1 l) -> height x < height e.
Proof.
  destruct e as [| |s| |l']; try discriminate; intros H Hx;
    injection H as <-.
  - pose proof (height_chars s x (In_skipn 1 _ _ Hx)) as Hh.
    assert (2 <= String.length s).
    { rewrite <- chars_length. destruct (chars s) as [|a [|b l]];
        simpl in *; try tauto; lia. }
    simpl. destruct (Nat.leb_spec (String.length s) 1); lia.
  - pose proof (heights_In x l' (In_skipn 1 _ _ Hx)).
    rewrite height_SList. lia.
Qed.

Lemma completes_bind_lift {A B} (r : res A) (k : A -> M B) :
  r <> OutOfFuel -> (forall a, r = Ret a -> completes (k a)) ->
  completes (bind (lift r) k).
Proof.
  intros Hr Hk st. unfold bind, lift.
  destruct r as [a|e| |]; try discriminate; [|congruence].
  apply (Hk a eq_refl).
Qed.

Section Body.

Variable f : sexp -> nat -> M tval.

Lemma completes_forEach (env : nat) (l : list sexp) (r : tval) :
  (forall x, In x l -> completes (f x env)) ->
  completes
    ((fix forEach (expressions : list sexp) (result : tval) : M tval :=
        match expressions with
        | [] => ret result
        | exp :: rest => r <- f exp env ;; forEach rest r
        end) l r).
Proof.
  revert r. induction l as [|x l IH]; intros r H; [apply completes_ret|].
  apply completes_bind; [apply H; left; reflexivity|].
  intros r'. apply IH. intros y Hy. apply H. right. exact Hy.
Qed.

Lemma completes__tcBlock (block : sexp) (env : nat) :
  (forall e' env', height e' < height block -> completes (f e' env')) ->
  completes (_tcBlock f block env).
Proof.
  intros Hf. unfold _tcBlock.
  apply completes_bind_lift; [apply elements_fuel|]. intros l Hl.
  apply completes_forEach. intros x Hx. apply Hf.
  apply (elements_height block l x Hl Hx).
Qed.

Lemma completes__tcBody (body : sexp) (env : nat) :
  (forall e' env', height e' <= height body -> completes (f e' env')) ->
  completes (_tcBody f body env).
Proof.
  intros Hf. unfold _tcBody. destruct body; try apply completes_throw;
    (destruct (is_str _ _);
     [apply completes__tcBlock; intros e' env' H; apply Hf; lia
     | apply Hf; lia]).
Qed.

Lemma completes__tcFunction (params rt body : sexp) (env : option nat) :
  (forall e' env', height e' <= height body -> completes (f e' env')) ->
  completes (_tcFunction f params rt body env).
Proof.
  intros Hf. unfold _tcFunction.
  apply completes_bind; [apply completes_fromString|]. intros t.
  destruct params; try apply completes_throw.
  apply completes_bind; [apply completes_bind_params|]. intros pr.
  apply completes_bind; [apply completes_new|]. intros fnEnv.
  apply completes_bind; [apply completes__tcBody, Hf|]. intros art.
  apply completes_bind; [apply completes_get|]. intros st.
  apply completes_bind; [apply completes_lift, equals_val_fuel|].
  intros [].
  - apply completes_bind; [apply completes_fresh_oid|]. intros o.
    apply completes_ret.
  - destruct (is_generic art); apply completes_throw.
Qed.

Create HintDb completes.

Hint Resolve completes_ret completes_throw completes_out_of_model
  completes_get completes_fresh_oid completes_fromString
  completes_Type_static completes_read completes_write completes_new
  completes_define completes_lookup completes__throw completes__expect
  completes__checkArity completes_check_arguments
  completes__checkFunctionCall completes_getField completes_bind_params
  : completes.

Ltac height_lt :=
  first
    [ apply height_idx_list
    | apply height_idx_S; simpl;
      repeat match goal with |- context [Nat.leb ?a ?b] =>
               destruct (Nat.leb a b) end; lia
    | eapply Nat.le_lt_trans; [apply height_idx_le|]; height_lt ].

Ltac back_to_idx :=
  repeat match goal with
         | E : idx _ _ = _ |- _ => rewrite <- E; clear E
         end.

Ltac sub_call Hsub :=
  first
    [ match goal with H : In _ [] |- _ => destruct H end
    | match goal with
      | H : In ?x (skipn _ ?l) |- completes (_ ?x _) =>
          apply Hsub; apply In_skipn in H; apply heights_In in H;
          rewrite height_SList; lia
      end
    | apply Hsub; height_lt
    | back_to_idx; apply Hsub; height_lt
    | apply completes__tcBody; intros ? ? ?; apply Hsub;
      eapply Nat.le_lt_trans; [eassumption|]; height_lt
    | apply completes__tcFunction; intros ? ? ?; apply Hsub;
      eapply Nat.le_lt_trans; [eassumption|]; height_lt
    | apply completes__tcFunction; intros ? ? ?; apply Hsub;
      eapply Nat.le_lt_trans; [eassumption|]; simpl; lia
    | apply completes__tcBlock; intros ? ? ?; apply Hsub;
      eapply Nat.lt_trans; [eassumption|]; height_lt
    | apply completes__tcBlock; intros ? ? ?; apply Hsub; assumption ].

Ltac comp Hsub :=
  repeat first
    [ solve [auto with completes]
    | apply completes_lift;
      first [ apply destructure2_fuel | apply elements_fuel
            | apply slice_1_m1_fuel | apply _isTypeCastCondition_fuel
            | apply _getSpecifiedType_fuel | apply _extractActulCallTypes_fuel
            | apply _getGenericTypesMap_fuel | apply _bindFunctionTypes_fuel
            | apply equals_val_fuel ]
    | sub_call Hsub
    | apply completes_mapM; intros ? ?
    | apply completes_bind; [|intros ?]
    | progress cbv beta zeta
    | match goal with
      | |- completes (match ?x with _ => _ end) => is_var x; destruct x
      | |- completes (match ?x with _ => _ end) =>
          let E := fresh "E" in destruct x eqn:E
      | |- completes (if ?b then _ else _) => destruct b
      end ].

Lemma completes_tc_body (exp : sexp) (env : nat) :
  (forall e' env', height e' < height exp -> completes (f e' env')) ->
  (is_str (idx exp 0) "def" = true ->
   forall env', completes (f (_transformDefToVarLambda exp) env')) ->
  completes (tc_body f exp env).
Proof.
  intros Hsub Hdef. unfold tc_body.
  destruct (_isNumber exp); [auto with completes|].
  destruct (_isString exp); [auto with completes|].
  destruct (_isBoolean exp); [auto with completes|].
  destruct exp as [|n|s|b|l]; try apply completes_throw; cbn [isArray];
    repeat match goal with
           | |- completes (if ?b then _ else _) => destruct b eqn:?
           end;
    try solve [auto with completes];
    cbv delta [_binary _booleanBinary tc_type tc_class tc_new tc_super
               tc_prop tc_var tc_set tc_begin tc_if tc_while tc_def
               tc_lambda tc_call consequent_env new_Class
               _createGenericFunctionType _createSimpleFunctionType];
    cbv beta.
  all: comp Hsub.
Qed.

(** The expression that [def] is rewritten to: a [var] whose value is a
    [lambda]; two calls of [tc] lead to the body. *)
Lemma completes_varExp (exp : sexp) (env : nat) :
  (forall e' env', height e' < height exp -> completes (f e' env')) ->
  1 <= height exp ->
  completes (tc_body (tc_body f) (_transformDefToVarLambda exp) env).
Proof.
  intros Hsub Hh.
  assert (Hlam : forall lam env',
             idx lam 4 = idx exp 5 ->
             completes (tc_lambda f lam env')).
  { intros lam env' H4. unfold tc_lambda.
    destruct (_isGenericLambdaFunction lam).
    - unfold _createGenericFunctionType.
      apply completes_bind; [apply completes_lift, slice_1_m1_fuel|].
      intros g. apply completes_bind; [apply completes_fresh_oid|].
      intros o. apply completes_ret.
    - unfold _createSimpleFunctionType. rewrite H4.
      apply completes__tcFunction. intros e' env'' Hle. apply Hsub.
      eapply Nat.le_lt_trans; [exact Hle|]. apply height_idx_S, Hh. }
  unfold _transformDefToVarLambda.
  destruct (_isGenericDefFunction exp).
  - change (completes
      (tc_var (tc_body f)
         (SList [SStr "var"; idx exp 1;
                 SList [SStr "lambda"; idx exp 2; idx exp 3; idx exp 4;
                        idx exp 5; idx exp 6]]) env)).
    unfold tc_var. cbn [idx nth].
    apply completes_bind.
    + change (completes
        (tc_lambda f
           (SList [SStr "lambda"; idx exp 2; idx exp 3; idx exp 4;
                   idx exp 5; idx exp 6]) env)).
      apply Hlam. reflexivity.
    + intros v. destruct (idx exp 1); auto with completes.
      apply completes_bind; [apply completes_fromString|]. intros t.
      apply completes_bind; [apply completes__expect|]. intros _.
      apply completes_define.
  - change (completes
      (tc_var (tc_body f)
         (SList [SStr "var"; idx exp 1;
                 SList [SStr "lambda"; idx exp 2; idx exp 3; idx exp 4;
                        idx exp 5]]) env)).
    unfold tc_var. cbn [idx nth].
    apply completes_bind.
    + change (completes
        (tc_lambda f
           (SList [SStr "lambda"; idx exp 2; idx exp 3; idx exp 4;
                   idx exp 5]) env)).
      apply Hlam. reflexivity.
    + intros v. destruct (idx exp 1); auto with completes.
      apply completes_bind; [apply completes_fromString|]. intros t.
      apply completes_bind; [apply completes__expect|]. intros _.
      apply completes_define.
Qed.

End Body.

Lemma height_of_tagged (exp : sexp) (tag : string) :
  is_str (idx exp 0) tag = true -> 1 <= height exp.
Proof.
  destruct exp as [| |s| |l]; simpl; try discriminate; intros _; [|lia].
  destruct (String.length s <=? 1)%nat; lia.
Qed.

(** Enough fuel for an expression: three calls per level of nesting (a
    [def] is checked through two rewritten expressions), and one. *)
Theorem tc_terminates (n : nat) (exp : sexp) (env : nat) :
  enough_fuel exp <= n -> completes (tc n exp env).
Proof.
  assert (H : forall n m exp env,
             m <= n -> enough_fuel exp <= m -> completes (tc m exp env)).
  { clear. induction n as [|n IH]; intros m exp env Hm Hfuel.
    - unfold enough_fuel in Hfuel. lia.
    - destruct m as [|m]; [unfold enough_fuel in Hfuel; lia|].
      cbn [tc]. apply completes_tc_body.
      + intros e' env' Hlt. apply (IH m); [lia|].
        unfold enough_fuel in *. lia.
      + intros Hdef env'. pose proof (height_of_tagged exp "def" Hdef) as Hh.
        unfold enough_fuel in Hfuel.
        destruct m as [|[|m]]; try lia.
        cbn [tc]. apply completes_varExp; [|exact Hh].
        intros e' env'' Hlt. apply (IH m); [lia|].
        unfold enough_fuel. lia. }
  intros Hn. apply (H n n exp env); [lia | exact Hn].
Qed.

(** A whole run of [tcGlobal] on a fresh checker completes as well. *)
Lemma exec_terminates (n : nat) (exp : sexp) :
  enough_fuel exp <= n -> fst (exec n exp) <> OutOfFuel.
Proof.
  intros Hn. unfold exec.
  apply (completes_bind constructor).
  - unfold constructor, _createGlobal.
    apply completes_bind; [apply completes_Type_static|]. intros v.
    apply completes_bind; [apply completes_fromString|]. intros t1.
    apply completes_bind; [apply completes_fromString|]. intros t2.
    apply completes_bind; [apply completes_fromString|]. intros t3.
    apply completes_new.
  - intros global. unfold tcGlobal. apply completes__tcBody.
    intros e' env' Hle. apply tc_terminates.
    unfold enough_fuel in *. lia.
Qed.

(** Hence the result of a run does not depend on the bound, once it is
    large enough for the expression. *)
Lemma exec_stable (n m : nat) (exp : sexp) :
  enough_fuel exp <= n -> enough_fuel exp <= m -> exec n exp = exec m exp.
Proof.
  intros Hn Hm. destruct (Nat.le_ge_cases n m) as [H|H].
  - symmetry. apply exec_mono; [exact H | apply exec_terminates, Hn].
  - apply exec_mono; [exact H | apply exec_terminates, Hm].
Qed.

End CheckerTermination.

(** ** TypeEnvironment.lookup (C1) and recursive definitions (C8) *)

Section Lookup.

Import EvaTC Programs.

(** [lookup] is decided by the own record of the environment it is
    called on, whatever the parent holds. *)
Lemma lookup_own_record_only (st : store) (env : nat) (fr : frame)
    (name : string) :
  envs st !! env = Some fr ->
  record fr !! "hasOwnProperty" = None ->
  TypeEnvironment.lookup env name st =
    (match record fr !! name with
     | Some v => Ret v
     | None => Throw (UndefinedName name)
     end, st).
Proof.
  intros Henv Hown. unfold TypeEnvironment.lookup.
  rewrite Henv, Hown. destruct (record fr !! name); reflexivity.
Qed.

(** C1 (code bug).  The claim: [lookup(name)] returns the type bound in
    the innermost scope that defines the name, searching each parent
    outward, and fails only if the name is absent from the whole chain.
    The code: in a child scope whose parent binds [x], [lookup("x")]
    throws the undefined-name error, while the same lookup on the parent
    returns [number]; so the block [(begin (var x 1) (begin x))] is
    rejected. *)
Theorem C1_lookup_does_not_search_parents :
  fst (lookup_in_child "x" initial_store) = Throw (UndefinedName "x")
  /\ fst (lookup_in_parent "x" initial_store) = Ret (VType Type_number)
  /\ (forall fuel, 2 <= fuel ->
        run fuel nested_block = Throw (UndefinedName "x")).
Proof.
  split; [vm_compute; reflexivity|].
  split; [vm_compute; reflexivity|].
  intros fuel H.
  apply (run_mono 2 fuel); [exact H | vm_compute; reflexivity | discriminate].
Qed.

Lemma C1_lookup_does_not_search_parents_witness :
  run 2 nested_block = Throw (UndefinedName "x").
Proof.
  apply (proj2 (proj2 C1_lookup_does_not_search_parents) 2). apply le_n.
Defined.

(** C8 (code bug).  The claim: the recursive declaration of [fact] checks
    and yields [Fn<number<number>>].  The code: [def] does register
    [fact] in the current scope, but the body is checked in the scope of
    the parameters, where [lookup("fact")] does not reach the enclosing
    scope; the check throws. *)
Theorem C8_recursive_fact_is_rejected (fuel : nat) :
  7 <= fuel -> run fuel fact_def = Throw (UndefinedName "fact").
Proof.
  intros H.
  apply (run_mono 7 fuel); [exact H | vm_compute; reflexivity | discriminate].
Qed.

Lemma C8_recursive_fact_is_rejected_witness :
  run 7 fact_def = Throw (UndefinedName "fact").
Proof. apply (C8_recursive_fact_is_rejected 7). apply le_n. Defined.

End Lookup.

(** ** Generic functions (C2) *)

Section Generics.

Import EvaTC Programs.

(** An instance of [Type.GenericFunction] has no [genericTypes] field, so
    a call that carries actual types always stops in
    [_getGenericTypesMap]. *)
Lemma generic_call_throws (fn : Ty) (actualTypes : list string) :
  _getGenericTypesMap (generic_genericTypes fn) actualTypes
  = Throw JsTypeError.
Proof. reflexivity. Qed.

(** C2 (code bug).  The claim: with [(def id <T> ((x T)) -> T x)], the
    call [(id <number> 5)] has type [number], [(id <string> "a")] has type
    [string], and a call without actual types raises the
    missing-actual-types error.  The code: the last part holds; the two
    instantiated calls throw a [TypeError], because the class
    [Type.GenericFunction] has an empty body and its instances carry none
    of the fields that the call reads. *)
Theorem C2_generic_instantiation_throws (fuel : nat) :
  3 <= fuel ->
  run fuel id_number = Throw JsTypeError
  /\ run fuel id_string = Throw JsTypeError
  /\ run fuel id_bare = Throw MissingGenericActualTypes.
Proof.
  intros H. repeat split;
    (apply (run_mono 3 fuel);
     [exact H | vm_compute; reflexivity | discriminate]).
Qed.

Lemma C2_generic_instantiation_throws_witness :
  run 3 id_number = Throw JsTypeError
  /\ run 3 id_string = Throw JsTypeError
  /\ run 3 id_bare = Throw MissingGenericActualTypes.
Proof. apply (C2_generic_instantiation_throws 3). apply le_n. Defined.

End Generics.

(** ** Totality of equality (C10) *)

Section Totality.

Import EvaTC Programs.

(** The type of [square] is the object registered under its name. *)
Lemma square_type :
  types (snd (constructor initial_store)) !! "Fn<number<number>>"
  = Some Fn_number_number.
Proof. vm_compute. reflexivity. Qed.

(** A function type compared with anything that is not a function type
    throws. *)
Lemma Function_equals_non_function (Tnull : tval) (o : nat)
    (n : option string) (ps : list Ty) (r other : Ty) :
  (forall o' n' ps' r', other <> TFunction o' n' ps' r') ->
  equals Tnull (TFunction o n ps r) other = Throw JsTypeError.
Proof.
  intros H. rewrite equals_unfold. simpl. unfold Function_equals.
  destruct other; try reflexivity. exfalso. eapply H. reflexivity.
Qed.

(** C10 (code bug).  The claim: [t.equals(u)] returns a boolean and never
    throws, also for a Function compared against a Primitive, an Alias or
    a Union.  The code: [Type.Function.equals] reads
    [other.paramTypes.length] first, so the type of [square] compared
    with [number] throws a [TypeError]; the declaration
    [(var (f number) square)] reaches that comparison. *)
Theorem C10_Function_equals_throws :
  (forall Tnull,
      equals Tnull Fn_number_number Type_number = Throw JsTypeError)
  /\ (forall fuel, 2 <= fuel ->
        run fuel function_as_number = Throw JsTypeError).
Proof.
  split.
  - intros Tnull. apply Function_equals_non_function. discriminate.
  - intros fuel H.
    apply (run_mono 2 fuel);
      [exact H | vm_compute; reflexivity | discriminate].
Qed.

Lemma C10_Function_equals_throws_witness :
  run 2 function_as_number = Throw JsTypeError.
Proof. apply (proj2 C10_Function_equals_throws 2). apply le_n. Defined.

End Totality.



(** ** Symmetry of equality (C3) *)

Section Symmetry.

Import EvaTC Programs.

(** The types used below are the ones the declarations register. *)
Lemma declare_unions_registers :
  types (snd (exec 2 declare_unions)) !! "NumOrStr" = Some NumOrStr
  /\ types (snd (exec 2 declare_unions)) !! "NumNum" = Some NumNum.
Proof. split; vm_compute; reflexivity. Qed.

Lemma declare_class_union_registers :
  types (snd (exec 2 declare_class_union)) !! "Point" = Some Point
  /\ types (snd (exec 2 declare_class_union)) !! "PointOrNum"
     = Some PointOrNum.
Proof. split; vm_compute; reflexivity. Qed.

(** C3, counterexample.  [NumOrStr.equals(NumNum)] is true because both
    options of [NumNum] are members of [NumOrStr] and the lengths agree,
    while [NumNum.equals(NumOrStr)] is false because [string] is not a
    member of [NumNum].  A class compared with a union that lists it is
    another instance: [Type.Class.equals] does not hand over to the
    union. *)
Lemma C3_counterexample :
  isUnion NumNum = true
  /\ ~ (equals (VType Type_null) NumOrStr NumNum = Ret true
        <-> equals (VType Type_null) NumNum NumOrStr = Ret true)
  /\ isUnion PointOrNum = true
  /\ ~ (equals (VType Type_null) Point PointOrNum = Ret true
        <-> equals (VType Type_null) PointOrNum Point = Ret true).
Proof.
  split; [reflexivity|]. split.
  - intros [H _].
    assert (H1 : equals (VType Type_null) NumOrStr NumNum = Ret true)
      by (vm_compute; reflexivity).
    specialize (H H1). vm_compute in H. discriminate.
  - split; [reflexivity|]. intros [_ H].
    assert (H1 : equals (VType Type_null) PointOrNum Point = Ret true)
      by (vm_compute; reflexivity).
    specialize (H H1). vm_compute in H. discriminate.
Qed.

(** C3, amended.  Equality is symmetric where a method hands the
    comparison over to the other side: a receiver that uses
    [Type.prototype.equals] (a primitive or a generic function) against
    an Alias or a Union, and a Class or a Union against an Alias that is
    another object.  In these cases [t.equals(u)] has the outcome of
    [u.equals(t)], whether that is a boolean or an exception. *)
Theorem C3_symmetric_by_delegation (Tnull : tval) (t u : Ty) :
  (isPlain t = true /\ (isAlias u || isUnion u) = true)
  \/ ((isClass t || isUnion t) = true /\ isAlias u = true
      /\ same_object t u = false) ->
  equals Tnull t u = equals Tnull u t.
Proof.
  intros [[Ht Hu]|[Ht [Hu Hne]]]; rewrite (equals_unfold Tnull t u).
  - destruct t; simpl in Ht; try discriminate; simpl; unfold Type_equals;
      destruct (isAlias u); try reflexivity;
      simpl in Hu; rewrite Hu; reflexivity.
  - destruct t; simpl in Ht; try discriminate; simpl.
    + unfold Class_equals. rewrite Hne, Hu. reflexivity.
    + unfold Union_equals. rewrite Hne, Hu. reflexivity.
Qed.

Lemma C3_symmetric_by_delegation_witness :
  equals (VType Type_null) Type_number NumOrStr
  = equals (VType Type_null) NumOrStr Type_number.
Proof.
  apply (C3_symmetric_by_delegation (VType Type_null) Type_number NumOrStr).
  left. split; reflexivity.
Defined.

End Symmetry.

(** ** Equality of unions (C4) *)

Section Unions.

Import EvaTC Programs.

Lemma some_true_iff {A} (f : A -> res bool) (l : list A) :
  some f l = Ret true <->
  exists l1 x l2, l = (l1 ++ x :: l2)%list
                  /\ Forall (fun y => f y = Ret false) l1
                  /\ f x = Ret true.
Proof.
  induction l as [|a l IH]; simpl.
  - split; [discriminate|]. intros (l1 & x & l2 & H & _).
    destruct l1; discriminate.
  - split.
    + destruct (f a) as [[|]| | |] eqn:Ha; simpl; try discriminate.
      * intros _. exists [], a, l. repeat split; [constructor | exact Ha].
      * intros H. apply IH in H as (l1 & x & l2 & -> & Hl1 & Hx).
        exists (a :: l1), x, l2. repeat split; [|exact Hx].
        constructor; assumption.
    + intros (l1 & x & l2 & Heq & Hl1 & Hx).
      destruct l1 as [|b l1]; simpl in Heq; injection Heq as -> ->.
      * rewrite Hx. reflexivity.
      * inversion Hl1 as [|? ? Hb Hl1']; subst. rewrite Hb. simpl.
        apply IH. exists l1, x, l2. repeat split; assumption.
Qed.

Lemma every_true_iff {A} (f : A -> res bool) (l : list A) :
  every f l = Ret true <-> Forall (fun x => f x = Ret true) l.
Proof.
  induction l as [|a l IH]; simpl.
  - split; [constructor | reflexivity].
  - split.
    + destruct (f a) as [[|]| | |] eqn:Ha; simpl; try discriminate.
      intros H. constructor; [exact Ha | apply IH, H].
    + intros H. inversion H as [|? ? Ha Hl]; subst. rewrite Ha. simpl.
      apply IH, Hl.
Qed.

(** Against a type [other] that is neither an Alias nor a Union (and is
    not the union itself), a union runs [optionTypes.some]. *)
Lemma Union_equals_some (Tnull : tval) (o : nat) (n : string)
    (opts : list Ty) (other : Ty) :
  isAlias other = false -> isUnion other = false ->
  same_object (TUnion o n opts) other = false ->
  equals Tnull (TUnion o n opts) other
  = some (fun t => equals Tnull t other) opts.
Proof.
  intros Ha Hu Hne. rewrite equals_unfold. simpl. unfold Union_equals.
  rewrite Hne, Ha. destruct other; simpl in Hu; try discriminate;
    reflexivity.
Qed.

(** So the union equals such a type exactly when one option does, all the
    options before it having answered false. *)
Lemma Union_equals_member (Tnull : tval) (o : nat) (n : string)
    (opts : list Ty) (other : Ty) :
  isAlias other = false -> isUnion other = false ->
  same_object (TUnion o n opts) other = false ->
  equals Tnull (TUnion o n opts) other = Ret true <->
  exists l1 t l2, opts = (l1 ++ t :: l2)%list
                  /\ Forall (fun y => equals Tnull y other = Ret false) l1
                  /\ equals Tnull t other = Ret true.
Proof.
  intros Ha Hu Hne. rewrite Union_equals_some by assumption.
  apply some_true_iff.
Qed.

(** A union equals another union exactly when the option lists have the
    same length and every option of the other one is equal to it. *)
Lemma Union_equals_Union (Tnull : tval) (o : nat) (n : string)
    (opts : list Ty) (o' : nat) (n' : string) (types : list Ty) :
  o <> o' ->
  equals Tnull (TUnion o n opts) (TUnion o' n' types) = Ret true <->
  List.length types = List.length opts
  /\ Forall (fun x => equals Tnull (TUnion o n opts) x = Ret true) types.
Proof.
  intros Hne. rewrite equals_unfold. simpl. unfold Union_equals.
  unfold same_object. simpl.
  destruct (Nat.eqb_spec o o') as [->|_]; [congruence|]. simpl.
  unfold Union_includesAll.
  destruct (Nat.eqb_spec (List.length types) (List.length opts)) as [He|He];
    simpl.
  - rewrite every_true_iff. tauto.
  - split; [discriminate | tauto].
Qed.

(** The order of the options of the other union does not matter. *)
Lemma Union_equals_Union_order (Tnull : tval) (o : nat) (n : string)
    (opts : list Ty) (o' : nat) (n' : string) (types types' : list Ty) :
  o <> o' -> Permutation types types' ->
  equals Tnull (TUnion o n opts) (TUnion o' n' types) = Ret true <->
  equals Tnull (TUnion o n opts) (TUnion o' n' types') = Ret true.
Proof.
  intros Hne Hp. rewrite !Union_equals_Union by assumption.
  rewrite (Permutation_length Hp).
  split; intros [Hl Hf]; (split; [exact Hl|]);
    [rewrite <- Hp | rewrite Hp]; exact Hf.
Qed.

Lemma declare_callback_registers :
  types (snd (exec 2 declare_callback)) !! "Callback" = Some Callback.
Proof. vm_compute. reflexivity. Qed.

(** C4 (code bug, the defect of C10).  The claim: a union equals a
    non-compound type exactly when that type is equal to one of its
    options, independently of the order of the options.  The code: in
    [Callback], declared as [(or Fn<number> number)], the option [number]
    is equal to [number], yet [Callback.equals(number)] throws: [some]
    first asks the function type, whose [equals] reads
    [other.paramTypes.length].  With the two options in the other order
    the answer is [true]. *)
Theorem C4_union_with_function_option_throws :
  In Type_number [Fn_number; Type_number]
  /\ (forall Tnull, equals Tnull Type_number Type_number = Ret true)
  /\ (forall Tnull, equals Tnull Callback Type_number = Throw JsTypeError)
  /\ (forall Tnull,
        equals Tnull (TUnion 9 "Callback" [Type_number; Fn_number])
               Type_number = Ret true)
  /\ (forall fuel, 2 <= fuel ->
        run fuel number_as_callback = Throw JsTypeError).
Proof.
  split; [right; left; reflexivity|].
  split; [intros Tnull; reflexivity|].
  split; [intros Tnull; reflexivity|].
  split; [intros Tnull; reflexivity|].
  intros fuel H.
  apply (run_mono 2 fuel); [exact H | vm_compute; reflexivity | discriminate].
Qed.

Lemma C4_union_with_function_option_throws_witness :
  run 2 number_as_callback = Throw JsTypeError.
Proof.
  apply (proj2 (proj2 (proj2 (proj2 C4_union_with_function_option_throws))) 2).
  apply le_n.
Defined.

End Unions.



(** ** Function calls (C7) *)

Section Calls.

Import EvaTC Programs.

Lemma _expect_true (st : store) (a e : Ty) :
  equals (Registry.Tnull st) a e = Ret true ->
  _expect (VType a) (VType e) st = (Ret (VType a), st).
Proof.
  intros H. unfold _expect, bind, get, lift. simpl. rewrite H. reflexivity.
Qed.

Lemma _expect_not_true (st : store) (a : tval) (e : Ty) :
  (forall a', a = VType a' ->
              equals (Registry.Tnull st) a' e <> Ret true) ->
  exists err, _expect a (VType e) st = (Throw err, st).
Proof.
  intros H. destruct a as [a|]; [|eexists; reflexivity].
  specialize (H a eq_refl). unfold _expect, bind, get, lift. simpl.
  destruct (equals_completes (Registry.Tnull st) a e) as [[b Hb]|[err Hb]];
    rewrite Hb in *.
  - destruct b; [congruence|]. unfold _throw.
    destruct (_ || _); eexists; reflexivity.
  - eexists; reflexivity.
Qed.

Lemma check_arguments_cons (st : store) (a : tval) (args : list tval)
    (p : Ty) (ps : list Ty) :
  check_arguments (a :: args) (p :: ps) st =
  if same_value p (Tany st) then check_arguments args ps st
  else match _expect a (VType p) st with
       | (Ret _, st') => check_arguments args ps st'
       | (Throw e, st') => (Throw e, st')
       | (OutOfModel, st') => (OutOfModel, st')
       | (OutOfFuel, st') => (OutOfFuel, st')
       end.
Proof.
  cbn [check_arguments]. unfold bind, Type_static, Tany.
  destruct (same_value p _); reflexivity.
Qed.

(** Either the argument type answers [true] to the parameter, or it does
    not (it is [undefined], or [equals] returns [false] or throws). *)
Lemma classic_accept (st : store) (a : tval) (p : Ty) :
  (exists a', a = VType a' /\ equals (Registry.Tnull st) a' p = Ret true)
  \/ (forall a', a = VType a' ->
                 equals (Registry.Tnull st) a' p <> Ret true).
Proof.
  destruct a as [a|]; [|right; discriminate].
  destruct (equals (Registry.Tnull st) a p) as [[|]| | |] eqn:Heq;
    [left; eauto | | | |];
    right; intros a' Ha; injection Ha as <-; congruence.
Qed.

(** One round of the loop over the arguments: an accepted argument lets
    the loop go on, any other one ends the check with an exception. *)
Lemma check_arguments_step (st : store) (a : tval) (args : list tval)
    (p : Ty) (ps : list Ty) :
  (accepts st a p
   /\ check_arguments (a :: args) (p :: ps) st = check_arguments args ps st)
  \/ (~ accepts st a p
      /\ exists e, check_arguments (a :: args) (p :: ps) st = (Throw e, st)).
Proof.
  rewrite check_arguments_cons.
  destruct (same_value p (Tany st)) eqn:Hany.
  { left. split; [left; exact Hany | reflexivity]. }
  destruct (classic_accept st a p) as [(a' & -> & Heq)|Hno].
  - left. split; [right; eauto|]. rewrite (_expect_true st a' p Heq).
    reflexivity.
  - right. split.
    + intros [H|(a' & Ha & H)]; [congruence|]. apply (Hno a' Ha H).
    + destruct (_expect_not_true st a p Hno) as [err Herr].
      rewrite Herr. eauto.
Qed.

Lemma check_arguments_spec (st : store) (args : list tval) (ps : list Ty) :
  List.length args = List.length ps ->
  (Forall2 (accepts st) args ps
   /\ check_arguments args ps st = (Ret tt, st))
  \/ (~ Forall2 (accepts st) args ps
      /\ exists e, check_arguments args ps st = (Throw e, st)).
Proof.
  revert ps. induction args as [|a args IH]; intros [|p ps] Hlen;
    try discriminate.
  - left. split; [constructor | reflexivity].
  - injection Hlen as Hlen.
    destruct (check_arguments_step st a args p ps) as [[Hacc Hgo]|[Hno Hthrow]].
    + rewrite Hgo. destruct (IH ps Hlen) as [[Hall Hok]|[Hnot Hthrow]].
      * left. split; [constructor; assumption | exact Hok].
      * right. split; [|exact Hthrow].
        intros H. inversion H; subst. contradiction.
    + right. split; [|exact Hthrow].
      intros H. inversion H; subst. contradiction.
Qed.

Lemma _checkFunctionCall_accepted (st : store) (o : nat)
    (n : option string) (ps : list Ty) (r : Ty) (args : list tval) :
  List.length ps = List.length args ->
  Forall2 (accepts st) args ps ->
  _checkFunctionCall (VType (TFunction o n ps r)) args st
  = (Ret (VType r), st).
Proof.
  intros Hlen Hall. unfold _checkFunctionCall.
  rewrite Hlen, Nat.eqb_refl. simpl. unfold bind.
  destruct (check_arguments_spec st args ps (eq_sym Hlen))
    as [[_ Hok]|[Hnot _]]; [|contradiction].
  rewrite Hok. reflexivity.
Qed.

(** What [_checkFunctionCall] does in every store.  For a call of a
    Function type with parameter types [ps] and return type [r] on
    argument types [args]: if the two lists differ in length the check
    throws the arity error; otherwise the arguments are checked against
    the parameters position by position, a parameter that is the object
    now held by [Type.any] accepting any argument and every other
    parameter, one declared [any] before [Type.any] was replaced
    included, requiring the argument type to answer [true] to [equals];
    when all are accepted the call has type [r], otherwise the check
    throws.  The store is left as it was. *)
Lemma _checkFunctionCall_spec (st : store) (o : nat) (n : option string)
    (ps : list Ty) (r : Ty) (args : list tval) :
  (List.length ps <> List.length args ->
     _checkFunctionCall (VType (TFunction o n ps r)) args st
     = (Throw ArityMismatch, st))
  /\ (List.length ps = List.length args ->
        (Forall2 (accepts st) args ps ->
           _checkFunctionCall (VType (TFunction o n ps r)) args st
           = (Ret (VType r), st))
        /\ (~ Forall2 (accepts st) args ps ->
              exists e,
                _checkFunctionCall (VType (TFunction o n ps r)) args st
                = (Throw e, st))).
Proof.
  split.
  - intros Hne. unfold _checkFunctionCall.
    destruct (Nat.eqb_spec (List.length ps) (List.length args));
      [contradiction | reflexivity].
  - intros Hlen. split; [apply _checkFunctionCall_accepted, Hlen|].
    intros Hnot. unfold _checkFunctionCall.
    rewrite Hlen, Nat.eqb_refl. simpl. unfold bind.
    destruct (check_arguments_spec st args ps (eq_sym Hlen))
      as [[Hall _]|[_ [e He]]]; [contradiction|].
    rewrite He. eauto.
Qed.

(** The global environment of a fresh checker binds [square] and
    [typeof] to these types. *)
Lemma global_square_and_typeof :
  (r <- TypeEnvironment.lookup 0 "square" ;;
   q <- TypeEnvironment.lookup 0 "typeof" ;; ret (r, q)) fresh_store
  = (Ret (VType Fn_number_number, VType Fn_string_any), fresh_store).
Proof. vm_compute. reflexivity. Qed.

(** On a fresh checker the parameter of [typeof], declared [any], is the
    object [Type.any]: a call of [typeof] on a [number] has type
    [string]. *)
Lemma typeof_accepts_number :
  _checkFunctionCall (VType Fn_string_any) [VType Type_number] fresh_store
  = (Ret (VType Type_string), fresh_store).
Proof.
  apply (proj2 (_checkFunctionCall_spec fresh_store 7
                  (Some "Fn<string<any>>")
                  [Type_any] Type_string [VType Type_number]));
    [reflexivity|].
  constructor; [left; reflexivity | constructor].
Qed.

(** More calls on a fresh checker: [typeof] accepts an [undefined]
    argument type; [square] accepts a [number], rejects a [string], and
    rejects two arguments for their number. *)
Lemma checkFunctionCall_examples :
  _checkFunctionCall (VType Fn_string_any) [VUndefined] fresh_store
  = (Ret (VType Type_string), fresh_store)
  /\ _checkFunctionCall (VType Fn_number_number) [VType Type_number]
                        fresh_store
     = (Ret (VType Type_number), fresh_store)
  /\ _checkFunctionCall (VType Fn_number_number) [VType Type_string]
                        fresh_store
     = (Throw TypeMismatch, fresh_store)
  /\ _checkFunctionCall (VType Fn_number_number)
                        [VType Type_number; VType Type_number] fresh_store
     = (Throw ArityMismatch, fresh_store).
Proof. repeat split; vm_compute; reflexivity. Qed.

(** After [(type any (or number string))] the parameter of [typeof] is
    no longer an accepting one: it is still the primitive, which is not
    the object held by [Type.any], and [number] does not equal it. *)
Lemma typeof_parameter_after_redeclaration :
  let st := snd (exec 2 redeclare_any_as_union) in
  TypeEnvironment.lookup 0 "typeof" st = (Ret (VType Fn_string_any), st)
  /\ Tany st = VType any_union
  /\ ~ accepts st (VType Type_number) Type_any.
Proof.
  cbv zeta. split; [vm_compute; reflexivity|].
  split; [vm_compute; reflexivity|].
  intros [H|(a & Ha & H)]; [vm_compute in H; discriminate|].
  injection Ha as <-. vm_compute in H. discriminate.
Qed.

(** C7 (code bug, the defect of C9).  The claim: in every call of a
    concrete Function type the number of arguments must equal the number
    of parameters, a parameter declared [any] accepts an argument of any
    type, every other argument type must equal its parameter type, and
    the call has the declared return type.  The code tests a parameter
    for being the object now held by [Type.any], and the union and class
    forms of a declaration replace that object.  On a fresh checker
    [(typeof 5)] has type [string], [(square "a")] throws the type error
    and [(square 1 2)] the arity error, as claimed.  After
    [(type any (or number string))], which returns a union and leaves it
    in [Type.any], the call [(typeof 5)] throws the type error, although
    the parameter of [typeof] is declared [any]. *)
Theorem C7_any_parameter_after_redeclaration (fuel : nat) :
  2 <= fuel ->
  run fuel typeof_5 = Ret (VType Type_string)
  /\ run fuel square_of_string = Throw TypeMismatch
  /\ run fuel square_of_two = Throw ArityMismatch
  /\ fst (exec fuel redeclare_any_as_union) = Ret (VType any_union)
  /\ types (snd (exec fuel redeclare_any_as_union)) !! "any"
     = Some any_union
  /\ run fuel typeof_after_redeclaration = Throw TypeMismatch.
Proof.
  intros H.
  assert (Hu : exec fuel redeclare_any_as_union
               = exec 2 redeclare_any_as_union).
  { apply exec_mono; [exact H|]. vm_compute. discriminate. }
  rewrite Hu.
  repeat split;
    try (apply (run_mono 2 fuel);
         [exact H | vm_compute; reflexivity | discriminate]);
    vm_compute; reflexivity.
Qed.

Lemma C7_any_parameter_after_redeclaration_witness :
  run 2 typeof_5 = Ret (VType Type_string)
  /\ run 2 typeof_after_redeclaration = Throw TypeMismatch.
Proof.
  pose proof (C7_any_parameter_after_redeclaration 2 (le_n 2))
    as (Hfresh & _ & _ & _ & _ & Hafter).
  exact (conj Hfresh Hafter).
Defined.

End Calls.

(** ** Aliases (C5) *)

Section Aliases.

Import EvaTC Programs.

Lemma name_eq_refl (n : jsname) : name_eq n n = true.
Proof.
  destruct n; simpl; [apply String.eqb_refl | reflexivity | apply Nat.eqb_refl].
Qed.

Lemma plain_equals_self (Tnull : tval) (t : Ty) :
  isPlain t = true -> equals Tnull t t = Ret true.
Proof.
  intros H. rewrite equals_unfold.
  destruct t; simpl in H; try discriminate; simpl; unfold Type_equals;
    simpl; rewrite ?String.eqb_refl, ?Nat.eqb_refl; reflexivity.
Qed.

(** An alias chain answers [true] to its ultimate base, and the base
    answers [true] to the chain. *)
Lemma alias_chain_equals_base (Tnull : tval) (l : list (nat * string))
    (base : Ty) :
  isPlain base = true ->
  equals Tnull (alias_chain l base) base = Ret true
  /\ equals Tnull base (alias_chain l base) = Ret true.
Proof.
  intros Hb.
  assert (H1 : equals Tnull (alias_chain l base) base = Ret true).
  { induction l as [|[o n] l IH]; simpl.
    - apply plain_equals_self, Hb.
    - rewrite equals_unfold. simpl. unfold Alias_equals.
      destruct (name_eq _ _); [reflexivity | exact IH]. }
  split; [exact H1|].
  destruct l as [|[o n] l]; [exact H1|].
  rewrite equals_unfold.
  destruct base; simpl in Hb; try discriminate; simpl; unfold Type_equals;
    simpl; exact H1.
Qed.

(** C5.  In a store where [int] is not registered and [number] is the
    primitive, [(type int number)] returns a new alias of [number] and
    registers it as [int]; the alias and [number] answer [true] to each
    other; an [int] is accepted where [number] is expected and a [number]
    where [int] is expected, by [_expect] and by the argument check of a
    call; and any chain of aliases answers [true] to its base, and the
    base to the chain. *)
Theorem C5_alias_equals_its_base (fuel env : nat) (st : store) :
  types st !! "int" = None ->
  types st !! "number" = Some Type_number ->
  tc (S fuel) declare_int env st = (Ret (VType (int_alias st)), with_int st)
  /\ types (with_int st) !! "int" = Some (int_alias st)
  /\ (forall Tnull,
        equals Tnull (int_alias st) Type_number = Ret true
        /\ equals Tnull Type_number (int_alias st) = Ret true)
  /\ _expect (VType (int_alias st)) (VType Type_number) (with_int st)
     = (Ret (VType (int_alias st)), with_int st)
  /\ _expect (VType Type_number) (VType (int_alias st)) (with_int st)
     = (Ret (VType Type_number), with_int st)
  /\ (forall o n r,
        _checkFunctionCall (VType (TFunction o n [Type_number] r))
                           [VType (int_alias st)] (with_int st)
        = (Ret (VType r), with_int st)
        /\ _checkFunctionCall (VType (TFunction o n [int_alias st] r))
                              [VType Type_number] (with_int st)
           = (Ret (VType r), with_int st))
  /\ (forall Tnull l base, isPlain base = true ->
        equals Tnull (alias_chain l base) base = Ret true
        /\ equals Tnull base (alias_chain l base) = Ret true).
Proof.
  intros Hint Hnum.
  assert (Heq : forall Tnull,
             equals Tnull (int_alias st) Type_number = Ret true
             /\ equals Tnull Type_number (int_alias st) = Ret true).
  { intros Tnull.
    apply (alias_chain_equals_base Tnull [(next_oid st, "int")] Type_number).
    reflexivity. }
  split.
  { simpl. unfold tc_body. simpl. unfold tc_type, bind, get. simpl.
    unfold Registry.hasOwnProperty. rewrite Hint, Hnum. simpl.
    unfold Registry.read. rewrite Hnum. reflexivity. }
  split; [apply lookup_insert_eq|].
  split; [exact Heq|].
  split; [apply _expect_true, Heq|].
  split; [apply _expect_true, Heq|].
  split; [|intros Tnull l base; apply alias_chain_equals_base].
  intros o n r. split.
  - apply _checkFunctionCall_accepted; [reflexivity|].
    constructor; [|constructor]. right. eexists. split; [reflexivity|].
    apply Heq.
  - apply _checkFunctionCall_accepted; [reflexivity|].
    constructor; [|constructor]. right. eexists. split; [reflexivity|].
    apply Heq.
Qed.

Lemma C5_alias_equals_its_base_witness :
  tc 1 declare_int 0 (snd (constructor initial_store))
  = (Ret (VType (int_alias (snd (constructor initial_store)))),
     with_int (snd (constructor initial_store))).
Proof.
  apply (C5_alias_equals_its_base 0 0 (snd (constructor initial_store)));
    vm_compute; reflexivity.
Defined.

(** On a fresh checker: a variable declared [int] holds a [number] and
    is passed to [square], and a [number] is passed to a function whose
    parameter is declared [int]. *)
Lemma int_and_number_interchange (fuel : nat) :
  5 <= fuel ->
  run fuel int_where_number = Ret (VType Type_number)
  /\ run fuel number_where_int = Ret (VType Type_number).
Proof.
  intros H. split;
    (apply (run_mono 5 fuel);
     [exact H | vm_compute; reflexivity | discriminate]).
Qed.

End Aliases.




(** ** Narrowing in if-expressions (C6) *)

Section Narrowing.

Import EvaTC Programs.

Lemma String_append_cons (c : ascii) (s t : string) :
  String c s ++ t = String c (s ++ t).
Proof. reflexivity. Qed.

Lemma substring_0_app (s t : string) :
  substring 0 (String.length s) (s ++ t) = s.
Proof.
  induction s as [|c s IH].
  - destruct t; reflexivity.
  - rewrite String_append_cons. simpl. rewrite IH. reflexivity.
Qed.

Lemma String_length_app (s t : string) :
  String.length (s ++ t) = String.length s + String.length t.
Proof.
  induction s as [|c s IH]; [reflexivity|].
  rewrite String_append_cons. simpl. rewrite IH. reflexivity.
Qed.

(** Removing the first and the last character of a quoted name gives
    the name. *)
Lemma str_slice_quoted (T : string) :
  str_slice_1_m1 (dquote ++ T ++ dquote) = T.
Proof.
  unfold str_slice_1_m1, dquote. rewrite String_append_cons.
  change ("" ++ T ++ String "034" "") with (T ++ String "034" "").
  simpl. rewrite String_length_app. simpl.
  replace (String.length T + 1 - 1) with (String.length T) by lia.
  apply substring_0_app.
Qed.

Lemma tc_if_dispatch (f : sexp -> nat -> M tval)
    (condition consequent alternate : sexp) (env : nat) :
  tc_body f (if_exp condition consequent alternate) env
  = tc_if f (if_exp condition consequent alternate) env.
Proof. reflexivity. Qed.

(** The environment of the consequent part, for a condition whose
    operator is [==] and whose left operand is an array headed by
    [typeof]. *)
Lemma consequent_env_cast (lrest crest : list sexp) (typeStr : sexp)
    (env : nat) :
  slice_1_m1 (nth 0 crest SUndef) = Ret typeStr ->
  consequent_env
    (SList (SStr "==" :: SList (SStr "typeof" :: lrest) :: crest)) env
  = (t <- fromString typeStr ;;
     TypeEnvironment.new {[ toString (nth 0 lrest SUndef) := VType t ]}
                         (Some env)).
Proof.
  intros H. unfold consequent_env, _getSpecifiedType. simpl.
  rewrite H. reflexivity.
Qed.

Lemma consequent_env_plain (condition : sexp) (env : nat) :
  _isTypeCastCondition condition = Ret false ->
  consequent_env condition env = ret env.
Proof. intros H. unfold consequent_env. rewrite H. reflexivity. Qed.

(** What the rule of [if] does on every condition.  The test that
    selects narrowing looks at the operator and at the head of the left
    operand only.  For a condition that is an array starting with [==]
    whose second element is an array headed by [typeof] (the shape
    [(== (typeof name) "TypeName")] among them), the consequent part is
    checked in a new child environment that binds the operand of
    [typeof] to the type named by what [slice(1, -1)] leaves of the
    third element, whatever that element is, and the alternate part is
    checked in the original environment.  For a condition on which that
    test answers false, both parts are checked in the original
    environment. *)
Lemma narrowing_follows_the_guard (fuel : nat)
    (condition consequent alternate : sexp) (env : nat) (st : store) :
  (forall name T, condition = typeof_condition name T ->
     tc (S fuel) (if_exp condition consequent alternate) env st
     = tc_if_narrowed (tc fuel) condition consequent alternate env
                      name (SStr T) st)
  /\ (forall lrest crest typeStr,
        condition
        = SList (SStr "==" :: SList (SStr "typeof" :: lrest) :: crest) ->
        slice_1_m1 (nth 0 crest SUndef) = Ret typeStr ->
        tc (S fuel) (if_exp condition consequent alternate) env st
        = tc_if_narrowed (tc fuel) condition consequent alternate env
                         (toString (nth 0 lrest SUndef)) typeStr st)
  /\ (_isTypeCastCondition condition = Ret false ->
        tc (S fuel) (if_exp condition consequent alternate) env st
        = tc_if_plain (tc fuel) condition consequent alternate env st).
Proof.
  assert (Hcast : forall lrest crest typeStr,
             condition
             = SList (SStr "==" :: SList (SStr "typeof" :: lrest) :: crest) ->
             slice_1_m1 (nth 0 crest SUndef) = Ret typeStr ->
             tc (S fuel) (if_exp condition consequent alternate) env st
             = tc_if_narrowed (tc fuel) condition consequent alternate env
                              (toString (nth 0 lrest SUndef)) typeStr st).
  { intros lrest crest typeStr -> Hslice.
    change (tc (S fuel)) with (tc_body (tc fuel)).
    rewrite tc_if_dispatch. unfold tc_if, tc_if_narrowed, if_exp.
    cbn [idx nth].
    rewrite (consequent_env_cast lrest crest typeStr env Hslice).
    reflexivity. }
  split; [|split].
  - intros name T ->.
    apply (Hcast [SStr name] [quoted T] (SStr T)); [reflexivity|].
    unfold quoted. simpl. rewrite str_slice_quoted. reflexivity.
  - exact Hcast.
  - intros Hplain.
    change (tc (S fuel)) with (tc_body (tc fuel)).
    rewrite tc_if_dispatch. unfold tc_if, tc_if_plain, if_exp.
    cbn [idx nth].
    rewrite (consequent_env_plain condition env Hplain).
    reflexivity.
Qed.

(** In the child environment the narrowed name is found with its new
    type. *)
Lemma narrowed_name_is_rebound (st : store) (env : nat) (name : string)
    (t : Ty) :
  name <> "hasOwnProperty" ->
  (child <- TypeEnvironment.new {[ name := VType t ]} (Some env) ;;
   TypeEnvironment.lookup child name) st
  = (Ret (VType t),
     Store (types st)
           (envs st ++ [Frame {[ name := VType t ]} (Some env)])
           (next_oid st)).
Proof.
  intros Hne. unfold bind, TypeEnvironment.new, TypeEnvironment.lookup.
  simpl. rewrite lookup_app_r by reflexivity.
  rewrite Nat.sub_diag. simpl.
  rewrite lookup_singleton_ne by congruence.
  rewrite lookup_singleton_eq. reflexivity.
Qed.

(** The condition [(== (typeof x) qnumberq)] has a variable where the
    documented shape has a string literal, so it is another shape; yet,
    with [x] and [qnumberq] declared as strings, the consequent part
    [(+ x 1)] is checked with [x] bound to [number] and the
    if-expression has type [number], while checking both parts in the
    original environment throws a type mismatch. *)
Lemma loose_condition_is_narrowed :
  (forall name T, loose_condition <> typeof_condition name T)
  /\ fst (tc 4 (if_exp loose_condition x_plus_1 (SNum 2)) 0 store_x_and_q)
     = Ret (VType Type_number)
  /\ fst (tc_if_plain (tc 3) loose_condition x_plus_1 (SNum 2) 0
                      store_x_and_q)
     = Throw TypeMismatch
  /\ tc 4 (if_exp loose_condition x_plus_1 (SNum 2)) 0 store_x_and_q
     <> tc_if_plain (tc 3) loose_condition x_plus_1 (SNum 2) 0
                    store_x_and_q.
Proof.
  assert (H1 : fst (tc 4 (if_exp loose_condition x_plus_1 (SNum 2)) 0
                       store_x_and_q) = Ret (VType Type_number))
    by (vm_compute; reflexivity).
  assert (H2 : fst (tc_if_plain (tc 3) loose_condition x_plus_1 (SNum 2) 0
                                store_x_and_q) = Throw TypeMismatch)
    by (vm_compute; reflexivity).
  split; [|split; [exact H1 | split; [exact H2|]]].
  - intros name T H. unfold loose_condition, typeof_condition, quoted in H.
    injection H as _ H. unfold dquote in H. simpl in H. discriminate.
  - intros H. rewrite H, H2 in H1. clear H. discriminate H1.
Qed.

(** The condition [(== (typeof x) y)] compares the result of [typeof]
    with a variable.  With [x] and [y] declared as strings, checking
    both parts of [(if (== (typeof x) y) 1 2)] in the original
    environment gives [number]; the code takes the name of the variable
    for a quoted type name, looks up the empty string that is left of it,
    and throws the unknown-type error. *)
Lemma comparison_with_variable_is_rejected :
  (forall name T, typeof_x_is_y <> typeof_condition name T)
  /\ fst (tc 4 (if_exp typeof_x_is_y (SNum 1) (SNum 2)) 0 store_x_and_y)
     = Throw (UnknownType "")
  /\ fst (tc_if_plain (tc 3) typeof_x_is_y (SNum 1) (SNum 2) 0
                      store_x_and_y)
     = Ret (VType Type_number).
Proof.
  split; [|split; vm_compute; reflexivity].
  intros name T H. unfold typeof_x_is_y, typeof_condition, quoted in H.
  injection H as _ H. unfold dquote in H. simpl in H. discriminate.
Qed.

(** C6 (code bug).  The claim: narrowing applies to a condition of the
    exact shape [(== (typeof name) "TypeName")], and for any other
    condition both parts of the [if] are checked in the original
    environment.  The code never tests that the third element of the
    condition is a quoted type name: it narrows on every condition that
    starts with [==] and [typeof], and removes the first and the last
    character of whatever comes third.  On a fresh checker, the program
    with [(if (== (typeof x) qnumberq) (+ x 1) 2)], where [x] and
    [qnumberq] are strings, has type [number], because [x] is narrowed to
    the type named by the middle of the variable name, while the rule of
    the claim throws a type mismatch; the program with
    [(if (== (typeof x) y) 1 2)], where [x] and [y] are strings, throws
    the unknown-type error for the empty name, while the rule of the
    claim gives [number]; on the documented shape, the program with
    [(if (== (typeof x) "string") (+ x "a") "b")], where [x] is a union
    of [number] and [string], has type [string]. *)
Theorem C6_narrowing_ignores_the_third_element (fuel : nat) :
  4 <= fuel ->
  (forall name T, loose_condition <> typeof_condition name T)
  /\ run fuel loose_narrowing = Ret (VType Type_number)
  /\ fst (tc_if_plain (tc 3) loose_condition x_plus_1 (SNum 2) 0
                      store_x_and_q)
     = Throw TypeMismatch
  /\ (forall name T, typeof_x_is_y <> typeof_condition name T)
  /\ run fuel compare_typeof_with_variable = Throw (UnknownType "")
  /\ fst (tc_if_plain (tc 3) typeof_x_is_y (SNum 1) (SNum 2) 0
                      store_x_and_y)
     = Ret (VType Type_number)
  /\ run fuel union_narrowing = Ret (VType Type_string).
Proof.
  intros H.
  destruct loose_condition_is_narrowed as (Hq & _ & Hqplain & _).
  destruct comparison_with_variable_is_rejected as (Hy & _ & Hyplain).
  repeat split; try assumption;
    (apply (run_mono 4 fuel);
     [exact H | vm_compute; reflexivity | discriminate]).
Qed.

Lemma C6_narrowing_ignores_the_third_element_witness :
  run 4 loose_narrowing = Ret (VType Type_number)
  /\ run 4 compare_typeof_with_variable = Throw (UnknownType "")
  /\ run 4 union_narrowing = Ret (VType Type_string).
Proof.
  pose proof (C6_narrowing_ignores_the_third_element 4 (le_n 4))
    as (_ & Hq & _ & _ & Hy & _ & Hu).
  exact (conj Hq (conj Hy Hu)).
Defined.

End Narrowing.


(** ** Redeclaration of a type name (C9) *)

Section Redeclaration.

Import EvaTC Programs.

(** The alias form checks the name: redeclaring a registered type name
    as an alias throws, and the store is left as it was. *)
Lemma alias_redeclaration_throws (fuel env : nat) (st : store)
    (name : string) (base : sexp) (t : Ty) :
  types st !! name = Some t ->
  isGenericFunction t = false ->
  base <> SUndef ->
  is_str (idx base 0) "or" = false ->
  tc (S fuel) (SList [SStr "type"; SStr name; base]) env st
  = (Throw (DuplicateTypeDeclaration name), st).
Proof.
  intros Ht Hg Hb Hor.
  change (tc (S fuel)) with (tc_body (tc fuel)).
  change (tc_body (tc fuel) (SList [SStr "type"; SStr name; base]) env)
    with (tc_type (SList [SStr "type"; SStr name; base])).
  unfold tc_type. cbn [idx nth].
  destruct base; try congruence; rewrite Hor; unfold bind, get;
    unfold Registry.hasOwnProperty; cbn [toString]; rewrite Ht, Hg;
    reflexivity.
Qed.

(** C9 (code bug).  The claim: every [(type Name Base)] and every
    [(class Name Super Body)] whose name is already registered fails
    with the duplicate-declaration error instead of overwriting the
    registration.  The code: only the alias form of [type] checks the
    name.  On a fresh checker, where [number] and [string] are the
    primitives, [(type number (or string boolean))] returns a union and
    [Type.number] is that union afterwards; [(class string null (begin))]
    returns a class and [Type.string] is that class afterwards; the alias
    form [(type number string)] does throw. *)
Theorem C9_union_and_class_overwrite (fuel : nat) :
  2 <= fuel ->
  types fresh_store !! "number" = Some Type_number
  /\ types fresh_store !! "string" = Some Type_string
  /\ fst (exec fuel redeclare_number_as_union) = Ret (VType number_union)
  /\ types (snd (exec fuel redeclare_number_as_union)) !! "number"
     = Some number_union
  /\ fst (exec fuel redeclare_string_as_class) = Ret (VType string_class)
  /\ types (snd (exec fuel redeclare_string_as_class)) !! "string"
     = Some string_class
  /\ run fuel redeclare_number_as_alias
     = Throw (DuplicateTypeDeclaration "number").
Proof.
  intros H.
  assert (Hu : exec fuel redeclare_number_as_union
               = exec 2 redeclare_number_as_union).
  { apply exec_mono; [exact H|]. vm_compute. discriminate. }
  assert (Hc : exec fuel redeclare_string_as_class
               = exec 2 redeclare_string_as_class).
  { apply exec_mono; [exact H|]. vm_compute. discriminate. }
  assert (Ha : run fuel redeclare_number_as_alias
               = Throw (DuplicateTypeDeclaration "number")).
  { apply (run_mono 2 fuel);
      [exact H | vm_compute; reflexivity | discriminate]. }
  rewrite Hu, Hc, Ha. clear Hu Hc Ha H fuel.
  repeat split; vm_compute; reflexivity.
Qed.

Lemma C9_union_and_class_overwrite_witness :
  types (snd (exec 2 redeclare_number_as_union)) !! "number"
  = Some number_union
  /\ types (snd (exec 2 redeclare_string_as_class)) !! "string"
     = Some string_class.
Proof.
  pose proof (C9_union_and_class_overwrite 2 (le_n 2))
    as (_ & _ & _ & Hu & _ & Hc & _).
  exact (conj Hu Hc).
Defined.

End Redeclaration.


(** * Further properties of the code *)

(** ** Outcomes of the equality protocol *)

Section EqualityOutcome.

Variable Tnull : tval.

Lemma some_outcome {A} (P : res bool -> Prop) (f : A -> res bool)
    (l : list A) :
  (forall b, P (Ret b)) -> (forall x, In x l -> P (f x)) -> P (some f l).
Proof.
  intros Hb. induction l as [|x l IH]; intros H; simpl; [apply Hb|].
  pose proof (H x (or_introl eq_refl)) as Hx.
  destruct (f x) as [[|]| | |]; simpl; auto.
  apply IH. intros y Hy. apply H. right. exact Hy.
Qed.

Lemma every_outcome {A} (P : res bool -> Prop) (f : A -> res bool)
    (l : list A) :
  (forall b, P (Ret b)) -> (forall x, In x l -> P (f x)) -> P (every f l).
Proof.
  intros Hb. induction l as [|x l IH]; intros H; simpl; [apply Hb|].
  pose proof (H x (or_introl eq_refl)) as Hx.
  destruct (f x) as [[|]| | |]; simpl; auto.
  apply IH. intros y Hy. apply H. right. exact Hy.
Qed.

Lemma pairwise_outcome {A} (P : res bool -> Prop) (f : A -> A -> res bool)
    (l1 l2 : list A) :
  (forall b, P (Ret b)) ->
  (forall x y, In x l1 -> In y l2 -> P (f x y)) -> P (pairwise f l1 l2).
Proof.
  intros Hb. revert l2. induction l1 as [|x l1 IH]; intros [|y l2] H; simpl;
    try apply Hb.
  pose proof (H x y (or_introl eq_refl) (or_introl eq_refl)) as Hx.
  destruct (f x y) as [[|]| | |]; simpl; auto.
  apply IH. intros a b Ha Hb'. apply H; right; assumption.
Qed.


Lemma dispatch_outcome (P : res bool -> Prop) (Q : Ty -> Prop)
    (f : Ty -> Ty -> res bool) (t o : Ty) :
  (forall b, P (Ret b)) ->
  parts_closed Q ->
  (forall i n ps r, Q (TFunction i n ps r) -> P (Throw JsTypeError)) ->
  (forall t' o', Q t' -> Q o' -> P (f t' o')) ->
  Q t -> Q o -> P (dispatch Tnull f t o).
Proof.
  intros Hb (HF & HA & HC & HU) Hthrow Hf Ht Ho.
  destruct t as [i n|i n ps r|i n p|i n s e|i n opts|i a b c d e]; simpl.
  - unfold Type_equals. destruct (isAlias o); [auto|].
    destruct (isUnion o); auto.
  - destruct (HF _ _ _ _ Ht) as [Hps Hr].
    destruct o as [|i' n' ps' r'| | | |]; simpl;
      try (eapply Hthrow; exact Ht).
    destruct (HF _ _ _ _ Ho) as [Hps' Hr'].
    destruct (negb _); [apply Hb|].
    assert (Hp : P (pairwise f ps ps')).
    { apply pairwise_outcome; auto. }
    destruct (pairwise f ps ps') as [[|]| | |]; simpl; auto.
    pose proof (Hf r r' Hr Hr') as Hrr.
    destruct (f r r') as [[|]| | |]; simpl; auto.
  - unfold Alias_equals. destruct (name_eq _ _); [apply Hb|].
    apply Hf; eauto.
  - unfold Class_equals. destruct (same_object _ _); [apply Hb|].
    destruct (isAlias o); [auto|].
    destruct (negb _); [|apply Hb]. apply Hf; eauto.
  - unfold Union_equals. destruct (same_object _ _); [apply Hb|].
    destruct (isAlias o); [auto|].
    destruct o as [| | | |i' n' types|];
      try (apply some_outcome; [exact Hb|]; intros x Hx; apply Hf; eauto).
    unfold Union_includesAll. destruct (negb _); [apply Hb|].
    apply every_outcome; [exact Hb|]. intros x Hx. apply Hf; eauto.
  - unfold Type_equals. destruct (isAlias o); [auto|].
    destruct (isUnion o); auto.
Qed.

Lemma equalsF_outcome (P : res bool -> Prop) (Q : Ty -> Prop) :
  (forall b, P (Ret b)) -> P OutOfFuel ->
  parts_closed Q ->
  (forall i n ps r, Q (TFunction i n ps r) -> P (Throw JsTypeError)) ->
  forall n t o, Q t -> Q o -> P (equalsF Tnull n t o).
Proof.
  intros Hb Hfuel Hc Hthrow. induction n as [|n IH]; intros t o Ht Ho;
    [exact Hfuel|].
  simpl. apply (dispatch_outcome P Q); auto.
Qed.

(** [t.equals(t)] is true. *)
Lemma equals_self (t : Ty) : equals Tnull t t = Ret true.
Proof.
  assert (H : forall n t, ty_size t <= n -> equals Tnull t t = Ret true).
  { clear t. induction n as [|n IH]; intros t Hn.
    - pose proof (ty_size_pos t). lia.
    - rewrite equals_unfold.
      destruct t as [i m|i m ps r|i m p|i m s e|i m opts|i a b c d e]; simpl.
      + unfold Type_equals. simpl. rewrite String.eqb_refl. reflexivity.
      + rewrite Nat.eqb_refl. simpl.
        rewrite ty_size_Function in Hn.
        assert (Hp : pairwise (equals Tnull) ps ps = Ret true).
        { assert (Hs : sizes ps <= n) by lia. clear Hn.
          induction ps as [|p ps IHp]; [reflexivity|]. simpl in *.
          rewrite (IH p) by lia. simpl. apply IHp. lia. }
        rewrite Hp. simpl. rewrite (IH r) by lia. reflexivity.
      + unfold Alias_equals. simpl. rewrite String.eqb_refl. reflexivity.
      + unfold Class_equals, same_object. rewrite Nat.eqb_refl. reflexivity.
      + unfold Union_equals, same_object. rewrite Nat.eqb_refl. reflexivity.
      + unfold Type_equals. simpl. rewrite Nat.eqb_refl. reflexivity. }
  apply (H (ty_size t)). apply le_n.
Qed.

End EqualityOutcome.

Lemma parts_closed_True : parts_closed (fun _ => True).
Proof. repeat split. Qed.

Lemma parts_closed_function_free :
  parts_closed (fun t => function_free t = true).
Proof.
  repeat split; try discriminate; simpl; auto.
  intros o n opts H x Hx. rewrite forallb_forall in H. apply H, Hx.
Qed.

(** X1.  [t.equals(u)] terminates on every pair of types: the calls that
    the methods hand to each other ([other.equals(this)], the parent of an
    alias, the superclass, the options of a union, the parameters and the
    return type of a function) come to an end within [fuel_for t u] nested
    calls, the result is the same for any larger bound, and it is a
    boolean or the runtime's [TypeError]; nothing else is thrown. *)
Theorem X1_equals_terminates (Tnull : tval) (t u : Ty) (n : nat) :
  fuel_for t u <= n ->
  equalsF Tnull n t u = equals Tnull t u
  /\ ((exists b, equals Tnull t u = Ret b)
      \/ equals Tnull t u = Throw JsTypeError).
Proof.
  intros Hn. split.
  - apply equalsF_stable; unfold fuel_for in *; lia.
  - pose proof (equalsF_outcome Tnull boolean_or_TypeError (fun _ => True)
                  (fun _ => I) I parts_closed_True
                  (fun _ _ _ _ _ => eq_refl) (fuel_for t u) t u I I) as H.
    fold (equals Tnull t u) in H.
    destruct (equals_completes Tnull t u) as [Hb|[e He]]; [left; exact Hb|].
    right. rewrite He in H. simpl in H. rewrite He, H. reflexivity.
Qed.

Lemma X1_equals_terminates_witness :
  equalsF (VType Type_null) 40 NumOrStr Fn_number_number
  = equals (VType Type_null) NumOrStr Fn_number_number
  /\ ((exists b, equals (VType Type_null) NumOrStr Fn_number_number = Ret b)
      \/ equals (VType Type_null) NumOrStr Fn_number_number
         = Throw JsTypeError).
Proof.
  apply (X1_equals_terminates (VType Type_null) NumOrStr Fn_number_number 40).
  vm_compute. lia.
Defined.

(** X2.  Equality is reflexive: [t.equals(t)] returns true for every
    type, function types included (their parameter and return types are
    compared with themselves). *)
Theorem X2_equals_reflexive (Tnull : tval) (t : Ty) :
  equals Tnull t t = Ret true.
Proof. apply equals_self. Qed.

(** X3.  Equality is total away from function types: when neither type
    contains an instance of [Type.Function], [t.equals(u)] returns a
    boolean; the [TypeError] of [Type.Function.equals] is the only way
    for a comparison to fail. *)
Theorem X3_equals_total_without_functions (Tnull : tval) (t u : Ty) :
  function_free t = true -> function_free u = true ->
  exists b, equals Tnull t u = Ret b.
Proof.
  intros Ht Hu.
  pose proof (equalsF_outcome Tnull boolean_if_any
                (fun t => function_free t = true)
                (fun _ => I) I parts_closed_function_free) as H.
  specialize (H (fun i n ps r (E : function_free (TFunction i n ps r) = true)
                 => False_ind _ (Bool.diff_false_true E))
                (fuel_for t u) t u Ht Hu).
  fold (equals Tnull t u) in H.
  pose proof (equals_terminates Tnull t u) as Hf.
  destruct (equals Tnull t u) as [b| | |]; simpl in H; try tauto.
  exists b. reflexivity.
Qed.

Lemma X3_equals_total_without_functions_witness :
  exists b, equals (VType Type_null) PointOrNum NumOrStr = Ret b.
Proof.
  apply (X3_equals_total_without_functions (VType Type_null)
           PointOrNum NumOrStr); reflexivity.
Defined.

(** X4.  [Type.Function.equals] compares structure only: two function
    types with the same parameter types and the same return type are
    equal whatever their names and identities, so the anonymous type of a
    declared function equals the type parsed from [Fn<...>]; function
    types of different arity are not equal. *)
Theorem X4_Function_equals_is_structural (Tnull : tval) (o1 o2 : nat)
    (n1 n2 : option string) (ps ps' : list Ty) (r r' : Ty) :
  equals Tnull (TFunction o1 n1 ps r) (TFunction o2 n2 ps r) = Ret true
  /\ (List.length ps <> List.length ps' ->
      equals Tnull (TFunction o1 n1 ps r) (TFunction o2 n2 ps' r')
      = Ret false).
Proof.
  split.
  - rewrite equals_unfold. simpl. rewrite Nat.eqb_refl. simpl.
    assert (Hp : pairwise (equals Tnull) ps ps = Ret true).
    { induction ps as [|p ps IH]; [reflexivity|]. simpl.
      rewrite equals_self. simpl. exact IH. }
    rewrite Hp. simpl. rewrite equals_self. reflexivity.
  - intros Hne. rewrite equals_unfold. simpl.
    destruct (Nat.eqb_spec (List.length ps) (List.length ps'));
      [contradiction | reflexivity].
Qed.


(** ** Classes and unions of primitive types *)

Section Subtyping.

(** X5.  A class equals every class above it: along a chain of
    superclasses that ends in [base], the most derived class answers true
    to [equals(base)] (none of the classes being the object [Type.null]),
    and [base], whose own superclass is [Type.null], answers false to a
    class derived from it.  Classes are compared by identity, not by
    name. *)
Theorem X5_class_equals_its_ancestors (null : Ty) (ob : nat) (nb : string)
    (eb : nat) (l : list (nat * string * nat)) :
  let base := TClass ob nb null eb in
  ob <> oid_of null ->
  Forall (fun x => fst (fst x) <> oid_of null) l ->
  equals (VType null) (class_chain l base) base = Ret true
  /\ (Forall (fun x => fst (fst x) <> ob) l -> l <> [] ->
      equals (VType null) base (class_chain l base) = Ret false).
Proof.
  intros base Hb Hl. split.
  - induction l as [|[[o n] e] l IH]; [apply equals_self|].
    inversion Hl as [|? ? Ho Hl']; subst. simpl in Ho.
    cbn [class_chain fold_right]. fold (class_chain l base).
    rewrite equals_unfold. cbn [dispatch]. unfold Class_equals.
    destruct (same_object _ base); [reflexivity|].
    cbn [isAlias base].
    assert (Hs : same_value (class_chain l base) (VType null) = false).
    { unfold same_value, same_object. apply Nat.eqb_neq.
      destruct l as [|[[o' n'] e'] l']; simpl; [exact Hb|].
      inversion Hl'; subst; assumption. }
    rewrite Hs. simpl. apply IH, Hl'.
  - intros Hne Hnil. destruct l as [|[[o n] e] l]; [congruence|].
    inversion Hne as [|? ? Ho _]; subst. simpl in Ho.
    rewrite equals_unfold. simpl. unfold Class_equals, same_object. simpl.
    destruct (Nat.eqb_spec ob o) as [E|_]; [congruence|].
    unfold same_object. rewrite Nat.eqb_refl. reflexivity.
Qed.

Lemma X5_class_equals_its_ancestors_witness :
  equals (VType Type_null)
    (class_chain [(10, "Point3D", 3); (9, "Point2D", 2)] Point) Point
  = Ret true
  /\ (Forall (fun x => fst (fst x) <> 8)
        [(10, "Point3D", 3); (9, "Point2D", 2)] ->
      [(10, "Point3D", 3); (9, "Point2D", 2)] <> [] ->
      equals (VType Type_null) Point
        (class_chain [(10, "Point3D", 3); (9, "Point2D", 2)] Point)
      = Ret false).
Proof.
  apply (X5_class_equals_its_ancestors Type_null 8 "Point" 1
           [(10, "Point3D", 3); (9, "Point2D", 2)]).
  - simpl. lia.
  - repeat constructor; simpl; lia.
Defined.

End Subtyping.

Section PrimitiveUnions.

Variable Tnull : tval.

Lemma some_Ret {A} (g : A -> bool) (l : list A) :
  some (fun x => Ret (g x)) l = Ret (existsb g l).
Proof.
  induction l as [|x l IH]; [reflexivity|]. simpl.
  destruct (g x); [reflexivity | exact IH].
Qed.

Lemma every_Ret {A} (g : A -> bool) (l : list A) :
  every (fun x => Ret (g x)) l = Ret (forallb g l).
Proof.
  induction l as [|x l IH]; [reflexivity|]. simpl.
  destruct (g x); [exact IH | reflexivity].
Qed.

Lemma prim_equals_prim (o1 : nat) (n1 : string) (o' : nat) (n' : string) :
  equals Tnull (TPrim o1 n1) (TPrim o' n') = Ret (String.eqb n1 n').
Proof. rewrite equals_unfold. reflexivity. Qed.

Lemma union_equals_prim (o : nat) (n : string) (l : list (nat * string))
    (o' : nat) (n' : string) :
  o <> o' ->
  equals Tnull (TUnion o n (map prim l)) (TPrim o' n')
  = Ret (has_name l n').
Proof.
  intros Hne. rewrite equals_unfold. simpl. unfold Union_equals, same_object.
  simpl. destruct (Nat.eqb_spec o o') as [E|_]; [congruence|].
  unfold has_name. rewrite <- some_Ret.
  induction l as [|x l IH]; [reflexivity|]. cbn [map some].
  change (prim x) with (TPrim (fst x) (snd x)).
  rewrite (prim_equals_prim (fst x) (snd x) o' n'). simpl.
  destruct (String.eqb _ _); [reflexivity|].
  exact IH.
Qed.

Lemma prim_equals_union (o : nat) (n : string) (l : list (nat * string))
    (o' : nat) (n' : string) :
  o <> o' ->
  equals Tnull (TPrim o' n') (TUnion o n (map prim l))
  = Ret (has_name l n').
Proof.
  intros Hne. rewrite equals_unfold. cbn [dispatch]. unfold Type_equals.
  cbn [isAlias isUnion]. apply union_equals_prim, Hne.
Qed.

End PrimitiveUnions.

(** X6.  Union membership: a union whose options are primitive types
    equals a primitive type exactly when a primitive of that name is among
    its options, and the primitive gives the same answer when it is asked
    about the union ([Type.equals] hands the question over to the
    union). *)
Theorem X6_union_of_primitives_membership (Tnull : tval) (o : nat)
    (n : string) (l : list (nat * string)) (o' : nat) (n' : string) :
  o <> o' ->
  equals Tnull (TUnion o n (map prim l)) (TPrim o' n') = Ret (has_name l n')
  /\ equals Tnull (TPrim o' n') (TUnion o n (map prim l))
     = Ret (has_name l n').
Proof.
  intros Hne.
  split; [apply union_equals_prim, Hne | apply prim_equals_union, Hne].
Qed.

Lemma X6_union_of_primitives_membership_witness :
  equals (VType Type_null) NumOrStr Type_string
  = Ret (has_name [(0, "number"); (1, "string")] "string")
  /\ equals (VType Type_null) Type_string NumOrStr
     = Ret (has_name [(0, "number"); (1, "string")] "string").
Proof.
  apply (X6_union_of_primitives_membership (VType Type_null) 8 "NumOrStr"
           [(0, "number"); (1, "string")] 1 "string").
  lia.
Defined.

(** X7.  Two unions of primitive types: [u.equals(v)] is true exactly
    when [v] has as many options as [u] and the name of every option of
    [v] occurs among the options of [u].  Nothing is asked of the options
    of [u] that [v] lacks, so the answer does not depend on the order of
    the options, and with repeated options it is not symmetric. *)
Theorem X7_unions_of_primitives (Tnull : tval) (o : nat) (n : string)
    (l : list (nat * string)) (o' : nat) (n' : string)
    (l' : list (nat * string)) :
  o <> o' ->
  Forall (fun y => fst y <> o) l' ->
  equals Tnull (TUnion o n (map prim l)) (TUnion o' n' (map prim l'))
  = Ret (Nat.eqb (List.length l') (List.length l)
         && forallb (fun y => has_name l (snd y)) l').
Proof.
  intros Hne Hl'. rewrite equals_unfold. cbn [dispatch].
  unfold Union_equals, same_object. cbn [oid_of isAlias].
  destruct (Nat.eqb_spec o o') as [E|_]; [congruence|].
  unfold Union_includesAll. rewrite !length_map.
  destruct (Nat.eqb (List.length l') (List.length l)); [|reflexivity].
  cbn [negb andb]. rewrite <- every_Ret.
  induction l' as [|y l' IH]; [reflexivity|].
  inversion Hl' as [|? ? Hy Hl'']; subst. cbn [map every].
  change (prim y) with (TPrim (fst y) (snd y)).
  rewrite (union_equals_prim Tnull o n l (fst y) (snd y)) by congruence.
  simpl. destruct (has_name l (snd y)); [apply IH, Hl'' | reflexivity].
Qed.

Lemma X7_unions_of_primitives_witness :
  equals (VType Type_null) NumOrStr NumNum
  = Ret (Nat.eqb 2 2
         && forallb (fun y => has_name [(0, "number"); (1, "string")] (snd y))
              [(0, "number"); (0, "number")]).
Proof.
  apply (X7_unions_of_primitives (VType Type_null) 8 "NumOrStr"
           [(0, "number"); (1, "string")] 9 "NumNum"
           [(0, "number"); (0, "number")]).
  - lia.
  - repeat constructor; simpl; lia.
Defined.


(** ** Type.fromString and the registry *)

Section FromStringFacts.

Lemma native_own_is_native (k : string) :
  existsb (String.eqb k) Registry.native_own = true ->
  Registry.is_native k = true.
Proof.
  intros H. unfold Registry.is_native. rewrite existsb_app, H. reflexivity.
Qed.

(** A registered name is returned as it is. *)
Lemma fromStringF_registered (n : nat) (typeStr : sexp) (t : Ty)
    (st : store) :
  types st !! toString typeStr = Some t ->
  fromStringF (S n) typeStr st = (Ret t, st).
Proof.
  intros H. cbn [fromStringF]. unfold Type_fromString. cbv zeta.
  unfold bind, get, Registry.hasOwnProperty, Registry.read.
  cbn beta iota. rewrite H. cbn beta iota. rewrite H. reflexivity.
Qed.

(** A piece without [<] is looked up in the registry and nothing else. *)
Lemma fromStringF_atom_store (s : string) (st : store) :
  str_forall no_angle s = true ->
  snd (fromStringF 1 (SStr s) st) = st.
Proof.
  intros H. cbn [fromStringF]. unfold Type_fromString. cbv zeta.
  unfold bind, get, Registry.hasOwnProperty, Registry.read.
  cbn beta iota delta [toString].
  destruct (types st !! s) as [t|] eqn:Et; cbn beta iota; rewrite ?Et;
    [reflexivity|].
  destruct (existsb _ _) eqn:E; cbn beta iota; rewrite ?Et.
  - rewrite (native_own_is_native s E). reflexivity.
  - rewrite (includes_Fn_no_angle s H). reflexivity.
Qed.

Lemma mapM_atoms_store (l : list string) (st : store) :
  Forall (fun s => str_forall no_angle s = true) l ->
  snd (mapM (fun p => fromStringF 1 (SStr p)) l st) = st.
Proof.
  induction 1 as [|s l Hs Hl IH]; [reflexivity|].
  cbn [mapM]. unfold bind at 1.
  pose proof (fromStringF_atom_store s st Hs) as H1.
  destruct (fromStringF 1 (SStr s) st) as [[t|e| |] st1]; simpl in H1;
    subst st1; try reflexivity.
  unfold bind.
  destruct (mapM _ l st) as [[ts|e| |] st2]; simpl in IH; subst st2;
    reflexivity.
Qed.

Lemma mapM_registered (n : nat) (l : list string) (ts : list Ty)
    (st : store) :
  Forall2 (fun p t => types st !! p = Some t) l ts ->
  mapM (fun p => fromStringF (S n) (SStr p)) l st = (Ret ts, st).
Proof.
  induction 1 as [|p t l ts Hp Hl IH]; [reflexivity|].
  cbn [mapM]. unfold bind at 1.
  rewrite (fromStringF_registered n (SStr p) t st Hp).
  unfold bind. rewrite IH. reflexivity.
Qed.

Lemma Fn_is_not_native (rest : string) :
  Registry.is_native (String "F" (String "n" (String "<" rest))) = false.
Proof. reflexivity. Qed.

Ltac head_char c :=
  destruct c as [[] [] [] [] [] [] [] []]; try discriminate.

Lemma re_fn_params_Fn (k rs ps : string) :
  re_fn_params k = Some (rs, ps) -> Registry.is_native k = false.
Proof.
  unfold re_fn_params.
  destruct k as [|c1 k]; try discriminate. head_char c1.
  destruct k as [|c2 k]; try discriminate. head_char c2.
  destruct k as [|c3 k]; try discriminate. head_char c3.
  intros _. apply Fn_is_not_native.
Qed.

Lemma re_fn_noparams_Fn (k rs : string) :
  re_fn_noparams k = Some rs -> Registry.is_native k = false.
Proof.
  unfold re_fn_noparams.
  destruct k as [|c1 k]; try discriminate. head_char c1.
  destruct k as [|c2 k]; try discriminate. head_char c2.
  destruct k as [|c3 k]; try discriminate. head_char c3.
  intros _. apply Fn_is_not_native.
Qed.


Lemma hasOwnProperty_None (st : store) (key : string) :
  types st !! key = None ->
  Registry.hasOwnProperty st key
  = existsb (String.eqb key) Registry.native_own.
Proof. intros H. unfold Registry.hasOwnProperty. rewrite H. reflexivity. Qed.

(** An own property of [Type] that is not a type. *)
Lemma fromStringF_native (n : nat) (typeStr : sexp) (st : store) :
  types st !! toString typeStr = None ->
  existsb (String.eqb (toString typeStr)) Registry.native_own = true ->
  fromStringF (S n) typeStr st = (OutOfModel, st).
Proof.
  intros H E. cbn [fromStringF]. unfold Type_fromString. cbv zeta.
  unfold bind, get. cbn beta iota.
  rewrite (hasOwnProperty_None st _ H), E. unfold Registry.read.
  rewrite H, (native_own_is_native _ E). reflexivity.
Qed.

Lemma fromString_unregistered (typeStr : sexp) (st : store) :
  types st !! toString typeStr = None ->
  existsb (String.eqb (toString typeStr)) Registry.native_own = false ->
  fromString typeStr st
  = match typeStr with
    | SStr s =>
        if includes "Fn<" s then parse_Fn typeStr st
        else (Throw (UnknownType s), st)
    | SList l =>
        if existsb (fun x => is_str x "Fn<") l then parse_Fn typeStr st
        else (Throw (UnknownType (toString typeStr)), st)
    | _ => (Throw JsTypeError, st)
    end.
Proof.
  intros H E. unfold fromString. cbn [fromStringF].
  unfold Type_fromString. cbv zeta. unfold bind at 1, get. cbn beta iota.
  rewrite (hasOwnProperty_None st _ H), E.
  assert (HF : Function_fromString (fromStringF 1) typeStr st
               = parse_Fn typeStr st).
  { unfold Function_fromString. cbv zeta. unfold bind at 1, get.
    cbn beta iota. rewrite (hasOwnProperty_None st _ H), E. reflexivity. }
  destruct typeStr as [|z|s|b|l]; try reflexivity.
  - destruct (includes "Fn<" s); [exact HF | reflexivity].
  - destruct (existsb _ l); [exact HF | reflexivity].
Qed.

Lemma parse_Fn_cases (typeStr : sexp) (st : store) :
  parse_Fn_outcome typeStr st (parse_Fn typeStr st).
Proof.
  unfold parse_Fn. cbv zeta.
  destruct (re_fn_params _) as [[rs ps]|] eqn:Hre.
  - destruct (re_fn_params_no_angle _ rs ps Hre) as [Hrs Hps].
    pose proof (re_fn_params_Fn _ rs ps Hre) as Hnat.
    unfold bind at 1.
    pose proof (mapM_atoms_store (split_comma_ws ps) st
                  (split_comma_ws_forall no_angle false ps Hps)) as H1.
    destruct (mapM _ _ st) as [[pts|e| |] st1]; simpl in H1; subst st1;
      try reflexivity.
    unfold bind at 1.
    pose proof (fromStringF_atom_store rs st Hrs) as H2.
    destruct (fromStringF 1 (SStr rs) st) as [[rt|e| |] st2]; simpl in H2;
      subst st2; try reflexivity.
    destruct typeStr as [|z|s|b|l]; try reflexivity.
    cbn [toString] in *.
    unfold bind, fresh_oid, Registry.write. cbn beta iota.
    rewrite Hnat. exists pts, rt. split; reflexivity.
  - destruct (re_fn_noparams _) as [rs|] eqn:Hre2; [|reflexivity].
    pose proof (re_fn_noparams_no_angle _ rs Hre2) as Hrs.
    pose proof (re_fn_noparams_Fn _ rs Hre2) as Hnat.
    unfold bind at 1.
    pose proof (fromStringF_atom_store rs st Hrs) as H2.
    destruct (fromStringF 1 (SStr rs) st) as [[rt|e| |] st2]; simpl in H2;
      subst st2; try reflexivity.
    destruct typeStr as [|z|s|b|l]; try reflexivity.
    cbn [toString] in *.
    unfold bind, fresh_oid, Registry.write. cbn beta iota.
    rewrite Hnat. exists [], rt. split; reflexivity.
Qed.

Lemma parse_Fn_outcome_cases (typeStr : sexp) (st : store)
    (out : res Ty * store) :
  parse_Fn_outcome typeStr st out ->
  (exists r, out = (r, st) /\ forall t, r <> Ret t)
  \/ (exists ps rt,
        let t := TFunction (next_oid st) (Some (toString typeStr)) ps rt in
        out = (Ret t, registered (toString typeStr) t st)).
Proof.
  destruct out as [[t|e| |] st']; simpl.
  - intros (ps & rt & -> & ->). right. exists ps, rt. reflexivity.
  - intros ->. left. eexists. split; [reflexivity | discriminate].
  - intros ->. left. eexists. split; [reflexivity | discriminate].
  - intros ->. left. eexists. split; [reflexivity | discriminate].
Qed.

Lemma fromString_cases (typeStr : sexp) (st : store) :
  (exists t, types st !! toString typeStr = Some t
             /\ fromString typeStr st = (Ret t, st))
  \/ (exists r, fromString typeStr st = (r, st) /\ forall t, r <> Ret t)
  \/ (types st !! toString typeStr = None
      /\ exists ps rt,
           let t := TFunction (next_oid st) (Some (toString typeStr)) ps rt in
           fromString typeStr st
           = (Ret t, registered (toString typeStr) t st)).
Proof.
  destruct (types st !! toString typeStr) as [t|] eqn:H.
  - left. exists t. split; [reflexivity|].
    apply (fromStringF_registered 1), H.
  - right.
    destruct (existsb (String.eqb (toString typeStr)) Registry.native_own)
      eqn:E.
    + left. exists OutOfModel. split; [|discriminate].
      apply (fromStringF_native 1); assumption.
    + rewrite (fromString_unregistered typeStr st H E).
      assert (Hp := parse_Fn_outcome_cases typeStr st _
                      (parse_Fn_cases typeStr st)).
      destruct typeStr as [|z|s|b|l];
        try (left; eexists; split; [reflexivity | discriminate]).
      * destruct (includes "Fn<" s);
          [|left; eexists; split; [reflexivity | discriminate]].
        destruct Hp as [Hp|Hp]; [left; exact Hp | right; split; auto].
      * destruct (existsb _ l);
          [|left; eexists; split; [reflexivity | discriminate]].
        destruct Hp as [Hp|Hp]; [left; exact Hp | right; split; auto].
Qed.

End FromStringFacts.

(** X8.  [Type.fromString] memoises: when it returns a type, that type is
    registered under the string afterwards, and asking again for the same
    string returns the same object and changes nothing; a function type
    is therefore created once per spelling. *)
Theorem X8_fromString_memoises (typeStr : sexp) (t : Ty) (st st' : store) :
  fromString typeStr st = (Ret t, st') ->
  types st' !! toString typeStr = Some t
  /\ fromString typeStr st' = (Ret t, st').
Proof.
  intros H.
  assert (Hreg : types st' !! toString typeStr = Some t).
  { destruct (fromString_cases typeStr st)
      as [(t0 & Ht0 & E)|[(r & E & Hr)|(Hn & ps & rt & E)]].
    - rewrite E in H. injection H as <- <-. exact Ht0.
    - rewrite E in H. injection H as -> _. exfalso. apply (Hr t eq_refl).
    - cbv zeta in E. rewrite E in H. injection H as <- <-.
      unfold registered. cbn [types]. apply lookup_insert_eq. }
  split; [exact Hreg|].
  apply (fromStringF_registered 1), Hreg.
Qed.

Lemma X8_fromString_memoises_witness :
  types fresh_store !! toString (SStr "Fn<number<number>>")
  = Some Fn_number_number
  /\ fromString (SStr "Fn<number<number>>") fresh_store
     = (Ret Fn_number_number, fresh_store).
Proof.
  apply (X8_fromString_memoises (SStr "Fn<number<number>>") Fn_number_number
           fresh_store fresh_store).
  vm_compute. reflexivity.
Defined.

(** [Type.fromString] changes at most the entry of its argument, and
    nothing when it returns no type. *)
Lemma fromString_frame (typeStr : sexp) (st : store) :
  registers_at_most (toString typeStr) st (snd (fromString typeStr st))
  /\ ((forall t, fst (fromString typeStr st) <> Ret t) ->
      snd (fromString typeStr st) = st).
Proof.
  destruct (fromString_cases typeStr st)
    as [(t0 & Ht0 & E)|[(r & E & Hr)|(Hn & ps & rt & E)]].
  - rewrite E. simpl. repeat split; auto.
  - rewrite E. simpl. repeat split; auto.
  - cbv zeta in E. rewrite E. cbn [fst snd]. split.
    + unfold registers_at_most, registered. cbn [envs types next_oid].
      repeat split; [|lia]. intros k Hk.
      apply lookup_insert_ne. congruence.
    + intros Hno. exfalso. eapply Hno. reflexivity.
Qed.

(** X9.  [Type.fromString] touches nothing but the entry of the string
    it is given: the environments and every other registered name are as
    before, and when it throws the store is exactly as before; in
    particular a function type whose parameter or return type is unknown
    is not registered. *)
Theorem X9_fromString_frame (typeStr : sexp) (st : store) :
  registers_at_most (toString typeStr) st (snd (fromString typeStr st))
  /\ (forall e, fst (fromString typeStr st) = Throw e ->
                snd (fromString typeStr st) = st).
Proof.
  destruct (fromString_frame typeStr st) as [H1 H2]. split; [exact H1|].
  intros e He. apply H2. intros t Ht. rewrite He in Ht. discriminate Ht.
Qed.


(** ** Function type strings *)

Section Signatures.

Ltac head_char c :=
  destruct c as [[] [] [] [] [] [] [] []]; try discriminate.

Lemma signature_of_Fn (s rs : string) (pieces : list string) :
  signature_of s = Some (rs, pieces) ->
  exists rest, s = String "F" (String "n" (String "<" rest)).
Proof.
  unfold signature_of, re_fn_params, re_fn_noparams.
  destruct s as [|c1 s]; try discriminate. head_char c1.
  destruct s as [|c2 s]; try discriminate. head_char c2.
  destruct s as [|c3 s]; try discriminate. head_char c3.
  intros _. eexists. reflexivity.
Qed.

Lemma includes_Fn (rest : string) :
  includes "Fn<" (String "F" (String "n" (String "<" rest))) = true.
Proof.
  cbn [includes].
  assert (H : String.prefix "Fn<" (String "F" (String "n" (String "<" rest)))
              = true).
  { cbn [String.prefix].
    repeat match goal with
           | |- context [ascii_dec ?x ?y] =>
               destruct (ascii_dec x y); try congruence
           end.
    destruct rest; reflexivity. }
  rewrite H. reflexivity.
Qed.

Lemma fromStringF_atom_Ret (p : string) (t : Ty) (st st1 : store) :
  str_forall no_angle p = true ->
  fromStringF 1 (SStr p) st = (Ret t, st1) ->
  types st !! p = Some t /\ st1 = st.
Proof.
  intros Hp. destruct (types st !! p) as [t0|] eqn:Ht.
  - rewrite (fromStringF_registered 0 (SStr p) t0 st Ht).
    intros H. injection H as <- <-. split; reflexivity.
  - destruct (existsb (String.eqb p) Registry.native_own) eqn:E.
    + rewrite (fromStringF_native 0 (SStr p) st Ht E). discriminate.
    + cbn [fromStringF]. unfold Type_fromString. cbv zeta.
      unfold bind, get. cbn beta iota. cbn [toString].
      rewrite (hasOwnProperty_None st p Ht), E.
      rewrite (includes_Fn_no_angle p Hp). discriminate.
Qed.

Lemma mapM_atoms_Ret (l : list string) (ts : list Ty) (st st1 : store) :
  Forall (fun s => str_forall no_angle s = true) l ->
  mapM (fun p => fromStringF 1 (SStr p)) l st = (Ret ts, st1) ->
  Forall2 (fun p t => types st !! p = Some t) l ts /\ st1 = st.
Proof.
  intros Hl. revert ts st1.
  induction Hl as [|p l Hp Hl IH]; intros ts st1 H.
  - injection H as <- <-. split; [constructor | reflexivity].
  - cbn [mapM] in H. unfold bind at 1 in H.
    destruct (fromStringF 1 (SStr p) st) as [[t|e| |] st2] eqn:E;
      try discriminate.
    apply (fromStringF_atom_Ret p t st st2 Hp) in E as [Et ->].
    unfold bind in H.
    destruct (mapM _ l st) as [[ts'|e| |] st3] eqn:E'; try discriminate.
    destruct (IH ts' st3 eq_refl) as [Hf ->].
    injection H as <- <-. split; [constructor; assumption | reflexivity].
Qed.

Lemma split_pieces (drop : bool) (s : string) :
  str_forall is_param_char s = true ->
  Forall (fun x => str_forall is_piece_char x = true)
         (split_comma_ws_aux drop s).
Proof.
  revert drop. induction s as [|c s IH]; intros drop H; simpl.
  - constructor; [reflexivity | constructor].
  - simpl in H. apply andb_prop in H as [Hc Hs].
    destruct (Ascii.eqb c ",") eqn:Ec.
    + constructor; [reflexivity | apply IH, Hs].
    + destruct (drop && is_space c); [apply IH, Hs|].
      assert (Hc' : is_piece_char c = true).
      { unfold is_param_char in Hc. unfold is_piece_char. rewrite Ec in Hc.
        destruct (is_lower c); [reflexivity|]. simpl in *. exact Hc. }
      specialize (IH false Hs).
      destruct (split_comma_ws_aux false s) as [|hd tl].
      * constructor; [simpl; rewrite Hc'; reflexivity | constructor].
      * inversion IH; subst. constructor; [|assumption].
        simpl. rewrite Hc'. assumption.
Qed.

Lemma re_fn_params_shape (k rs ps : string) :
  re_fn_params k = Some (rs, ps) ->
  rs <> "" /\ str_forall is_word rs = true
  /\ str_forall is_param_char ps = true.
Proof.
  unfold re_fn_params. intros H.
  destruct k as [|c1 k]; try discriminate. head_char c1.
  destruct k as [|c2 k]; try discriminate. head_char c2.
  destruct k as [|c3 k]; try discriminate. head_char c3.
  destruct (span is_word k) as [r tail] eqn:Hr.
  destruct tail as [|c4 rest2]; try discriminate. head_char c4.
  destruct (span is_param_char rest2) as [q tail2] eqn:Hq.
  destruct (String.eqb_spec r ""); simpl in H; [discriminate|].
  destruct (_ && _); try discriminate. injection H as <- <-.
  repeat split; [assumption | |]; eapply span_forall; eassumption.
Qed.

Lemma re_fn_noparams_shape (k rs : string) :
  re_fn_noparams k = Some rs -> rs <> "" /\ str_forall is_word rs = true.
Proof.
  unfold re_fn_noparams. intros H.
  destruct k as [|c1 k]; try discriminate. head_char c1.
  destruct k as [|c2 k]; try discriminate. head_char c2.
  destruct k as [|c3 k]; try discriminate. head_char c3.
  destruct (span is_word k) as [r tail] eqn:Hr.
  destruct (String.eqb_spec r ""); simpl in H; [discriminate|].
  destruct (_ =? _)%string; try discriminate. injection H as <-.
  split; [assumption|]. eapply span_forall; eassumption.
Qed.

End Signatures.

(** X10.  What [Type.fromString] accepts as a new function type.  For a
    string of characters below U+0100 that is not registered, it returns
    a type built from registered types exactly when the string reads as
    [Fn<R<P1,...,Pn>>] or [Fn<R>], [R] and every [Pi] being names
    registered as types; the type is then a new [Type.Function] named by
    the string, with the registered types of the [Pi], in order, as
    parameter types and that of [R] as return type, and it is registered
    under the string.  The white space that may follow a comma is, among
    these characters, tab, line feed, vertical tab, form feed, carriage
    return, space and the no-break space. *)
Theorem X10_fromString_function_type (s : string) (t : Ty) (st st' : store) :
  types st !! s = None ->
  fromString (SStr s) st = (Ret t, st') <->
  exists rs pieces ts rt,
    signature_of s = Some (rs, pieces)
    /\ Forall2 (fun p x => types st !! p = Some x) pieces ts
    /\ types st !! rs = Some rt
    /\ t = TFunction (next_oid st) (Some s) ts rt
    /\ st' = registered s t st.
Proof.
  intros Hs. split.
  - destruct (existsb (String.eqb s) Registry.native_own) eqn:E.
    { intros H. unfold fromString in H.
      rewrite (fromStringF_native 1 (SStr s) st Hs E) in H. discriminate. }
    rewrite (fromString_unregistered (SStr s) st Hs E).
    destruct (includes "Fn<" s); [|discriminate].
    unfold parse_Fn, signature_of. cbv zeta. cbn [toString].
    destruct (re_fn_params s) as [[rs ps]|] eqn:Hre.
    + destruct (re_fn_params_no_angle _ rs ps Hre) as [Hrs Hps].
      pose proof (re_fn_params_Fn _ rs ps Hre) as Hnat.
      unfold bind at 1.
      destruct (mapM _ _ st) as [[pts|e| |] st1] eqn:E1; try discriminate.
      apply mapM_atoms_Ret in E1 as [Hf ->];
        [|apply (split_comma_ws_forall no_angle false ps Hps)].
      unfold bind at 1.
      destruct (fromStringF 1 (SStr rs) st) as [[rt|e| |] st2] eqn:E2;
        try discriminate.
      apply (fromStringF_atom_Ret rs rt st st2 Hrs) in E2 as [Hrt ->].
      unfold bind, fresh_oid, Registry.write. cbn beta iota.
      rewrite Hnat. intros H. injection H as <- <-.
      exists rs, (split_comma_ws ps), pts, rt. repeat split; assumption.
    + destruct (re_fn_noparams s) as [rs|] eqn:Hre2; [|discriminate].
      pose proof (re_fn_noparams_no_angle _ rs Hre2) as Hrs.
      pose proof (re_fn_noparams_Fn _ rs Hre2) as Hnat.
      unfold bind at 1.
      destruct (fromStringF 1 (SStr rs) st) as [[rt|e| |] st2] eqn:E2;
        try discriminate.
      apply (fromStringF_atom_Ret rs rt st st2 Hrs) in E2 as [Hrt ->].
      unfold bind, fresh_oid, Registry.write. cbn beta iota.
      rewrite Hnat. intros H. injection H as <- <-.
      exists rs, [], [], rt. repeat split; [constructor | assumption].
  - intros (rs & pieces & ts & rt & Hsig & Hf & Hrt & -> & ->).
    destruct (signature_of_Fn s rs pieces Hsig) as [rest ->].
    rewrite (fromString_unregistered
               (SStr (String "F" (String "n" (String "<" rest)))) st Hs
               eq_refl), includes_Fn.
    unfold parse_Fn. cbv zeta. cbn [toString].
    unfold signature_of in Hsig.
    destruct (re_fn_params _) as [[rs' ps]|] eqn:Hre.
    + injection Hsig as -> <-.
      unfold bind at 1. rewrite (mapM_registered 0 _ ts st Hf).
      unfold bind at 1.
      rewrite (fromStringF_registered 0 (SStr rs) rt st Hrt).
      reflexivity.
    + destruct (re_fn_noparams _) as [rs'|] eqn:Hre2; [|discriminate].
      injection Hsig as -> <-. inversion Hf; subst.
      unfold bind at 1.
      rewrite (fromStringF_registered 0 (SStr rs) rt st Hrt).
      reflexivity.
Qed.

Lemma X10_fromString_function_type_witness :
  fromString (SStr "Fn<string<number, boolean>>") initial_store
  = (Ret (TFunction 5 (Some "Fn<string<number, boolean>>")
            [Type_number; Type_boolean] Type_string),
     registered "Fn<string<number, boolean>>"
       (TFunction 5 (Some "Fn<string<number, boolean>>")
          [Type_number; Type_boolean] Type_string) initial_store).
Proof.
  apply (proj2 (X10_fromString_function_type "Fn<string<number, boolean>>"
                  (TFunction 5 (Some "Fn<string<number, boolean>>")
                     [Type_number; Type_boolean] Type_string)
                  initial_store
                  (registered "Fn<string<number, boolean>>"
                     (TFunction 5 (Some "Fn<string<number, boolean>>")
                        [Type_number; Type_boolean] Type_string)
                     initial_store)
                  eq_refl)).
  exists "string", ["number"; "boolean"], [Type_number; Type_boolean],
    Type_string.
  repeat split; try reflexivity.
  repeat constructor.
Defined.

(** X11.  The names that a function type string of characters below
    U+0100 can mention: the return type is a non-empty run of word
    characters, and each parameter type, if there is any, is made of
    lower-case letters and white space (tab, line feed, vertical tab,
    form feed, carriage return, space, no-break space) only.  So a
    function type cannot have a function type, or a type whose name has a
    capital letter or a digit, among its parameters. *)
Theorem X11_signature_names (s rs : string) (pieces : list string) :
  signature_of s = Some (rs, pieces) ->
  rs <> ""
  /\ str_forall is_word rs = true
  /\ Forall (fun p => str_forall is_piece_char p = true) pieces.
Proof.
  unfold signature_of.
  destruct (re_fn_params s) as [[r ps]|] eqn:Hre.
  - intros H. injection H as <- <-.
    destruct (re_fn_params_shape s r ps Hre) as (Hne & Hw & Hp).
    repeat split; auto. apply split_pieces, Hp.
  - destruct (re_fn_noparams s) as [r|] eqn:Hre2; [|discriminate].
    intros H. injection H as <- <-.
    destruct (re_fn_noparams_shape s r Hre2) as (Hne & Hw).
    repeat split; auto.
Qed.

Lemma X11_signature_names_witness :
  "string" <> ""
  /\ str_forall is_word "string" = true
  /\ Forall (fun p => str_forall is_piece_char p = true)
        ["number"; "boolean"].
Proof.
  apply (X11_signature_names "Fn<string<number, boolean>>" "string"
           ["number"; "boolean"]).
  reflexivity.
Defined.

(** X12.  What [Type.fromString] throws for a string of characters below
    U+0100 that is neither registered nor an own property of the [Type]
    constructor: the unknown-type error of [Type.fromString] when the
    string does not contain [Fn<], and the unknown-type error of
    [Type.Function.fromString] when it does but reads as no function
    type, neither [Fn<R<P1,...,Pn>>] nor [Fn<R>].  The store is left as
    it was. *)
Theorem X12_fromString_unknown (s : string) (st : store) :
  types st !! s = None ->
  existsb (String.eqb s) Registry.native_own = false ->
  (includes "Fn<" s = false ->
   fromString (SStr s) st = (Throw (UnknownType s), st))
  /\ (includes "Fn<" s = true -> signature_of s = None ->
      fromString (SStr s) st = (Throw (FunctionUnknownType s), st)).
Proof.
  intros Hs E. rewrite (fromString_unregistered (SStr s) st Hs E).
  split.
  - intros ->. reflexivity.
  - intros -> Hsig. unfold parse_Fn. cbv zeta. cbn [toString].
    unfold signature_of in Hsig.
    destruct (re_fn_params s) as [[r ps]|]; [discriminate|].
    destruct (re_fn_noparams s); [discriminate | reflexivity].
Qed.

Lemma X12_fromString_unknown_witness :
  fromString (SStr "float") initial_store
  = (Throw (UnknownType "float"), initial_store)
  /\ fromString (SStr "Fn<number<Point>>") initial_store
     = (Throw (FunctionUnknownType "Fn<number<Point>>"), initial_store).
Proof.
  split.
  - apply (proj1 (X12_fromString_unknown "float" initial_store
                    eq_refl eq_refl)).
    reflexivity.
  - apply (proj2 (X12_fromString_unknown "Fn<number<Point>>" initial_store
                    eq_refl eq_refl)); reflexivity.
Defined.

(** The no-break space, the character U+00A0, is white space for the
    regular expressions: it may follow a comma of the parameter list,
    and the function type is built and registered. *)
Lemma no_break_space_after_comma :
  signature_of ("Fn<number<number," ++ String "160" "string>>")
  = Some ("number", ["number"; "string"])
  /\ fst (fromString
            (SStr ("Fn<number<number," ++ String "160" "string>>"))
            initial_store)
     = Ret (TFunction 5
              (Some ("Fn<number<number," ++ String "160" "string>>"))
              [Type_number; Type_string] Type_number).
Proof. split; vm_compute; reflexivity. Qed.


(** ** Environments *)

Section Environments.

Import TypeEnvironment.

Lemma define_existing (st : store) (env : nat) (fr : frame) (name : string)
    (v : tval) :
  envs st !! env = Some fr ->
  define env name v st
  = (Ret v,
     Store (types st)
           (<[env := Frame (assign name v (record fr)) (parent fr)]> (envs st))
           (next_oid st)).
Proof. intros H. unfold define. rewrite H. reflexivity. Qed.

Lemma define_envs (st : store) (env : nat) (fr : frame) (name : string)
    (v : tval) :
  envs st !! env = Some fr ->
  envs (snd (define env name v st)) !! env
  = Some (Frame (assign name v (record fr)) (parent fr)).
Proof.
  intros H. rewrite (define_existing st env fr name v H). cbn [snd envs].
  apply list_lookup_insert_eq. apply lookup_lt_Some in H. exact H.
Qed.

End Environments.

(** [define] then [lookup], in one environment. *)
Lemma define_lookup (st : store) (env : nat) (fr : frame)
    (name : string) (v : tval) :
  envs st !! env = Some fr ->
  record fr !! "hasOwnProperty" = None ->
  name <> "__proto__" -> name <> "hasOwnProperty" ->
  (TypeEnvironment.define env name v ;; TypeEnvironment.lookup env name) st
  = (Ret v, snd (TypeEnvironment.define env name v st)).
Proof.
  intros Henv Hown Hp Hh.
  pose proof (define_envs st env fr name v Henv) as Hnew.
  unfold bind. rewrite (define_existing st env fr name v Henv) in *.
  cbn [snd] in *.
  rewrite (lookup_own_record_only _ env _ name Hnew).
  - cbn [record]. unfold TypeEnvironment.assign.
    destruct (String.eqb_spec name "__proto__"); [contradiction|].
    rewrite lookup_insert_eq. reflexivity.
  - cbn [record]. unfold TypeEnvironment.assign.
    destruct (String.eqb_spec name "__proto__"); [contradiction|].
    rewrite lookup_insert_ne by congruence. exact Hown.
Qed.

(** X13.  [define] then [lookup], in one environment: the name is bound
    to the type just given, whatever it was bound to before.  This needs
    the record to have no entry called [hasOwnProperty], and the name to
    be neither [__proto__] nor [hasOwnProperty]. *)
Theorem X13_define_then_lookup (st : store) (env : nat) (fr : frame)
    (name : string) (v : tval) :
  envs st !! env = Some fr ->
  record fr !! "hasOwnProperty" = None ->
  name <> "__proto__" -> name <> "hasOwnProperty" ->
  (TypeEnvironment.define env name v ;; TypeEnvironment.lookup env name) st
  = (Ret v, snd (TypeEnvironment.define env name v st)).
Proof. apply define_lookup. Qed.

Lemma X13_define_then_lookup_witness :
  (TypeEnvironment.define 0 "sum" (VType Type_string) ;;
   TypeEnvironment.lookup 0 "sum") fresh_store
  = (Ret (VType Type_string),
     snd (TypeEnvironment.define 0 "sum" (VType Type_string) fresh_store)).
Proof.
  apply (X13_define_then_lookup fresh_store 0
           (Frame (<["VERSION" := VType Type_string]>
                     (<["sum" := VType (TFunction 5
                                          (Some "Fn<number<number,number>>")
                                          [Type_number; Type_number]
                                          Type_number)]>
                        (<["square" := VType Fn_number_number]>
                           (<["typeof" := VType Fn_string_any]> ∅))))
                  None) "sum" (VType Type_string));
    [reflexivity | reflexivity | discriminate | discriminate].
Defined.

(** X14.  [define] is local: it changes what [lookup] answers for the
    name defined in the environment it is called on, and for nothing
    else; the lookups of other names there, and every lookup in another
    environment, give what they gave before, and the registry of types is
    untouched.  The one name excluded is [hasOwnProperty]. *)
Theorem X14_define_is_local (st : store) (env : nat) (name : string)
    (v : tval) (env' : nat) (name' : string) :
  name <> "hasOwnProperty" ->
  env' <> env \/ name' <> name ->
  fst (TypeEnvironment.lookup env' name'
         (snd (TypeEnvironment.define env name v st)))
  = fst (TypeEnvironment.lookup env' name' st)
  /\ types (snd (TypeEnvironment.define env name v st)) = types st.
Proof.
  intros Hh Hother. unfold TypeEnvironment.define.
  destruct (envs st !! env) as [fr|] eqn:Henv; [|split; reflexivity].
  cbn [snd types]. split; [|reflexivity].
  unfold TypeEnvironment.lookup. cbn [envs].
  destruct (Nat.eq_dec env' env) as [->|Hne].
  - rewrite list_lookup_insert_eq by (apply lookup_lt_Some in Henv; exact Henv).
    rewrite Henv. cbn [record]. unfold TypeEnvironment.assign.
    destruct (String.eqb name "__proto__").
    { destruct (record fr !! "hasOwnProperty"); [reflexivity|].
      destruct (record fr !! name'); reflexivity. }
    rewrite lookup_insert_ne by congruence.
    destruct (record fr !! "hasOwnProperty"); [reflexivity|].
    rewrite lookup_insert_ne by (destruct Hother; congruence).
    destruct (record fr !! name'); reflexivity.
  - rewrite list_lookup_insert_ne by congruence.
    destruct (envs st !! env') as [fr'|]; [|reflexivity].
    destruct (record fr' !! "hasOwnProperty"); [reflexivity|].
    destruct (record fr' !! name'); reflexivity.
Qed.

Lemma X14_define_is_local_witness :
  fst (TypeEnvironment.lookup 0 "square"
         (snd (TypeEnvironment.define 0 "sum" (VType Type_string)
                 fresh_store)))
  = fst (TypeEnvironment.lookup 0 "square" fresh_store)
  /\ types (snd (TypeEnvironment.define 0 "sum" (VType Type_string)
                   fresh_store))
     = types fresh_store.
Proof.
  apply (X14_define_is_local fresh_store 0 "sum" (VType Type_string) 0
           "square"); [discriminate | right; discriminate].
Defined.

(** X15.  A variable called [hasOwnProperty] disables its environment:
    [lookup] calls [this.record.hasOwnProperty], which is then the value
    that was defined, not a function, so every later [lookup] in that
    environment throws the runtime's [TypeError], whatever name is asked
    for. *)
Theorem X15_hasOwnProperty_shadows_lookup (st : store) (env : nat)
    (fr : frame) (v : tval) (name : string) :
  envs st !! env = Some fr ->
  (TypeEnvironment.define env "hasOwnProperty" v ;;
   TypeEnvironment.lookup env name) st
  = (Throw JsTypeError,
     snd (TypeEnvironment.define env "hasOwnProperty" v st)).
Proof.
  intros Henv.
  pose proof (define_envs st env fr "hasOwnProperty" v Henv) as Hnew.
  unfold bind. rewrite (define_existing st env fr _ v Henv) in *.
  cbn [snd] in *. unfold TypeEnvironment.lookup. rewrite Hnew.
  cbn [record]. unfold TypeEnvironment.assign.
  destruct (String.eqb_spec "hasOwnProperty" "__proto__") as [E|_];
    [discriminate E|].
  rewrite lookup_insert_eq. reflexivity.
Qed.

Lemma X15_hasOwnProperty_shadows_lookup_witness :
  (TypeEnvironment.define 0 "hasOwnProperty" (VType Type_number) ;;
   TypeEnvironment.lookup 0 "square") fresh_store
  = (Throw JsTypeError,
     snd (TypeEnvironment.define 0 "hasOwnProperty" (VType Type_number)
            fresh_store)).
Proof.
  apply (X15_hasOwnProperty_shadows_lookup fresh_store 0
           (Frame (<["VERSION" := VType Type_string]>
                     (<["sum" := VType (TFunction 5
                                          (Some "Fn<number<number,number>>")
                                          [Type_number; Type_number]
                                          Type_number)]>
                        (<["square" := VType Fn_number_number]>
                           (<["typeof" := VType Fn_string_any]> ∅))))
                  None) (VType Type_number) "square").
  reflexivity.
Defined.

(** X16.  A variable called [__proto__] is lost: the assignment
    [this.record[name] = type_] reaches the setter inherited from
    [Object.prototype] and creates no property, so [define] returns the
    type and leaves the store as it was, and a [lookup] of the name still
    throws the undefined-name error. *)
Theorem X16_proto_is_not_defined (st : store) (env : nat) (fr : frame)
    (v : tval) :
  envs st !! env = Some fr ->
  record fr !! "hasOwnProperty" = None ->
  record fr !! "__proto__" = None ->
  TypeEnvironment.define env "__proto__" v st = (Ret v, st)
  /\ TypeEnvironment.lookup env "__proto__" st
     = (Throw (UndefinedName "__proto__"), st).
Proof.
  intros Henv Hown Hp. split.
  - rewrite (define_existing st env fr _ v Henv).
    unfold TypeEnvironment.assign.
    destruct (String.eqb_spec "__proto__" "__proto__") as [_|E];
      [|congruence].
    destruct fr as [r p]. cbn [record parent].
    rewrite (list_insert_id _ _ _ Henv). destruct st; reflexivity.
  - rewrite (lookup_own_record_only st env fr _ Henv Hown), Hp.
    reflexivity.
Qed.

Lemma X16_proto_is_not_defined_witness :
  TypeEnvironment.define 0 "__proto__" (VType Type_number) fresh_store
  = (Ret (VType Type_number), fresh_store)
  /\ TypeEnvironment.lookup 0 "__proto__" fresh_store
     = (Throw (UndefinedName "__proto__"), fresh_store).
Proof.
  apply (X16_proto_is_not_defined fresh_store 0
           (Frame (<["VERSION" := VType Type_string]>
                     (<["sum" := VType (TFunction 5
                                          (Some "Fn<number<number,number>>")
                                          [Type_number; Type_number]
                                          Type_number)]>
                        (<["square" := VType Fn_number_number]>
                           (<["typeof" := VType Fn_string_any]> ∅))))
                  None) (VType Type_number));
    reflexivity.
Defined.


(** ** Variables *)

Section References.

Import EvaTC.

Lemma name_char_not_quote (c : ascii) :
  is_name_char c = true -> Ascii.eqb c "034" = false.
Proof.
  destruct c as [[] [] [] [] [] [] [] []]; vm_compute; intros; congruence.
Qed.

Lemma one_char_tag (c a b : ascii) (r : string) :
  String.eqb (String c "") (String a (String b r)) = false.
Proof. simpl. destruct (Ascii.eqb c a); reflexivity. Qed.

Lemma is_reference_inv (x : string) :
  is_reference x = true ->
  exists c x', x = String c x'
    /\ is_name_char c = true
    /\ re_variable_name x = true
    /\ String.eqb x "true" = false /\ String.eqb x "false" = false
    /\ existsb (Ascii.eqb c) ["+"; "-"; "*"; "/"; "<"; ">"]%char = false.
Proof.
  unfold is_reference. intros H.
  apply andb_prop in H as [H H4]. apply andb_prop in H as [H H3].
  apply andb_prop in H as [H1 H2].
  destruct x as [|c x']; [discriminate|].
  exists c, x'. repeat split; auto.
  - unfold re_variable_name in H1. apply andb_prop in H1 as [_ H1].
    simpl in H1. apply andb_prop in H1. tauto.
  - apply negb_true_iff, H2.
  - apply negb_true_iff, H3.
  - apply negb_true_iff, H4.
Qed.

(** A reference is checked by [env.lookup]. *)
Lemma tc_reference (f : sexp -> nat -> M tval) (x : string) (env : nat) :
  is_reference x = true ->
  tc_body f (SStr x) env = TypeEnvironment.lookup env x.
Proof.
  intros H.
  destruct (is_reference_inv x H) as (c & x' & -> & Hc & Hv & Ht & Hf & Hop).
  unfold tc_body. cbn [_isNumber].
  assert (Hs : _isString (SStr (String c x')) = false).
  { unfold _isString. cbn [charAt String.get is_str]. unfold dquote.
    simpl. rewrite (name_char_not_quote c Hc). reflexivity. }
  rewrite Hs.
  assert (Hb : _isBoolean (SStr (String c x')) = false).
  { unfold _isBoolean, is_str. rewrite Ht, Hf. reflexivity. }
  rewrite Hb. cbn [idx charAt String.get].
  assert (Hbin : _isBinary (SStr (String c x')) = false).
  { unfold _isBinary, re_binary_op. cbn [idx charAt String.get toString].
    simpl in Hop. simpl.
    repeat match type of Hop with
           | (_ || _) = false => apply orb_false_elim in Hop as [? Hop]
           end.
    repeat match goal with
           | E : Ascii.eqb c _ = false |- _ => rewrite E; clear E
           end.
    reflexivity. }
  rewrite Hbin.
  assert (Hbb : _isBooleanBinary (SStr (String c x')) = false).
  { unfold _isBooleanBinary, is_str. cbn [idx charAt String.get].
    rewrite !one_char_tag. simpl in Hop. simpl.
    repeat match type of Hop with
           | (_ || _) = false => apply orb_false_elim in Hop as [? Hop]
           end.
    repeat match goal with
           | E : Ascii.eqb c _ = false |- _ => rewrite E; clear E
           end.
    reflexivity. }
  rewrite Hbb. unfold is_str. rewrite !one_char_tag.
  cbn [_isVariableName]. rewrite Hv. reflexivity.
Qed.

End References.

(** X17.  Declare, then use.  After [(var x e)] has been checked in an
    environment, the reference [x] checked in the same environment has the
    type of [e].  This holds for the names that [tc] takes for references
    (not [true] or [false], not starting with an operator character), the
    names [__proto__] and [hasOwnProperty] excepted, in an environment
    without a variable called [hasOwnProperty]. *)
Theorem X17_var_then_reference (fuel fuel' : nat) (x : string) (e : sexp)
    (env : nat) (st st1 : store) (fr : frame) (v : tval) :
  is_reference x = true -> x <> "__proto__" -> x <> "hasOwnProperty" ->
  EvaTC.tc fuel e env st = (Ret v, st1) ->
  envs st1 !! env = Some fr -> record fr !! "hasOwnProperty" = None ->
  (EvaTC.tc (S fuel) (SList [SStr "var"; SStr x; e]) env ;;
   EvaTC.tc (S fuel') (SStr x) env) st
  = (Ret v, snd (TypeEnvironment.define env x v st1)).
Proof.
  intros Hx Hp Hh He Henv Hown.
  change (EvaTC.tc (S fuel) (SList [SStr "var"; SStr x; e]) env)
    with (v' <- EvaTC.tc fuel e env ;;
          TypeEnvironment.define env x v').
  cbn [EvaTC.tc]. rewrite (tc_reference _ x env Hx).
  pose proof (define_lookup st1 env fr x v Henv Hown Hp Hh) as H.
  unfold bind in *. rewrite He. exact H.
Qed.



Lemma X17_var_then_reference_witness :
  (EvaTC.tc 2 (SList [SStr "var"; SStr "y"; SNum 5]) 0 ;;
   EvaTC.tc 1 (SStr "y") 0) fresh_store
  = (Ret (VType Type_number),
     snd (TypeEnvironment.define 0 "y" (VType Type_number) fresh_store)).
Proof.
  apply (X17_var_then_reference 1 0 "y" (SNum 5) 0 fresh_store fresh_store
           global_frame (VType Type_number));
    try reflexivity; discriminate.
Defined.


(** ** Operators, blocks and declarations *)

Section Operators.

Import EvaTC.

Lemma In_arithmetic (op : string) :
  In op arithmetic_operators ->
  op = "+" \/ op = "-" \/ op = "*" \/ op = "/".
Proof. simpl. intuition. Qed.

Lemma In_comparison (op : string) :
  In op comparison_operators ->
  op = "==" \/ op = "!=" \/ op = ">=" \/ op = "<=" \/ op = ">" \/ op = "<".
Proof. simpl. intuition. Qed.

Lemma tc_arithmetic (f : sexp -> nat -> M tval) (op : string)
    (args : list sexp) (env : nat) :
  In op arithmetic_operators ->
  tc_body f (SList (SStr op :: args)) env
  = _binary f (SList (SStr op :: args)) env.
Proof.
  intros H. apply In_arithmetic in H as [-> | [-> | [-> | ->]]]; reflexivity.
Qed.

Lemma tc_comparison (f : sexp -> nat -> M tval) (op : string)
    (args : list sexp) (env : nat) :
  In op comparison_operators ->
  tc_body f (SList (SStr op :: args)) env
  = _booleanBinary f (SList (SStr op :: args)) env.
Proof.
  intros H. apply In_comparison in H as [-> | [-> | [-> | [-> | [-> | ->]]]]];
    reflexivity.
Qed.

Lemma _checkArity_wrong (op : sexp) (args : list sexp) (st : store) :
  List.length args <> 2 ->
  _checkArity (SList (op :: args)) 2 st = (Throw OperatorArity, st).
Proof.
  intros H. unfold _checkArity. cbn [len List.length].
  rewrite Nat.sub_succ, Nat.sub_0_r.
  destruct (Nat.eqb_spec (List.length args) 2); [contradiction|].
  reflexivity.
Qed.

End Operators.

(** X18.  The arithmetic operators do not look at what their operands
    are: [(op e1 e2)], for [op] among [+ - * /], checks as soon as the
    type of [e2] answers true to [equals] of the type of [e1], and its
    type is that of [e2].  So two strings can be subtracted and two
    booleans multiplied. *)
Theorem X18_arithmetic_accepts_equal_types (fuel : nat) (op : string)
    (e1 e2 : sexp) (env : nat) (st st1 st2 : store) (t1 t2 : Ty) :
  In op arithmetic_operators ->
  EvaTC.tc fuel e1 env st = (Ret (VType t1), st1) ->
  EvaTC.tc fuel e2 env st1 = (Ret (VType t2), st2) ->
  equals (Registry.Tnull st2) t2 t1 = Ret true ->
  EvaTC.tc (S fuel) (SList [SStr op; e1; e2]) env st
  = (Ret (VType t2), st2).
Proof.
  intros Hop H1 H2 He. cbn [EvaTC.tc].
  rewrite (tc_arithmetic _ op [e1; e2] env Hop).
  unfold EvaTC._binary, EvaTC._checkArity. cbn [len List.length idx nth].
  unfold bind at 1. cbn [Nat.sub Nat.eqb negb ret].
  unfold bind at 1. rewrite H1. unfold bind at 1. rewrite H2.
  unfold EvaTC._expect, bind, get, lift. cbn [equals_val]. rewrite He.
  reflexivity.
Qed.

Lemma X18_arithmetic_accepts_equal_types_witness :
  EvaTC.tc 2 (SList [SStr "-"; Programs.quoted "a"; Programs.quoted "b"]) 0
    fresh_store
  = (Ret (VType Type_string), fresh_store).
Proof.
  apply (X18_arithmetic_accepts_equal_types 1 "-" (Programs.quoted "a")
           (Programs.quoted "b") 0 fresh_store fresh_store fresh_store
           Type_string Type_string);
    try reflexivity.
  simpl. tauto.
Defined.

(** X19.  An operator with a number of operands other than two is
    rejected with the arity error of [_checkArity], before any operand is
    looked at: the store is as it was. *)
Theorem X19_operator_arity (fuel : nat) (op : string) (args : list sexp)
    (env : nat) (st : store) :
  In op (arithmetic_operators ++ comparison_operators)%list ->
  List.length args <> 2 ->
  EvaTC.tc (S fuel) (SList (SStr op :: args)) env st
  = (Throw OperatorArity, st).
Proof.
  intros Hop Hlen. cbn [EvaTC.tc]. apply in_app_or in Hop as [Hop|Hop].
  - rewrite (tc_arithmetic _ op args env Hop). unfold EvaTC._binary.
    unfold bind. rewrite (_checkArity_wrong _ args st Hlen). reflexivity.
  - rewrite (tc_comparison _ op args env Hop). unfold EvaTC._booleanBinary.
    unfold bind. rewrite (_checkArity_wrong _ args st Hlen). reflexivity.
Qed.

Lemma X19_operator_arity_witness :
  EvaTC.tc 1 (SList [SStr "<"; SNum 1; SNum 2; SNum 3]) 0 fresh_store
  = (Throw OperatorArity, fresh_store).
Proof.
  apply (X19_operator_arity 0 "<" [SNum 1; SNum 2; SNum 3] 0 fresh_store).
  - simpl. tauto.
  - simpl. lia.
Defined.

Section Blocks.

Import EvaTC.

Lemma forEach_last (f : sexp -> nat -> M tval) (env : nat) (es : list sexp)
    (e : sexp) (r : tval) (st : store) :
  (fix forEach (expressions : list sexp) (result : tval) : M tval :=
     match expressions with
     | [] => ret result
     | exp :: rest => r <- f exp env ;; forEach rest r
     end) (es ++ [e])%list r st
  = (mapM (fun x => f x env) es ;; f e env) st.
Proof.
  revert r st. induction es as [|x es IH]; intros r st.
  - cbn [app mapM]. unfold bind, ret.
    destruct (f e env st) as [[v|err| |] st']; reflexivity.
  - cbn [app mapM]. unfold bind at 1 3 4.
    destruct (f x env st) as [[v|err| |] st']; try reflexivity.
    rewrite IH. unfold bind.
    destruct (mapM _ es st') as [[vs|err| |] st'']; reflexivity.
Qed.

End Blocks.

(** X20.  A block has the type of its last expression: [(begin e1 ... en
    e)] allocates one environment whose parent is the current one, checks
    [e1], ..., [en] and then [e] in it, in this order, stops at the first
    that throws, and returns what [e] returns.  The empty block [(begin)]
    returns [undefined]. *)
Theorem X20_block_type_is_the_last (fuel : nat) (es : list sexp) (e : sexp)
    (env : nat) (st : store) :
  EvaTC.tc (S fuel) (SList (SStr "begin" :: (es ++ [e])%list)) env st
  = (blockEnv <- TypeEnvironment.new ∅ (Some env) ;;
     mapM (fun x => EvaTC.tc fuel x blockEnv) es ;;
     EvaTC.tc fuel e blockEnv) st
  /\ EvaTC.tc (S fuel) (SList [SStr "begin"]) env st
     = (Ret VUndefined, snd (TypeEnvironment.new ∅ (Some env) st)).
Proof.
  split; [|reflexivity].
  change (EvaTC.tc (S fuel) (SList (SStr "begin" :: (es ++ [e])%list)) env)
    with (EvaTC.tc_begin (EvaTC.tc fuel)
            (SList (SStr "begin" :: (es ++ [e])%list)) env).
  unfold EvaTC.tc_begin, EvaTC._tcBlock. cbn [elements].
  unfold bind at 1 4, TypeEnvironment.new.
  unfold bind at 1, lift. cbn [skipn].
  apply forEach_last.
Qed.

(** X21.  A class name [C] for which [Type[C]] is [undefined]: it is not
    registered, and it is no property that the [Type] constructor has of
    its own or inherits (such as [name], [toString], [constructor] or
    [hasOwnProperty], for which [Type[C]] is a value that is no class and
    the failure is another one).  For such a name [(new C ...)] and
    [(super C)] do not throw the message written for this case, because
    the message interpolates an identifier, [name], that is bound nowhere
    in these branches; the runtime's [ReferenceError] is thrown instead,
    before any argument is checked. *)
Theorem X21_unknown_class (fuel : nat) (C : string) (args : list sexp)
    (env : nat) (st : store) :
  types st !! C = None -> Registry.is_native C = false ->
  EvaTC.tc (S fuel) (SList (SStr "new" :: SStr C :: args)) env st
  = (Throw (JsReferenceError "name"), st)
  /\ EvaTC.tc (S fuel) (SList (SStr "super" :: SStr C :: args)) env st
     = (Throw (JsReferenceError "name"), st).
Proof.
  intros Ht Hn. split.
  - change (EvaTC.tc (S fuel) (SList (SStr "new" :: SStr C :: args)) env)
      with (EvaTC.tc_new (EvaTC.tc fuel)
              (SList (SStr "new" :: SStr C :: args)) env).
    unfold EvaTC.tc_new, bind, Registry.read. cbn [idx nth toString].
    rewrite Ht, Hn. reflexivity.
  - change (EvaTC.tc (S fuel) (SList (SStr "super" :: SStr C :: args)) env)
      with (EvaTC.tc_super (SList (SStr "super" :: SStr C :: args))).
    unfold EvaTC.tc_super, bind, Registry.read. cbn [idx nth toString].
    rewrite Ht, Hn. reflexivity.
Qed.

Lemma X21_unknown_class_witness :
  EvaTC.tc 1 (SList [SStr "new"; SStr "Point"; SNum 1]) 0 fresh_store
  = (Throw (JsReferenceError "name"), fresh_store)
  /\ EvaTC.tc 1 (SList [SStr "super"; SStr "Point"; SNum 1]) 0 fresh_store
     = (Throw (JsReferenceError "name"), fresh_store).
Proof.
  apply (X21_unknown_class 0 "Point" [SNum 1] 0 fresh_store); reflexivity.
Defined.

Section Declarations.

Import EvaTC.

Lemma tc_type_alias (name : string) (b : string) (st : store) :
  tc_type (SList [SStr "type"; SStr name; SStr b]) st
  = (if Registry.hasOwnProperty st name
     then match types st !! name with
          | Some t =>
              if isGenericFunction t then throw JsTypeError
              else throw (DuplicateTypeDeclaration name)
          | None => throw (DuplicateTypeDeclaration name)
          end
     else if negb (Registry.hasOwnProperty st b)
     then throw (UnknownBaseType b)
     else
       parent <- Registry.read b ;;
       match parent with
       | VType p =>
           oid <- fresh_oid ;;
           let t := TAlias oid name p in
           Registry.write name t ;; ret (VType t)
       | _ => out_of_model
       end) st.
Proof.
  unfold tc_type. cbn [idx nth toString charAt].
  assert (Hor : is_str (charAt b 0) "or" = false).
  { unfold charAt. destruct b as [|c b]; cbn [String.get is_str];
      [reflexivity|].
    apply one_char_tag. }
  rewrite Hor. reflexivity.
Qed.

End Declarations.

(** X22.  What the alias form [(type N B)] rejects, [B] being a name: a
    name [N] that is registered already, with the duplicate-declaration
    error, whatever [B] is; and, for a new [N], a base [B] that is not
    registered, with the unknown-base error.  Nothing is registered in
    either case. *)
Theorem X22_alias_declaration_errors (fuel : nat) (N B : string)
    (env : nat) (st : store) :
  (forall t, types st !! N = Some t -> isGenericFunction t = false ->
     EvaTC.tc (S fuel) (SList [SStr "type"; SStr N; SStr B]) env st
     = (Throw (DuplicateTypeDeclaration N), st))
  /\ (Registry.hasOwnProperty st N = false ->
      Registry.hasOwnProperty st B = false ->
      EvaTC.tc (S fuel) (SList [SStr "type"; SStr N; SStr B]) env st
      = (Throw (UnknownBaseType B), st)).
Proof.
  change (EvaTC.tc (S fuel) (SList [SStr "type"; SStr N; SStr B]) env)
    with (EvaTC.tc_type (SList [SStr "type"; SStr N; SStr B])).
  rewrite tc_type_alias. split.
  - intros t Ht Hg. unfold Registry.hasOwnProperty. rewrite Ht, Hg.
    reflexivity.
  - intros HN HB. rewrite HN, HB. reflexivity.
Qed.

Lemma X22_alias_declaration_errors_witness :
  EvaTC.tc 1 (SList [SStr "type"; SStr "string"; SStr "number"]) 0
    fresh_store
  = (Throw (DuplicateTypeDeclaration "string"), fresh_store)
  /\ EvaTC.tc 1 (SList [SStr "type"; SStr "int"; SStr "integer"]) 0
       fresh_store
     = (Throw (UnknownBaseType "integer"), fresh_store).
Proof.
  split.
  - apply (proj1 (X22_alias_declaration_errors 0 "string" "number" 0
                    fresh_store) Type_string); reflexivity.
  - apply (proj2 (X22_alias_declaration_errors 0 "int" "integer" 0
                    fresh_store)); reflexivity.
Defined.

Section Resolution.

Import EvaTC.

Lemma bind_Ret {A B} (m : M A) (k : A -> M B) (st st' : store) (b : B) :
  bind m k st = (Ret b, st') ->
  exists a st1, m st = (Ret a, st1) /\ k a st1 = (Ret b, st').
Proof.
  unfold bind. destruct (m st) as [[a|e| |] st1]; try discriminate.
  intros H. exists a, st1. split; [reflexivity | exact H].
Qed.

Lemma register_Ret (n : string) (mk : nat -> Ty) (st st' : store)
    (v : tval) :
  (oid <- fresh_oid ;;
   Registry.write n (mk oid) ;; ret (VType (mk oid))) st = (Ret v, st') ->
  v = VType (mk (next_oid st))
  /\ types st' !! n = Some (mk (next_oid st)).
Proof.
  unfold bind, fresh_oid, Registry.write.
  destruct (Registry.is_native n); [discriminate|].
  intros H. injection H as <- <-. split; [reflexivity|].
  cbn [types]. apply lookup_insert_eq.
Qed.

End Resolution.

(** X23.  Declare, then resolve.  When a type declaration [(type N
    base)], alias or union, checks, the type it returns is named [N] and
    is what [Type.fromString] returns for [N] in the store that the
    declaration leaves; a later declaration that registers [N] again
    replaces it. *)
Theorem X23_declared_type_resolves (fuel : nat) (N : string) (base : sexp)
    (env : nat) (st st' : store) (v : tval) :
  EvaTC.tc (S fuel) (SList [SStr "type"; SStr N; base]) env st
  = (Ret v, st') ->
  exists t, v = VType t
            /\ name_of t = NameStr N
            /\ fromString (SStr N) st' = (Ret t, st').
Proof.
  change (EvaTC.tc (S fuel) (SList [SStr "type"; SStr N; base]) env)
    with (EvaTC.tc_type (SList [SStr "type"; SStr N; base])).
  unfold EvaTC.tc_type. cbn [idx nth toString].
  assert (Hend : forall (mk : nat -> Ty) (s1 : store),
             (forall o, name_of (mk o) = NameStr N) ->
             (oid <- fresh_oid ;;
              Registry.write N (mk oid) ;; ret (VType (mk oid))) s1
             = (Ret v, st') ->
             exists t, v = VType t /\ name_of t = NameStr N
                       /\ fromString (SStr N) st' = (Ret t, st')).
  { intros mk s1 Hname H. apply register_Ret in H as [-> Hreg].
    eexists. split; [reflexivity|]. split; [apply Hname|].
    apply (fromStringF_registered 1), Hreg. }
  intros H.
  destruct base as [|z|b|bb|l]; try discriminate H;
    (destruct (is_str _ "or");
     [ apply bind_Ret in H as (opts & s1 & _ & H);
       apply (Hend (fun oid => TUnion oid N opts) s1 (fun _ => eq_refl) H)
     | apply bind_Ret in H as (s0 & s1 & Hget & H);
       injection Hget as <- <-;
       destruct (Registry.hasOwnProperty _ N);
       [ destruct (types _ !! N) as [t|];
         [destruct (isGenericFunction t)|]; discriminate H |];
       destruct (negb _); [discriminate H|];
       apply bind_Ret in H as (p & s2 & _ & H);
       destruct p as [p|]; [|discriminate H];
       apply (Hend (fun oid => TAlias oid N p) s2 (fun _ => eq_refl) H) ]).
Qed.

Lemma X23_declared_type_resolves_witness :
  exists t, VType NumOrStr = VType t
            /\ name_of t = NameStr "NumOrStr"
            /\ fromString (SStr "NumOrStr")
                 (snd (EvaTC.tc 1
                         (SList [SStr "type"; SStr "NumOrStr";
                                 SList [SStr "or"; SStr "number";
                                        SStr "string"]]) 0 fresh_store))
               = (Ret t,
                  snd (EvaTC.tc 1
                         (SList [SStr "type"; SStr "NumOrStr";
                                 SList [SStr "or"; SStr "number";
                                        SStr "string"]]) 0 fresh_store)).
Proof.
  apply (X23_declared_type_resolves 0 "NumOrStr"
           (SList [SStr "or"; SStr "number"; SStr "string"]) 0 fresh_store).
  reflexivity.
Defined.


(** ** Binding of generic parameters *)

Section GenericBinding.

Import EvaTC.

Lemma bind_generic_other (gs actuals : list string) (m : gmap string sexp)
    (k : string) :
  k ∉ gs -> bind_generic gs actuals m !! k = m !! k.
Proof.
  revert actuals m. induction gs as [|g gs IH]; intros actuals m Hk;
    [reflexivity|].
  cbn [bind_generic]. rewrite IH by (intros H; apply Hk; right; exact H).
  apply lookup_insert_ne. intros ->. apply Hk. left.
Qed.

Lemma bind_generic_at (gs actuals : list string) (m : gmap string sexp)
    (i : nat) (g : string) :
  NoDup gs -> gs !! i = Some g ->
  bind_generic gs actuals m !! g = Some (actual_at actuals i).
Proof.
  revert actuals m i. induction gs as [|g0 gs IH]; intros actuals m i Hnd Hi;
    [discriminate|].
  apply NoDup_cons in Hnd as [Hg0 Hnd]. cbn [bind_generic].
  destruct i as [|i].
  - injection Hi as <-. rewrite bind_generic_other by exact Hg0.
    rewrite lookup_insert_eq. unfold actual_at.
    destruct actuals; reflexivity.
  - rewrite (IH (tail actuals) _ i Hnd Hi). unfold actual_at.
    destruct actuals; reflexivity.
Qed.

Lemma _bindFunctionTypes_loop (params r : sexp) (m : gmap string sexp) :
  _bindFunctionTypes params r m
  = match params with
    | SUndef => Throw JsTypeError
    | _ =>
        actualParams ← bind_from params m 0 (len params);
        Ret (SList actualParams, bound m r)
    end.
Proof.
  assert (Hext : forall A B (m1 m2 : res A) (k1 k2 : A -> res B),
             m1 = m2 -> (forall a, k1 a = k2 a) ->
             res_bind m1 k1 = res_bind m2 k2).
  { intros A B m1 m2 k1 k2 -> Hk. destruct m2; simpl; auto. }
  assert (H : forall n i,
             (fix go (i n : nat) : res (list sexp) :=
                match n with
                | 0 => Ret []
                | S n =>
                    '(paramName, paramType) ← destructure2 (idx params i);
                    rest ← go (S i) n;
                    Ret (SList [paramName; bound m paramType] :: rest)
                end) i n = bind_from params m i n).
  { induction n as [|n IH]; intros i; [reflexivity|].
    cbn [bind_from]. apply Hext; [reflexivity|]. intros [a b].
    apply Hext; [apply IH | reflexivity]. }
  unfold _bindFunctionTypes.
  destruct params; try reflexivity; (apply Hext; [apply H | reflexivity]).
Qed.

Lemma bind_from_params (params : list sexp) (m : gmap string sexp)
    (ps : list (sexp * sexp)) (i : nat) :
  skipn i params = map param ps ->
  bind_from (SList params) m i (List.length ps)
  = Ret (map (bound_param m) ps).
Proof.
  revert i. induction ps as [|p ps IH]; intros i Hs; [reflexivity|].
  cbn [List.length map bind_from].
  assert (Hi : nth i params SUndef = param p).
  { rewrite <- (firstn_skipn i params) at 1. rewrite Hs.
    assert (Hlen : List.length (firstn i params) = i).
    { apply firstn_length_le.
      destruct (Nat.le_gt_cases i (List.length params)) as [H|H]; [exact H|].
      rewrite skipn_all2 in Hs by lia. discriminate Hs. }
    rewrite app_nth2 by lia. rewrite Hlen, Nat.sub_diag. reflexivity. }
  cbn [idx]. rewrite Hi. rewrite (IH (S i)).
  - reflexivity.
  - replace (S i) with (1 + i) by reflexivity.
    rewrite <- skipn_skipn. rewrite Hs. reflexivity.
Qed.

End GenericBinding.

(** X24.  [_getGenericTypesMap] pairs the generic names with the actual
    types by position: when the names are distinct, the name at position
    [i] is mapped to the actual type at position [i], or to [undefined]
    when fewer actual types than names are given, and no other name is in
    the map. *)
Theorem X24_generic_types_map (gs actuals : list string) (i : nat)
    (g : string) :
  NoDup gs -> gs !! i = Some g ->
  exists m, EvaTC._getGenericTypesMap (Some gs) actuals = Ret m
            /\ m !! g = Some (actual_at actuals i)
            /\ forall k, k ∉ gs -> m !! k = None.
Proof.
  intros Hnd Hi. eexists. split; [reflexivity|]. split.
  - apply bind_generic_at; assumption.
  - intros k Hk. rewrite bind_generic_other by exact Hk. apply lookup_empty.
Qed.

Lemma X24_generic_types_map_witness :
  exists m, EvaTC._getGenericTypesMap (Some ["K"; "V"]) ["string"; "number"]
            = Ret m
            /\ m !! "V" = Some (actual_at ["string"; "number"] 1)
            /\ forall k, k ∉ ["K"; "V"] -> m !! k = None.
Proof.
  apply (X24_generic_types_map ["K"; "V"] ["string"; "number"] 1 "V");
    [|reflexivity].
  apply (bool_decide_unpack _). reflexivity.
Defined.

(** X25.  [_bindFunctionTypes] substitutes in types only: on parameters
    of the form [(name type)], every parameter keeps its name and has its
    type replaced by the actual type bound to it, if there is one; the
    return type is treated in the same way; the number and the order of
    the parameters are kept, and with no bound generic type the
    parameters and the return type come back unchanged. *)
Theorem X25_bind_function_types (ps : list (sexp * sexp)) (r : sexp)
    (m : gmap string sexp) :
  EvaTC._bindFunctionTypes (SList (map param ps)) r m
  = Ret (SList (map (bound_param m) ps), EvaTC.bound m r)
  /\ EvaTC._bindFunctionTypes (SList (map param ps)) r ∅
     = Ret (SList (map param ps), r).
Proof.
  assert (H : forall m',
             EvaTC._bindFunctionTypes (SList (map param ps)) r m'
             = Ret (SList (map (bound_param m') ps), EvaTC.bound m' r)).
  { intros m'. rewrite _bindFunctionTypes_loop. cbn [len].
    rewrite length_map.
    rewrite (bind_from_params (map param ps) m' ps 0 eq_refl). reflexivity. }
  split; [apply H|]. rewrite H.
  assert (Hb : forall x, EvaTC.bound ∅ x = x).
  { intros x. destruct x; reflexivity. }
  rewrite Hb. f_equal. f_equal. f_equal. apply map_ext.
  intros [n t]. unfold bound_param, param. cbn [fst snd]. rewrite Hb.
  reflexivity.
Qed.


(** ** What a check may change *)

Section StoreInvariant.

Import EvaTC.

Lemma frame_grows_refl (fr : frame) : frame_grows fr fr.
Proof. split; auto. Qed.

Lemma frame_grows_trans (a b c : frame) :
  frame_grows a b -> frame_grows b c -> frame_grows a c.
Proof. intros [H1 H2] [H3 H4]. split; [congruence | auto]. Qed.

Lemma extends_refl (n0 env : nat) (st : store) : extends n0 env st st.
Proof.
  repeat split; auto. intros e fr H. exists fr.
  split; [exact H | apply frame_grows_refl].
Qed.

Lemma extends_trans (n0 env : nat) (a b c : store) :
  extends n0 env a b -> extends n0 env b c -> extends n0 env a c.
Proof.
  intros (H1 & H2 & H3) (H4 & H5 & H6). repeat split.
  - intros e fr He. destruct (H1 e fr He) as (fr1 & He1 & Hg1).
    destruct (H4 e fr1 He1) as (fr2 & He2 & Hg2).
    exists fr2. split; [exact He2 | eapply frame_grows_trans; eassumption].
  - intros e Hlt Hne. rewrite H5, H2; auto.
  - auto.
Qed.

Lemma extends_length (n0 env : nat) (st st' : store) :
  extends n0 env st st' ->
  List.length (envs st) <= List.length (envs st').
Proof.
  intros (H1 & _ & _).
  destruct (Nat.le_gt_cases (List.length (envs st)) (List.length (envs st')))
    as [H|H]; [exact H|].
  destruct (lookup_lt_is_Some_2 (envs st) (List.length (envs st')) H)
    as [fr Hfr].
  destruct (H1 _ fr Hfr) as (fr' & Hfr' & _).
  apply lookup_lt_Some in Hfr'. lia.
Qed.

Lemma extends_weaken (n0 n1 env env' : nat) (st st' : store) :
  n0 <= n1 -> (env' = env \/ n0 <= env') ->
  extends n1 env' st st' -> extends n0 env st st'.
Proof.
  intros Hn Henv (H1 & H2 & H3). repeat split; auto.
  intros e Hlt Hne. apply H2; [lia|]. destruct Henv; [congruence | lia].
Qed.

Lemma modifies_pure {A} (n0 env : nat) (m : M A) :
  pure m -> modifies n0 env m.
Proof. intros H st _. rewrite H. apply extends_refl. Qed.

Lemma modifies_bind_post {A B} (n0 env : nat) (Q : A -> Prop) (m : M A)
    (k : A -> M B) :
  modifies n0 env m ->
  (forall st a st', n0 <= List.length (envs st) -> m st = (Ret a, st') ->
                    Q a) ->
  (forall a, Q a -> modifies n0 env (k a)) ->
  modifies n0 env (bind m k).
Proof.
  intros Hm HQ Hk st Hn. specialize (Hm st Hn). unfold bind.
  destruct (m st) as [[a|e| |] st1] eqn:E; simpl in Hm; try exact Hm.
  eapply extends_trans; [exact Hm|].
  apply Hk; [eapply HQ; eassumption|].
  apply extends_length in Hm. lia.
Qed.

Lemma modifies_bind {A B} (n0 env : nat) (m : M A) (k : A -> M B) :
  modifies n0 env m -> (forall a, modifies n0 env (k a)) ->
  modifies n0 env (bind m k).
Proof.
  intros Hm Hk. apply (modifies_bind_post n0 env (fun _ => True)); auto.
Qed.

Lemma modifies_mapM {A B} (n0 env : nat) (f : A -> M B) (l : list A) :
  (forall x, modifies n0 env (f x)) -> modifies n0 env (mapM f l).
Proof.
  intros Hf.
  induction l as [|x l IH]; [apply modifies_pure; intros st; reflexivity|].
  cbn [mapM]. apply modifies_bind; [apply Hf|]. intros y.
  apply modifies_bind; [exact IH|]. intros ys.
  apply modifies_pure. intros st. reflexivity.
Qed.

(** *** Computations that leave the store alone *)

Lemma pure_ret {A} (a : A) : pure (ret a).
Proof. intros st. reflexivity. Qed.

Lemma pure_throw {A} (e : error) : pure (@throw A e).
Proof. intros st. reflexivity. Qed.

Lemma pure_out_of_model {A} : pure (@out_of_model A).
Proof. intros st. reflexivity. Qed.

Lemma pure_out_of_fuel {A} : pure (@out_of_fuel A).
Proof. intros st. reflexivity. Qed.

Lemma pure_lift {A} (r : res A) : pure (lift r).
Proof. intros st. reflexivity. Qed.

Lemma pure_get : pure get.
Proof. intros st. reflexivity. Qed.

Lemma pure_bind {A B} (m : M A) (k : A -> M B) :
  pure m -> (forall a, pure (k a)) -> pure (bind m k).
Proof.
  intros Hm Hk st. unfold bind. specialize (Hm st).
  destruct (m st) as [[a|e| |] st1]; simpl in Hm; subst; auto.
  apply Hk.
Qed.

Lemma pure_Type_static (k : string) : pure (Type_static k).
Proof. intros st. reflexivity. Qed.

Lemma pure_read (k : string) : pure (Registry.read k).
Proof.
  intros st. unfold Registry.read. destruct (types st !! k); [reflexivity|].
  destruct (Registry.is_native k); reflexivity.
Qed.

Lemma pure_lookup (env : nat) (name : string) :
  pure (TypeEnvironment.lookup env name).
Proof.
  intros st. unfold TypeEnvironment.lookup.
  destruct (envs st !! env) as [fr|]; [|reflexivity].
  destruct (record fr !! "hasOwnProperty"); [reflexivity|].
  destruct (record fr !! name); reflexivity.
Qed.

Lemma pure__throw {A} (a e : tval) : pure (@_throw A a e).
Proof. unfold _throw. destruct (_ || _); apply pure_throw. Qed.

Lemma pure__expect (a e : tval) : pure (_expect a e).
Proof.
  unfold _expect. destruct a; [|apply pure_throw].
  apply pure_bind; [apply pure_get|]. intros st.
  apply pure_bind; [apply pure_lift|].
  intros []; [apply pure_ret | apply pure__throw].
Qed.

Lemma pure__checkArity (exp : sexp) (n : nat) : pure (_checkArity exp n).
Proof.
  unfold _checkArity. destruct (negb _); [apply pure_throw | apply pure_ret].
Qed.

Lemma pure_check_arguments (args : list tval) (ps : list Ty) :
  pure (check_arguments args ps).
Proof.
  revert ps. induction args as [|a args IH]; intros [|p ps];
    try apply pure_ret.
  cbn [check_arguments].
  apply pure_bind; [apply pure_Type_static|]. intros any.
  apply pure_bind; [|intros _; apply IH].
  destruct (same_value p any); [apply pure_ret | apply pure__expect].
Qed.

Lemma pure__checkFunctionCall (fn : tval) (args : list tval) :
  pure (_checkFunctionCall fn args).
Proof.
  unfold _checkFunctionCall. destruct fn as [[]|]; try apply pure_throw.
  destruct (negb _); [apply pure_throw|].
  apply pure_bind; [apply pure_check_arguments|].
  intros _. apply pure_ret.
Qed.

Lemma pure_getField (t : tval) (name : sexp) : pure (getField t name).
Proof.
  unfold getField. destruct t as [[]|]; try apply pure_throw.
  apply pure_lookup.
Qed.

(** *** Computations that write *)

Lemma modifies_fresh_oid (n0 env : nat) : modifies n0 env fresh_oid.
Proof.
  intros st _. unfold fresh_oid. cbn [snd].
  repeat split; cbn [envs types]; auto.
  intros e fr H. exists fr. split; [exact H | apply frame_grows_refl].
Qed.

Lemma modifies_write (n0 env : nat) (k : string) (t : Ty) :
  modifies n0 env (Registry.write k t).
Proof.
  intros st _. unfold Registry.write.
  destruct (Registry.is_native k); [apply extends_refl|].
  cbn [snd]. repeat split; cbn [envs types]; auto.
  - intros e fr H. exists fr. split; [exact H | apply frame_grows_refl].
  - intros k' Hk'. destruct (decide (k = k')) as [->|Hne].
    + rewrite lookup_insert_eq. eauto.
    + rewrite lookup_insert_ne by exact Hne. exact Hk'.
Qed.

Lemma modifies_fromString (n0 env : nat) (typeStr : sexp) :
  modifies n0 env (fromString typeStr).
Proof.
  intros st _.
  destruct (fromString_cases typeStr st)
    as [(t0 & Ht0 & E)|[(r & E & Hr)|(Hn & ps & rt & E)]];
    try (rewrite E; apply extends_refl).
  cbv zeta in E. rewrite E. cbn [snd]. unfold registered.
  repeat split; cbn [envs types]; auto.
  - intros e fr H. exists fr. split; [exact H | apply frame_grows_refl].
  - intros k' Hk'. destruct (decide (toString typeStr = k')) as [<-|Hne].
    + rewrite lookup_insert_eq. eauto.
    + rewrite lookup_insert_ne by exact Hne. exact Hk'.
Qed.

Lemma fromString_envs (typeStr : sexp) (st : store) :
  envs (snd (fromString typeStr st)) = envs st.
Proof. apply (proj1 (fromString_frame typeStr st)). Qed.

Lemma modifies_new (n0 env : nat) (r : gmap string tval) (p : option nat) :
  modifies n0 env (TypeEnvironment.new r p).
Proof.
  intros st Hn. unfold TypeEnvironment.new. cbn [snd].
  repeat split; cbn [envs types]; auto.
  - intros e fr H. exists fr. split; [|apply frame_grows_refl].
    rewrite lookup_app_l by (apply lookup_lt_Some in H; exact H). exact H.
  - intros e Hlt Hne. apply lookup_app_l. lia.
Qed.

Lemma modifies_define (n0 env : nat) (name : string) (v : tval) :
  modifies n0 env (TypeEnvironment.define env name v).
Proof.
  intros st Hn. unfold TypeEnvironment.define.
  destruct (envs st !! env) as [fr|] eqn:Henv; [|apply extends_refl].
  cbn [snd]. repeat split; cbn [envs types]; auto.
  - intros e fr0 H. destruct (Nat.eq_dec e env) as [->|Hne].
    + rewrite list_lookup_insert_eq
        by (apply lookup_lt_Some in Henv; exact Henv).
      eexists. split; [reflexivity|]. rewrite Henv in H. injection H as <-.
      split; [reflexivity|]. cbn [record]. intros k Hk.
      unfold TypeEnvironment.assign.
      destruct (String.eqb name "__proto__"); [exact Hk|].
      destruct (decide (name = k)) as [->|Hk'].
      * rewrite lookup_insert_eq. eauto.
      * rewrite lookup_insert_ne by exact Hk'. exact Hk.
    + rewrite list_lookup_insert_ne by congruence.
      exists fr0. split; [exact H | apply frame_grows_refl].
  - intros e Hlt Hne. apply list_lookup_insert_ne. congruence.
Qed.

Lemma new_Ret (r : gmap string tval) (p : option nat) (st st' : store)
    (a : nat) :
  TypeEnvironment.new r p st = (Ret a, st') -> a = List.length (envs st).
Proof.
  unfold TypeEnvironment.new. intros H. injection H as <- _. reflexivity.
Qed.

Lemma modifies_new_bind {B} (n0 env : nat) (r : gmap string tval)
    (p : option nat) (k : nat -> M B) :
  (forall a, n0 <= a -> modifies n0 env (k a)) ->
  modifies n0 env (bind (TypeEnvironment.new r p) k).
Proof.
  intros Hk. apply (modifies_bind_post n0 env (fun a => n0 <= a));
    [apply modifies_new | | exact Hk].
  intros st a st' Hn H. apply new_Ret in H. lia.
Qed.

Lemma modifies_bind_params (n0 env : nat) (ps : list sexp)
    (r : gmap string tval) (ts : list Ty) :
  modifies n0 env (bind_params ps r ts).
Proof.
  revert r ts. induction ps as [|p ps IH]; intros r ts;
    [apply modifies_pure, pure_ret|].
  cbn [bind_params].
  apply modifies_bind; [apply modifies_pure, pure_lift|]. intros d.
  apply modifies_bind; [apply modifies_fromString|]. intros t. apply IH.
Qed.


Section Body.

Variable f : sexp -> nat -> M tval.
Hypothesis Hf : scoped f.

Lemma modifies_sub (n0 env env' : nat) (e : sexp) :
  env' = env \/ n0 <= env' -> modifies n0 env (f e env').
Proof.
  intros Henv st Hn. eapply extends_weaken; [exact Hn | exact Henv | apply Hf].
Qed.

Lemma modifies_forEach (n0 env env' : nat) (l : list sexp) (r : tval) :
  env' = env \/ n0 <= env' ->
  modifies n0 env
    ((fix forEach (expressions : list sexp) (result : tval) : M tval :=
        match expressions with
        | [] => ret result
        | exp :: rest => r <- f exp env' ;; forEach rest r
        end) l r).
Proof.
  intros Henv. revert r. induction l as [|x l IH]; intros r;
    [apply modifies_pure, pure_ret|].
  apply modifies_bind; [apply modifies_sub, Henv|]. intros r'. apply IH.
Qed.

Lemma modifies__tcBlock (n0 env env' : nat) (block : sexp) :
  env' = env \/ n0 <= env' -> modifies n0 env (_tcBlock f block env').
Proof.
  intros Henv. unfold _tcBlock.
  apply modifies_bind; [apply modifies_pure, pure_lift|]. intros l.
  apply modifies_forEach, Henv.
Qed.

Lemma modifies__tcBody (n0 env env' : nat) (body : sexp) :
  env' = env \/ n0 <= env' -> modifies n0 env (_tcBody f body env').
Proof.
  intros Henv. unfold _tcBody.
  destruct body; try apply modifies_pure, pure_throw;
    (destruct (is_str _ _);
     [apply modifies__tcBlock, Henv | apply modifies_sub, Henv]).
Qed.

Lemma modifies__tcFunction (n0 env : nat) (params rt body : sexp)
    (p : option nat) :
  modifies n0 env (_tcFunction f params rt body p).
Proof.
  unfold _tcFunction.
  apply modifies_bind; [apply modifies_fromString|]. intros t.
  destruct params; try apply modifies_pure, pure_throw.
  apply modifies_bind; [apply modifies_bind_params|]. intros pr.
  apply modifies_new_bind. intros fnEnv Hfn.
  apply modifies_bind; [apply modifies__tcBody; right; exact Hfn|].
  intros art.
  apply modifies_bind; [apply modifies_pure, pure_get|]. intros st.
  apply modifies_bind; [apply modifies_pure, pure_lift|].
  intros [].
  - apply modifies_bind; [apply modifies_fresh_oid|]. intros o.
    apply modifies_pure, pure_ret.
  - destruct (is_generic art); apply modifies_pure, pure_throw.
Qed.

Lemma modifies_new_Class (n0 env : nat) (name : sexp) (superClass : tval) :
  modifies n0 env (new_Class name superClass).
Proof.
  unfold new_Class.
  apply modifies_bind; [apply modifies_pure, pure_Type_static|]. intros null.
  destruct (match superClass with VUndefined => null | _ => superClass end);
    [|apply modifies_pure, pure_out_of_model].
  apply modifies_bind; [apply modifies_new|]. intros e.
  destruct name; try apply modifies_pure, pure_out_of_model.
  apply modifies_bind; [apply modifies_fresh_oid|]. intros o.
  apply modifies_pure, pure_ret.
Qed.

Lemma new_Class_Ret (n0 : nat) (name : sexp) (superClass : tval)
    (st st' : store) (t : Ty) :
  n0 <= List.length (envs st) ->
  new_Class name superClass st = (Ret t, st') ->
  n0 <= class_env t.
Proof.
  intros Hn. unfold new_Class, bind, Type_static, TypeEnvironment.new.
  destruct (match superClass with
            | VUndefined => _
            | _ => superClass
            end); [|discriminate].
  destruct name; try discriminate.
  unfold fresh_oid, ret. intros H. injection H as <- _. exact Hn.
Qed.

Lemma consequent_env_Ret (n0 env : nat) (condition : sexp) (st st' : store)
    (a : nat) :
  n0 <= List.length (envs st) ->
  consequent_env condition env st = (Ret a, st') ->
  a = env \/ n0 <= a.
Proof.
  intros Hn. unfold consequent_env, bind at 1, lift.
  destruct (_isTypeCastCondition condition) as [[|]| | |]; try discriminate.
  - unfold bind at 1.
    destruct (_getSpecifiedType condition) as [ns| | |]; try discriminate.
    unfold bind.
    pose proof (fromString_envs (snd ns) st) as He.
    destruct (fromString (snd ns) st) as [[t|e| |] st1]; try discriminate.
    cbn [snd] in He. intros H. apply new_Ret in H. rewrite He in H.
    right. lia.
  - intros H. injection H as <- _. left. reflexivity.
Qed.

Lemma modifies_consequent_env (n0 env : nat) (condition : sexp) :
  modifies n0 env (consequent_env condition env).
Proof.
  unfold consequent_env.
  apply modifies_bind; [apply modifies_pure, pure_lift|]. intros [].
  - apply modifies_bind; [apply modifies_pure, pure_lift|]. intros ns.
    apply modifies_bind; [apply modifies_fromString|]. intros t.
    apply modifies_new.
  - apply modifies_pure, pure_ret.
Qed.

Create HintDb modifies.

Hint Resolve pure_ret pure_throw pure_out_of_model pure_out_of_fuel
  pure_lift pure_get pure_Type_static pure_read pure_lookup pure__throw
  pure__expect pure__checkArity pure_check_arguments
  pure__checkFunctionCall pure_getField : modifies.

Hint Resolve modifies_fresh_oid modifies_write modifies_fromString
  modifies_new modifies_define modifies_bind_params modifies__tcFunction
  modifies_new_Class modifies_consequent_env : modifies.

Ltac scope_ok :=
  first [ left; reflexivity | right; assumption ].

Ltac modi :=
  repeat first
    [ solve [auto with modifies]
    | apply modifies_pure; solve [auto with modifies]
    | apply modifies_sub; scope_ok
    | apply modifies__tcBody; scope_ok
    | apply modifies__tcBlock; scope_ok
    | apply modifies_mapM; intros ?
    | apply modifies_new_bind; intros ? ?
    | apply modifies_bind; [|intros ?]
    | progress cbv beta zeta
    | match goal with
      | |- modifies _ _ (match ?x with _ => _ end) => destruct x
      | |- modifies _ _ (if ?b then _ else _) => destruct b
      end ].

Lemma modifies_tc_class (n0 : nat) (exp : sexp) (env : nat) :
  modifies n0 env (tc_class f exp env).
Proof.
  unfold tc_class. cbv zeta.
  apply modifies_bind; [modi | intros superClass].
  apply (modifies_bind_post n0 env (fun t => n0 <= class_env t));
    [ apply modifies_new_Class
    | intros st0 t0 st0' Hn H;
      exact (new_Class_Ret n0 _ _ st0 st0' t0 Hn H)
    | ].
  intros classType Hc.
  apply modifies_bind; [modi | intros ?].
  apply modifies_bind; [modi | intros ?].
  apply modifies_bind; [|intros ?; modi].
  apply modifies__tcBody. right. exact Hc.
Qed.

Lemma modifies_tc_if (n0 : nat) (exp : sexp) (env : nat) :
  modifies n0 env (tc_if f exp env).
Proof.
  unfold tc_if. cbv zeta.
  apply modifies_bind; [modi | intros t1].
  apply modifies_bind; [modi | intros boolean].
  apply modifies_bind; [modi | intros ?].
  apply (modifies_bind_post n0 env (fun a => a = env \/ n0 <= a));
    [ apply modifies_consequent_env
    | intros st0 a0 st0' Hn H;
      exact (consequent_env_Ret n0 env _ st0 st0' a0 Hn H)
    | ].
  intros consequentEnv Hc.
  apply modifies_bind; [apply modifies_sub, Hc | intros t2].
  modi.
Qed.

Lemma tc_body_modifies (n0 : nat) (exp : sexp) (env : nat) :
  modifies n0 env (tc_body f exp env).
Proof.
  unfold tc_body.
  destruct (_isNumber exp); [modi|].
  destruct (_isString exp); [modi|].
  destruct (_isBoolean exp); [modi|].
  destruct exp as [|n|s|b|l]; try (apply modifies_pure, pure_throw);
    cbn [isArray];
    repeat match goal with
           | |- modifies _ _ (if ?b then _ else _) => destruct b eqn:?
           end;
    try apply modifies_tc_class; try apply modifies_tc_if;
    try solve [modi];
    cbv delta [_binary _booleanBinary tc_type tc_new tc_super
               tc_prop tc_var tc_set tc_begin tc_while tc_def
               tc_lambda tc_call
               _createGenericFunctionType _createSimpleFunctionType];
    cbv beta.
  all: modi.
Qed.

End Body.

(** Checking an expression in an environment leaves the other
    environments that exist alone, removes no name from any environment
    and no type name from the registry. *)
Lemma tc_scoped (fuel : nat) : scoped (tc fuel).
Proof.
  induction fuel as [|fuel IH]; intros exp env st.
  - apply extends_refl.
  - cbn [tc]. apply (tc_body_modifies (tc fuel) IH). apply le_n.
Qed.

Lemma tc_begin_existing (fuel : nat) (exp : sexp) (env : nat) (st : store)
    (e : nat) :
  e < List.length (envs st) ->
  envs (snd (tc_begin (tc fuel) exp env st)) !! e = envs st !! e.
Proof.
  intros He.
  assert (H : modifies (List.length (envs st)) (S (List.length (envs st)))
                (tc_begin (tc fuel) exp env)).
  { unfold tc_begin. apply modifies_new_bind. intros a Ha.
    apply modifies__tcBlock; [apply tc_scoped|]. right. exact Ha. }
  destruct (H st (le_n _)) as (_ & H2 & _). apply H2; lia.
Qed.

End StoreInvariant.


(** ** Scopes, growth and termination *)

(** X26.  Checking is scoped: whatever the expression, and however the
    check ends, [tc(exp, env)] leaves every other environment that exists
    exactly as it was; what it defines goes to [env] or to environments
    that it creates. *)
Theorem X26_check_is_scoped (fuel : nat) (exp : sexp) (env : nat)
    (st : store) (e : nat) :
  e < List.length (envs st) -> e <> env ->
  envs (snd (EvaTC.tc fuel exp env st)) !! e = envs st !! e.
Proof.
  intros He Hne. destruct (tc_scoped fuel exp env st) as (_ & H & _).
  apply H; assumption.
Qed.

Lemma X26_check_is_scoped_witness :
  envs (snd (EvaTC.tc 2 (SList [SStr "var"; SStr "y"; SNum 5]) 1
               two_scopes)) !! 0
  = envs two_scopes !! 0.
Proof.
  apply (X26_check_is_scoped 2 (SList [SStr "var"; SStr "y"; SNum 5]) 1
           two_scopes 0).
  - vm_compute. lia.
  - lia.
Defined.

(** X27.  A block does not leak: a nested [(begin ...)] leaves every
    environment that exists, the one it is checked in included, exactly
    as it was; the variables it declares go to the environment of the
    block. *)
Theorem X27_block_does_not_leak (fuel : nat) (es : list sexp) (env : nat)
    (st : store) (e : nat) :
  e < List.length (envs st) ->
  envs (snd (EvaTC.tc (S fuel) (SList (SStr "begin" :: es)) env st)) !! e
  = envs st !! e.
Proof.
  intros He.
  change (EvaTC.tc (S fuel) (SList (SStr "begin" :: es)) env)
    with (EvaTC.tc_begin (EvaTC.tc fuel) (SList (SStr "begin" :: es)) env).
  apply tc_begin_existing, He.
Qed.

Lemma X27_block_does_not_leak_witness :
  envs (snd (EvaTC.tc 3
               (SList [SStr "begin"; SList [SStr "var"; SStr "y"; SNum 5]])
               0 fresh_store)) !! 0
  = envs fresh_store !! 0.
Proof.
  apply (X27_block_does_not_leak 2 [SList [SStr "var"; SStr "y"; SNum 5]]
           0 fresh_store 0).
  vm_compute. lia.
Defined.

(** X28.  Nothing is forgotten: after any check, every type name that
    was registered is still registered (possibly to another type), every
    environment is still there with the same parent, and every name that
    an environment bound is still bound in it. *)
Theorem X28_nothing_is_forgotten (fuel : nat) (exp : sexp) (env : nat)
    (st : store) :
  (forall k, is_Some (types st !! k) ->
             is_Some (types (snd (EvaTC.tc fuel exp env st)) !! k))
  /\ (forall e fr, envs st !! e = Some fr ->
        exists fr', envs (snd (EvaTC.tc fuel exp env st)) !! e = Some fr'
                    /\ parent fr' = parent fr
                    /\ forall k, is_Some (record fr !! k) ->
                                 is_Some (record fr' !! k)).
Proof.
  destruct (tc_scoped fuel exp env st) as (H1 & _ & H3).
  split; [exact H3|]. intros e fr He.
  destruct (H1 e fr He) as (fr' & He' & Hp & Hk). eauto.
Qed.

(** X29.  The checker terminates: on every expression tree, the calls of
    [tc] nest at most three deep per level of nesting of the expression,
    plus one; given that much, [tc] completes (it returns, it throws, or
    it stops at a value that the embedding does not represent), and its
    result is the same with any larger bound. *)
Theorem X29_checker_terminates (n : nat) (exp : sexp) (env : nat)
    (st : store) :
  enough_fuel exp <= n ->
  fst (EvaTC.tc n exp env st) <> OutOfFuel
  /\ forall m, n <= m -> EvaTC.tc m exp env st = EvaTC.tc n exp env st.
Proof.
  intros Hn. pose proof (tc_terminates n exp env Hn st) as H.
  split; [exact H|]. intros m Hm. apply (tc_mono n m exp env Hm st H).
Qed.

Lemma X29_checker_terminates_witness :
  fst (EvaTC.tc 19 Programs.fact_def 0 fresh_store) <> OutOfFuel
  /\ forall m, 19 <= m ->
       EvaTC.tc m Programs.fact_def 0 fresh_store
       = EvaTC.tc 19 Programs.fact_def 0 fresh_store.
Proof.
  apply (X29_checker_terminates 19 Programs.fact_def 0 fresh_store).
  vm_compute. lia.
Defined.


(** ** The operand check *)

Section OperandCheck.

Import EvaTC.

(** X30.  The operand check does not ask every option of a union to
    support the operator.  With [number] and [string] registered as the
    primitives, a union of primitive types is accepted for [+] when it
    has an option named [number] or [string], and for [-], [*] and [/]
    when it has an option named [number], whatever its other options are:
    when [includesAll] fails, [_expectOperatorType] goes on to ask whether
    one allowed type equals the union, which one matching option is enough
    for.  A union that is not accepted gets the runtime's
    [ReferenceError], not the message of the [throw]. *)
Theorem X30_operand_check_on_unions (st : store) (o : nat) (n : string)
    (l : list (nat * string)) (op : string) (on os : nat)
    (allowed : M (list tval)) :
  types st !! "number" = Some (TPrim on "number") ->
  types st !! "string" = Some (TPrim os "string") ->
  o <> on -> o <> os ->
  _getOperandTypesForOperator (SStr op) = Some allowed ->
  (a <- allowed ;;
   _expectOperatorType (VType (TUnion o n (map prim l))) a) st
  = (if has_name l "number" || (String.eqb op "+" && has_name l "string")
     then Ret tt else Throw (JsReferenceError "type"), st).
Proof.
  intros Hn Hs Hon Hos Hop.
  set (T := Registry.Tnull st).
  pose proof (union_equals_prim T o n l on "number" Hon) as U1.
  pose proof (union_equals_prim T o n l os "string" Hos) as U2.
  pose proof (prim_equals_union T o n l on "number" Hon) as P1.
  pose proof (prim_equals_union T o n l os "string" Hos) as P2.
  assert (Hnum :
    (a <- (number <- Type_static "number" ;; ret [number]) ;;
     _expectOperatorType (VType (TUnion o n (map prim l))) a) st
    = (if has_name l "number" then Ret tt
       else Throw (JsReferenceError "type"), st)).
  { unfold bind at 1 2, Type_static, ret. rewrite Hn.
    unfold _expectOperatorType, bind, get, lift, some_allowed.
    fold T. rewrite length_map. cbn [List.length every some equals_val].
    rewrite U1, P1.
    destruct (Nat.eqb 1 (List.length l)); cbn [negb];
      destruct (has_name l "number"); reflexivity. }
  unfold _getOperandTypesForOperator, is_str in Hop.
  destruct (String.eqb_spec op "+") as [->|H1].
  - injection Hop as <-.
    unfold bind at 1 2 3, Type_static, ret. rewrite Hn, Hs.
    unfold _expectOperatorType, bind, get, lift, some_allowed.
    fold T. rewrite length_map. cbn [List.length every some equals_val].
    rewrite U1, U2, P1, P2.
    destruct (Nat.eqb 2 (List.length l)); cbn [negb];
      destruct (has_name l "number"), (has_name l "string"); reflexivity.
  - cbn [andb]. rewrite orb_false_r.
    destruct (String.eqb op "-"); [injection Hop as <-; exact Hnum|].
    destruct (String.eqb op "/"); [injection Hop as <-; exact Hnum|].
    destruct (String.eqb op "*"); [injection Hop as <-; exact Hnum|].
    discriminate Hop.
Qed.

Lemma X30_operand_check_on_unions_witness :
  (a <- (number <- Type_static "number" ;; ret [number]) ;;
   _expectOperatorType (VType NumOrStr) a) fresh_store
  = (if has_name [(0, "number"); (1, "string")] "number"
        || (String.eqb "-" "+"
            && has_name [(0, "number"); (1, "string")] "string")
     then Ret tt else Throw (JsReferenceError "type"), fresh_store).
Proof.
  apply (X30_operand_check_on_unions fresh_store 8 "NumOrStr"
           [(0, "number"); (1, "string")] "-" 0 1
           (number <- Type_static "number" ;; ret [number]));
    try reflexivity; lia.
Defined.

End OperandCheck.

